(** * lichess-bot: a shallow embedding of [main.py] (class [BotManager])

    The development follows the source file top-down:

    - [PyCore]: Python exceptions as values, the result type of a call that
      may raise, and [str.split()];
    - [Filter]: [ACCEPTANCE_CRITERIA], [parse_time_control] and
      [is_challenge_acceptable];
    - [Session]: the manager state ([games], [active_games], the engine
      handle), a state-and-exception monad with [try]/[except], and the
      coroutines [restart_engine], [reload_game_state], [make_move],
      [handle_game_state], [handle_initial_state], [process_game],
      [accept_challenge], [decline_challenge] and one pass of [poll_events];
    - [Book]: a small concrete chess-rules instance used to run the model;
    - [Stream]: the line parser of [get_game_stream];
    - [Lifecycle]: [session], [init], [close] and [_reconnect_session];
    - [Words], [FilterCases], [SessionCases], [BookCases]: vocabulary and
      sample inputs of the further properties.

    Awaited calls to the outside world (HTTP requests, the UCI engine) are
    answered by an explicit environment argument; every such call is
    recorded, in order, in the [trace] of the state together with the
    warning/error/critical log records and the sleeps.  Debug and info log
    records are not part of the model. *)

From stdpp Require Import base option list strings gmap.
From Stdlib Require Import ZArith Ascii String.

Local Open Scope string_scope.
Local Open Scope Z_scope.

(* ===================================================================== *)
(** ** Python core: exceptions, results, [str.split()]                    *)
(* ===================================================================== *)

Module PyCore.

(** The exception classes that occur in [main.py].  [IllegalMoveError] and
    [InvalidMoveError] are the two subclasses of [ValueError] that
    [chess.Board.push_uci] raises; [OtherValueError] is a [ValueError] that
    is neither (a malformed FEN given to [chess.Board]). *)
Inductive exn : Type :=
  | IllegalMoveError
  | InvalidMoveError
  | OtherValueError
  | TimeoutError
  | EngineTerminatedError
  | ClientError          (* aiohttp connection errors, request timeouts *)
  | KeyError
  | OtherException.

Global Instance exn_eq_dec : EqDecision exn.
Proof. solve_decision. Defined.

(** [isinstance(e, ValueError)] *)
Definition is_ValueError (e : exn) : bool :=
  match e with
  | IllegalMoveError | InvalidMoveError | OtherValueError => true
  | _ => false
  end.

(** Outcome of a call: a value, or a raised exception. *)
Inductive res (A : Type) : Type :=
  | Ok (a : A)
  | Raise (e : exn).
Global Arguments Ok {A} a.
Global Arguments Raise {A} e.

Definition is_Ok {A} (r : res A) : bool :=
  match r with Ok _ => true | Raise _ => false end.

(** A text ([str]) is the sequence of its code points; a character of the
    model is the code point of the same number, so the texts of the model
    are the texts over U+0000 .. U+00FF.

    Whitespace as [str.split()] and [str.strip()] see it
    ([Py_UNICODE_ISSPACE]) on these code points: space, [\t \n \v \f \r],
    the separators [\x1c .. \x1f], the next-line control U+0085 and the
    no-break space U+00A0. *)
Definition is_space (c : ascii) : bool :=
  let n := nat_of_ascii c in
  ((n =? 32) || ((9 <=? n) && (n <=? 13)) || ((28 <=? n) && (n <=? 31))
   || (n =? 133) || (n =? 160))%nat.

(** [split_acc cur s]: [cur] is the word being read, reversed. *)
Fixpoint split_acc (cur : list ascii) (s : string) : list string :=
  match s with
  | EmptyString =>
      match cur with
      | [] => []
      | _ => [string_of_list_ascii (rev cur)]
      end
  | String c s' =>
      if is_space c then
        match cur with
        | [] => split_acc [] s'
        | _ => string_of_list_ascii (rev cur) :: split_acc [] s'
        end
      else split_acc (c :: cur) s'
  end.

(** [s.split()] without arguments: split on runs of whitespace, no empty
    words. *)
Definition split (s : string) : list string := split_acc [] s.

End PyCore.
Export PyCore.

(* ===================================================================== *)
(** ** ChallengeFilter: [parse_time_control], [is_challenge_acceptable]   *)
(* ===================================================================== *)

Module Filter.

(** [ACCEPTANCE_CRITERIA], a module-level dict with fixed keys. *)
Record AcceptanceCriteria : Type := {
  min_rating : Z;
  max_rating : Z;
  time_controls : list (Z * Z);
  variants : list string;
  rated : bool;
  allow_rematches : bool;
  deny_bots : bool
}.

Definition ACCEPTANCE_CRITERIA : AcceptanceCriteria := {|
  min_rating := 1500;
  max_rating := 3000;
  time_controls :=
    [(60, 0); (180, 0); (180, 2); (300, 0); (300, 5); (600, 0); (600, 10)];
  variants := ["standard"];
  rated := false;
  allow_rematches := true;
  deny_bots := true
|}.

(** The JSON objects of a challenge.  A field is [None] when its key is
    absent, which is what the source's [.get] calls distinguish; present
    values have the type the server gives them (integers for ratings and
    clock values, strings for keys, booleans for flags). *)
Record TimeControl : Type := {
  tc_type : option string;       (* 'type' *)
  limit : option Z;              (* 'limit' *)
  increment : option Z;          (* 'increment' *)
  daysPerTurn : option Z         (* 'daysPerTurn' *)
}.

Record Challenger : Type := {
  title : option string;         (* 'title' *)
  rating : option Z;             (* 'rating' *)
  challenger_rated : option bool (* 'rated', read by [challenger.get('rated', False)] *)
}.

Record Challenge : Type := {
  id : string;                       (* 'id' *)
  challenger : option Challenger;    (* 'challenger' *)
  requested_rated : option bool;     (* 'rated', the mode the challenge asks
                                        for; [main.py] never reads this key *)
  rematch : option bool;             (* 'rematch' *)
  variant_key : option string;       (* challenge.get('variant', {}).get('key') *)
  timeControl : option TimeControl   (* 'timeControl' *)
}.

(** The empty dict [{}] used as default by [.get('challenger', {})] and
    [.get('timeControl', {})]. *)
Definition empty_challenger : Challenger :=
  {| title := None; rating := None; challenger_rated := None |}.
Definition empty_tc : TimeControl :=
  {| tc_type := None; limit := None; increment := None; daysPerTurn := None |}.

(** <<
    def parse_time_control(self, tc):
        if tc['type'] == 'unlimited':
            return (0, 0)
        if tc['type'] == 'correspondence':
            days = tc.get('daysPerTurn', 1)
            return (days * 86400, 0)
        return (tc.get('limit', 0), tc.get('increment', 0))
    >>
    [tc['type']] raises [KeyError] when the key is absent. *)
Definition parse_time_control (tc : TimeControl) : res (Z * Z) :=
  match tc_type tc with
  | None => Raise KeyError
  | Some ty =>
      if bool_decide (ty = "unlimited") then Ok (0, 0)
      else if bool_decide (ty = "correspondence") then
        let days := default 1 (daysPerTurn tc) in
        Ok (days * 86400, 0)
      else Ok (default 0 (limit tc), default 0 (increment tc))
  end.

(** The second component of the returned pair; the source's message texts
    are in the comments of [is_challenge_acceptable]. *)
Inductive reason : Type :=
  | RematchesDisabled
  | RematchFromBotDenied
  | RematchAccepted
  | BotDenied
  | UnsupportedVariant (v : option string)
  | UnsupportedMode (r : bool)
  | UnsupportedGameType
  | RatingOutOfRange (r : Z)
  | BadTimeControl
  | ChallengeAccepted
  | ProcessingError.

(** [challenger.get('title') == 'BOT'] *)
Definition is_bot (ch : Challenger) : bool :=
  bool_decide (title ch = Some "BOT").

(** [tc.get('type') not in ['clock', 'correspondence', 'unlimited']],
    negated. *)
Definition known_tc_type (tc : TimeControl) : bool :=
  match tc_type tc with
  | None => false
  | Some ty => bool_decide (ty ∈ ["clock"; "correspondence"; "unlimited"])
  end.

(** [variant not in ACCEPTANCE_CRITERIA['variants']], negated; a missing
    key gives [None], which is in no list of strings. *)
Definition variant_allowed (crit : AcceptanceCriteria) (v : option string) : bool :=
  match v with
  | None => false
  | Some k => bool_decide (k ∈ variants crit)
  end.

(** [any(parsed_tc[0] == t and parsed_tc[1] >= i for t, i in time_controls)] *)
Definition tc_acceptable (crit : AcceptanceCriteria) (parsed_tc : Z * Z) : bool :=
  existsb (fun '(t, i) => (parsed_tc.1 =? t) && (parsed_tc.2 >=? i))
          (time_controls crit).

(** The body of the [try] block of [is_challenge_acceptable]. *)
Definition is_challenge_acceptable_body
    (crit : AcceptanceCriteria) (challenge : Challenge) : res (bool * reason) :=
  let challenger := default empty_challenger (challenger challenge) in
  let is_rematch := default false (rematch challenge) in
  if is_rematch then
    if negb (allow_rematches crit) then
      Ok (false, RematchesDisabled)          (* "Реванши отключены" *)
    else if deny_bots crit && is_bot challenger then
      Ok (false, RematchFromBotDenied)       (* "Реванш от бота отклонен" *)
    else Ok (true, RematchAccepted)          (* "Принят реванш" *)
  else
    let tc := default empty_tc (timeControl challenge) in
    if deny_bots crit && is_bot challenger then
      Ok (false, BotDenied)                  (* "Вызов от бота отклонен" *)
    else
    let variant := variant_key challenge in
    if negb (variant_allowed crit variant) then
      Ok (false, UnsupportedVariant variant) (* "Неподдерживаемый вариант" *)
    else
    let rated_flag := default false (challenger_rated challenger) in
    if negb (bool_decide (rated_flag = rated crit)) then
      Ok (false, UnsupportedMode rated_flag) (* "Неподдерживаемый режим" *)
    else
    if negb (known_tc_type tc) then
      Ok (false, UnsupportedGameType)        (* "Неподдерживаемый тип игры" *)
    else
    match parse_time_control tc with
    | Raise e => Raise e
    | Ok parsed_tc =>
        let rating_denied :=
          match rating challenger with
          | Some r =>
              (* [if challenger.get('rating'):] a rating of 0 is falsy *)
              if bool_decide (r = 0) then None
              else if negb ((min_rating crit <=? r) && (r <=? max_rating crit))
                   then Some r else None
          | None => None
          end in
        match rating_denied with
        | Some r => Ok (false, RatingOutOfRange r)   (* "Рейтинг ... вне диапазона" *)
        | None =>
            let acceptable := tc_acceptable crit parsed_tc in
            if negb acceptable then
              Ok (false, BadTimeControl)     (* "Недопустимый временной контроль" *)
            else Ok (true, ChallengeAccepted)  (* "Вызов принят" *)
        end
    end.

(** [is_challenge_acceptable]: the body, with
    [except Exception: return False, "Ошибка обработки"]. *)
Definition is_challenge_acceptable
    (crit : AcceptanceCriteria) (challenge : Challenge) : bool * reason :=
  match is_challenge_acceptable_body crit challenge with
  | Ok r => r
  | Raise _ => (false, ProcessingError)
  end.

(** A challenge gets as far as the time-control comparison: it is not a
    rematch and each earlier [return False, ...] is passed. *)
Definition reaches_time_control_rule
    (crit : AcceptanceCriteria) (c : Challenge) : Prop :=
  let ch := default empty_challenger (challenger c) in
  let tc := default empty_tc (timeControl c) in
  default false (rematch c) = false
  /\ (deny_bots crit && is_bot ch) = false
  /\ variant_allowed crit (variant_key c) = true
  /\ default false (challenger_rated ch) = rated crit
  /\ known_tc_type tc = true
  /\ (forall r, rating ch = Some r -> r <> 0 ->
        min_rating crit <= r <= max_rating crit).

(** Sample challenges. *)
Definition clock (l i : Z) : TimeControl :=
  {| tc_type := Some "clock"; limit := Some l; increment := Some i;
     daysPerTurn := None |}.

Definition human (r : Z) : Challenger :=
  {| title := None; rating := Some r; challenger_rated := None |}.

(** a casual 3+2 standard game offered by a player rated 1500 *)
Definition casual_3_2 : Challenge :=
  {| id := "c1"; challenger := Some (human 1500);
     requested_rated := Some false; rematch := None;
     variant_key := Some "standard"; timeControl := Some (clock 180 2) |}.

(** a rematch in a variant outside the allowed set, from a player rated
    below the range *)
Definition rematch_offer : Challenge :=
  {| id := "c2"; challenger := Some (human 900);
     requested_rated := Some false; rematch := Some true;
     variant_key := Some "atomic"; timeControl := Some (clock 30 0) |}.

(** a standard 3+2 game whose challenger object carries [rated: true] *)
Definition rated_3_2 : Challenge :=
  {| id := "c3";
     challenger := Some {| title := None; rating := Some 1500;
                           challenger_rated := Some true |};
     requested_rated := Some true;
     rematch := None;
     variant_key := Some "standard"; timeControl := Some (clock 180 2) |}.

(** a rated 3+2 standard game as the server describes it: the mode is the
    ['rated'] key of the challenge, and the challenger object has no such
    key *)
Definition rated_request_3_2 : Challenge :=
  {| id := "c6"; challenger := Some (human 1500);
     requested_rated := Some true; rematch := None;
     variant_key := Some "standard"; timeControl := Some (clock 180 2) |}.

(** The challenge [c] with its own ['rated'] key set to [flag] ([None]:
    the key removed). *)
Definition with_requested_rated (flag : option bool) (c : Challenge) : Challenge :=
  {| id := id c; challenger := challenger c; requested_rated := flag;
     rematch := rematch c; variant_key := variant_key c;
     timeControl := timeControl c |}.

(** [ACCEPTANCE_CRITERIA] with ['rated'] set to [True]. *)
Definition rated_only : AcceptanceCriteria := {|
  min_rating := min_rating ACCEPTANCE_CRITERIA;
  max_rating := max_rating ACCEPTANCE_CRITERIA;
  time_controls := time_controls ACCEPTANCE_CRITERIA;
  variants := variants ACCEPTANCE_CRITERIA;
  rated := true;
  allow_rematches := allow_rematches ACCEPTANCE_CRITERIA;
  deny_bots := deny_bots ACCEPTANCE_CRITERIA
|}.

End Filter.

(* ===================================================================== *)
(** ** GameSession, MoveSubmitter, EngineSupervisor, SessionPoller        *)
(* ===================================================================== *)

Module Session.
Import Filter.

(** *** The chess library

    [python-chess] is not part of the repository; the model is parametric
    in the operations of [chess.Board] that [main.py] calls.  A move is
    represented by its UCI text ([move.uci()]). *)
Class ChessLib : Type := {
  Board : Type;
  (** [chess.Board()] *)
  Board_start : Board;
  (** [chess.Board(fen)]; raises a [ValueError] on a malformed FEN *)
  Board_fen : string -> res Board;
  (** [board.push_uci(move)], as the board after the push; raises
      [InvalidMoveError] on malformed text and [IllegalMoveError] on a move
      that is not legal in the position, leaving the board as it was *)
  push_uci : Board -> string -> res Board;
  (** [[m.uci() for m in board.move_stack]] *)
  move_stack : Board -> list string;
  (** [board.turn]; [chess.WHITE] is [True] *)
  turn : Board -> bool;
  (** [move in board.legal_moves] *)
  is_legal : Board -> string -> bool
}.

Definition WHITE : bool := true.
Definition BLACK : bool := false.

(** [chess.STARTING_FEN] *)
Definition STARTING_FEN : string :=
  "rnbqkbnr/pppppppp/8/8/8/8/PPPPPPPP/RNBQKBNR w KQkq - 0 1".

(** What the proofs use of the library's documented behaviour. *)
Record ChessLaws (lib : ChessLib) : Prop := {
  (** [chess.Board()] is [chess.Board(chess.STARTING_FEN)] *)
  start_fen : Board_fen STARTING_FEN = Ok Board_start;
  (** a member of [board.legal_moves] can be pushed *)
  legal_push : forall b m, is_legal b m = true -> exists b', push_uci b m = Ok b'
}.

Definition BASE_URL : string := "https://lichess.org/api".
Definition MAX_RETRIES : nat := 3.
Definition REQUEST_DELAY : Z * Z := (3, 7).

(** *** Effects and answers of the outside world *)

Inductive level : Type := WARNING | ERROR | CRITICAL.

Inductive effect : Type :=
  | Log (l : level) (what : string)
  | Sleep (seconds : Z)                  (* asyncio.sleep(seconds) *)
  | SleepUniform (lo hi : Z)             (* asyncio.sleep(random.uniform(lo, hi)) *)
  | HttpGet (url : string)
  | HttpPost (url : string)
  | EnginePlay                           (* self.engine.play(board, ...) *)
  | EngineQuit                           (* self.engine.quit() *)
  | EnginePopen                          (* chess.engine.popen_uci(...) *)
  | EngineConfigure                      (* self.engine.configure(self.params) *)
  | CreateTask (game_id : string).       (* asyncio.create_task(self.process_game(game)) *)

Global Instance level_eq_dec : EqDecision level.
Proof. solve_decision. Defined.
Global Instance effect_eq_dec : EqDecision effect.
Proof. solve_decision. Defined.

(** [session.get(...)] of the game snapshot followed by [response.json()]:
    either of them raises, or a JSON object arrives whose ['fen'] key may be
    absent. *)
Inductive fetch_outcome : Type :=
  | FetchRaises (e : exn)
  | FetchJson (fen : option string).

(** [session.post(...)]: raises, or a response with a status arrives. *)
Inductive post_outcome : Type :=
  | PostRaises (e : exn)
  | PostStatus (status : Z).

(** A request made through [safe_request]: raises, or a response with a
    status and a decoded JSON body. *)
Inductive request_outcome (A : Type) : Type :=
  | ReqRaises (e : exn)
  | ReqStatus (status : Z) (body : A).
Global Arguments ReqRaises {A} e.
Global Arguments ReqStatus {A} status body.

(** [engine.play] under [async_timeout.timeout(5)]: raises
    ([TimeoutError] when the timer fires, [EngineTerminatedError] when the
    process died), or returns a result whose [move] may be [None]. *)
Inductive play_outcome : Type :=
  | PlayRaises (e : exn)
  | PlayResult (move : option string).

(** The awaits at which [make_move] is suspended: the POST of an attempt,
    the [asyncio.sleep(1)] that follows a failed POST, and the requests
    of the [reload_game_state] that follows a rejected push. *)
Inductive await_point : Type :=
  | AwaitPost (attempt : nat)
  | AwaitBackoff (attempt : nat)
  | AwaitReload (attempt : nat).

Global Instance await_point_eq_dec : EqDecision await_point.
Proof. solve_decision. Defined.

(** The outcome of a coroutine awaited under a timer: it returns, or the
    timer cancels it.  The cancellation raises [asyncio.CancelledError]
    at the await where the coroutine is suspended; that is not an
    [Exception], so no [except Exception] clause on its way catches it. *)
Inductive timed (A : Type) : Type :=
  | Done (a : A)
  | Cancelled.
Global Arguments Done {A} a.
Global Arguments Cancelled {A}.

(** The three awaited engine calls of [restart_engine]; [popen_out] is the
    new process handle. *)
Record restart_outcome : Type := {
  quit_out : res unit;
  popen_out : res nat;
  configure_out : res unit
}.

(** The answers a session receives while it handles one stream event.
    [post_move n] answers the POST of attempt number [n].  [timer] is the
    await of [make_move] at which the 5 second timer of
    [handle_game_state] fires, if the call gets there: [None] when the
    block ends in time.  (A timer that fires while [engine.play] is
    awaited is the [TimeoutError] answer of [play].) *)
Record Env : Type := {
  snapshot : fetch_outcome;
  play : play_outcome;
  post_move : nat -> post_outcome;
  timer : option await_point;
  restart : restart_outcome;
  chat_out : request_outcome unit
}.

(** One entry of ['nowPlaying']. *)
Record Game : Type := {
  gameId : string;
  color : option string
}.

(** The answers of one pass of [poll_events]. *)
Record PollEnv : Type := {
  (** GET /challenge; the body is the value under ['in'], if present *)
  challenges_out : request_outcome (option (list Challenge));
  (** POST /challenge/{id}/accept *)
  accept_out : string -> post_outcome;
  (** POST /challenge/{id}/decline *)
  decline_out : string -> request_outcome unit;
  (** GET /account/playing; the body is the value under ['nowPlaying'] *)
  playing_out : request_outcome (option (list Game))
}.

(** A record of the game event stream; a field is [None] when its key is
    absent. *)
Record Event : Type := {
  ev_type : option string;               (* 'type' *)
  ev_state : option (option string);     (* 'state', and its 'moves' *)
  ev_moves : option string;              (* 'moves' *)
  ev_username : option string;           (* 'username' *)
  ev_text : option string                (* 'text' *)
}.

Section WithChess.
Context {lib : ChessLib}.

(** [self.games[game_id]]: a dict with the keys ['board'] and
    ['is_white']. *)
Record GameData : Type := {
  board : Board;
  is_white : bool
}.

(** The attributes of [BotManager] that the coroutines read and write,
    and the trace of effects so far (oldest first). *)
Record Manager : Type := {
  games : gmap string GameData;
  active_games : gmap string Game;
  engine : option nat;
  trace : list effect
}.

Definition set_games (f : gmap string GameData -> gmap string GameData)
    (s : Manager) : Manager :=
  {| games := f (games s); active_games := active_games s;
     engine := engine s; trace := trace s |}.

Definition set_active_games (f : gmap string Game -> gmap string Game)
    (s : Manager) : Manager :=
  {| games := games s; active_games := f (active_games s);
     engine := engine s; trace := trace s |}.

Definition set_engine (e : option nat) (s : Manager) : Manager :=
  {| games := games s; active_games := active_games s;
     engine := e; trace := trace s |}.

Definition add_trace (ev : effect) (s : Manager) : Manager :=
  {| games := games s; active_games := active_games s;
     engine := engine s; trace := trace s ++ [ev] |}.

(** *** A state-and-exception monad

    A coroutine maps the manager state to an outcome and the state it
    leaves behind; what was written before an exception stays written. *)
Definition M (A : Type) : Type := Manager -> res A * Manager.

Definition ret {A} (a : A) : M A := fun s => (Ok a, s).

Definition bind {A B} (m : M A) (k : A -> M B) : M B :=
  fun s => match m s with
           | (Ok a, s') => k a s'
           | (Raise e, s') => (Raise e, s')
           end.

Definition raise {A} (e : exn) : M A := fun s => (Raise e, s).

(** [try: m  except Exception as e: h e]; a handler for one class
    re-raises the others. *)
Definition try_except {A} (m : M A) (h : exn -> M A) : M A :=
  fun s => match m s with
           | (Ok a, s') => (Ok a, s')
           | (Raise e, s') => h e s'
           end.

Definition lift {A} (r : res A) : M A := fun s => (r, s).
Definition gets {A} (f : Manager -> A) : M A := fun s => (Ok (f s), s).
Definition modify (f : Manager -> Manager) : M unit := fun s => (Ok tt, f s).
Definition emit (ev : effect) : M unit := modify (add_trace ev).
Definition log (l : level) (what : string) : M unit := emit (Log l what).
Definition sleep (seconds : Z) : M unit := emit (Sleep seconds).

Global Instance M_ret : MRet M := fun A a => ret a.
Global Instance M_bind : MBind M := fun A B k m => bind m k.
Global Instance M_throw : MThrow exn M := fun A e => raise e.

(** [except cls: h]: the handler of one exception class. *)
Definition except_only {A} (cls : exn) (h : M A) : exn -> M A :=
  fun e => if decide (e = cls) then h else raise e.

(** [self.games[game_id]]; raises [KeyError] when the key is absent. *)
Definition games_getitem (game_id : string) : M GameData :=
  g ← gets (fun s => games s !! game_id);
  match g with
  | Some gd => mret gd
  | None => raise KeyError
  end.

(** The board object of the session takes a new position: the effect of
    [board.push_uci(move)] on the object stored under [game_id]. *)
Definition board_becomes (game_id : string) (b : Board) : M unit :=
  modify (set_games (alter (fun gd => {| board := b; is_white := is_white gd |})
                           game_id)).

(** *** EngineSupervisor: [restart_engine]
    <<
    try:
        if self.engine:
            await self.engine.quit()
            await asyncio.sleep(1)
        self.transport, self.engine = await chess.engine.popen_uci(STOCKFISH_PATH)
        await self.engine.configure(self.params)
    except Exception as e:
        logging.critical(...)
        raise
    >> *)
Definition restart_engine (r : restart_outcome) : M unit :=
  try_except
    (eng ← gets engine;
     match eng with
     | Some _ => emit EngineQuit;; lift (quit_out r);; sleep 1
     | None => mret tt
     end;;
     emit EnginePopen;;
     h ← lift (popen_out r);
     modify (set_engine (Some h));;
     emit EngineConfigure;;
     lift (configure_out r))
    (fun e => log CRITICAL "engine restart failed";; raise e).

(** *** Resync: [reload_game_state]
    <<
    try:
        async with self.session.get(f"{BASE_URL}/bot/game/{game_id}", ...) as response:
            game_data = await response.json()
            new_fen = game_data.get('fen', chess.STARTING_FEN)
            self.games[game_id]['board'] = chess.Board(new_fen)
    except Exception as e:
        logging.error(...)
    >> *)
Definition reload_game_state (out : fetch_outcome) (game_id : string) : M unit :=
  try_except
    (emit (HttpGet (BASE_URL +:+ "/bot/game/" +:+ game_id));;
     match out with
     | FetchRaises e => raise e
     | FetchJson fen =>
         let new_fen := default STARTING_FEN fen in
         b ← lift (Board_fen new_fen);
         gd ← games_getitem game_id;
         modify (set_games (insert game_id
                   {| board := b; is_white := is_white gd |}))
     end)
    (fun e => log ERROR "game reload failed").

(** *** MoveSubmitter: [make_move]

    One pass of the body of [for attempt in range(MAX_RETRIES)]:
    [Some r] when the body executes [return r], [None] when control
    reaches the end of the [except] clause and the loop goes on.
    <<
    try:
        async with self.session.post(f"{BASE_URL}/bot/game/{game_id}/move/{move}", ...) as response:
            if response.status == 200:
                if game_id in self.games:
                    try:
                        self.games[game_id]['board'].push_uci(move)
                    except chess.IllegalMoveError as e:
                        logging.error(...)
                        await self.reload_game_state(game_id)
                return True
            else:
                return False
    except Exception as e:
        logging.error(...)
        await asyncio.sleep(1)
    >> *)
Definition make_move_attempt (env : Env) (game_id move : string) (attempt : nat)
    : M (option bool) :=
  try_except
    (emit (HttpPost (BASE_URL +:+ "/bot/game/" +:+ game_id +:+ "/move/" +:+ move));;
     match post_move env attempt with
     | PostRaises e => raise e
     | PostStatus status =>
         if status =? 200 then
           g ← gets (fun s => games s !! game_id);
           match g with
           | Some gd =>
               try_except
                 (b' ← lift (push_uci (board gd) move);
                  board_becomes game_id b')
                 (except_only IllegalMoveError
                    (log ERROR "board update failed";;
                     reload_game_state (snapshot env) game_id))
           | None => mret tt
           end;;
           mret (Some true)
         else mret (Some false)
     end)
    (fun e => log ERROR "move submission failed";; sleep 1;; mret None).

Fixpoint make_move_loop (env : Env) (game_id move : string) (attempts : list nat)
    : M bool :=
  match attempts with
  | [] => log ERROR "all submission attempts failed";; mret false
  | attempt :: rest =>
      r ← make_move_attempt env game_id move attempt;
      match r with
      | Some b => mret b
      | None => make_move_loop env game_id move rest
      end
  end.

Definition make_move (env : Env) (game_id move : string) : M bool :=
  make_move_loop env game_id move (seq 0 MAX_RETRIES).

(** *** [make_move] under the timer of its caller

    [handle_game_state] awaits [make_move] inside
    [async with async_timeout.timeout(5)], so the timer can fire while
    [make_move] is suspended.  The definitions above are the coroutine
    awaited to its end; the ones below are the coroutine awaited under a
    timer that fires at the await [timer], if any. *)

(** [reload_game_state] under the timer.  Its awaits, the GET and
    [response.json()], come before the assignment of the new board: a
    cancellation leaves the request made and nothing else. *)
Definition reload_game_state_timed (fires : bool) (out : fetch_outcome)
    (game_id : string) : M (timed unit) :=
  if fires then
    emit (HttpGet (BASE_URL +:+ "/bot/game/" +:+ game_id));;
    mret Cancelled
  else
    reload_game_state out game_id;;
    mret (Done tt).

(** One pass of the loop body under the timer. *)
Definition make_move_attempt_timed (timer : option await_point) (env : Env)
    (game_id move : string) (attempt : nat) : M (timed (option bool)) :=
  try_except
    (emit (HttpPost (BASE_URL +:+ "/bot/game/" +:+ game_id +:+ "/move/" +:+ move));;
     if decide (timer = Some (AwaitPost attempt)) then mret Cancelled
     else
     match post_move env attempt with
     | PostRaises e => raise e
     | PostStatus status =>
         if status =? 200 then
           g ← gets (fun s => games s !! game_id);
           r ← match g with
               | Some gd =>
                   try_except
                     (b' ← lift (push_uci (board gd) move);
                      board_becomes game_id b';;
                      mret (Done tt))
                     (except_only IllegalMoveError
                        (log ERROR "board update failed";;
                         reload_game_state_timed
                           (bool_decide (timer = Some (AwaitReload attempt)))
                           (snapshot env) game_id))
               | None => mret (Done tt)
               end;
           match r with
           | Done _ => mret (Done (Some true))
           | Cancelled => mret Cancelled
           end
         else mret (Done (Some false))
     end)
    (fun e =>
       log ERROR "move submission failed";;
       sleep 1;;
       if decide (timer = Some (AwaitBackoff attempt)) then mret Cancelled
       else mret (Done None)).

Fixpoint make_move_loop_timed (timer : option await_point) (env : Env)
    (game_id move : string) (attempts : list nat) : M (timed bool) :=
  match attempts with
  | [] => log ERROR "all submission attempts failed";; mret (Done false)
  | attempt :: rest =>
      r ← make_move_attempt_timed timer env game_id move attempt;
      match r with
      | Cancelled => mret Cancelled
      | Done (Some b) => mret (Done b)
      | Done None => make_move_loop_timed timer env game_id move rest
      end
  end.

Definition make_move_timed (timer : option await_point) (env : Env)
    (game_id move : string) : M (timed bool) :=
  make_move_loop_timed timer env game_id move (seq 0 MAX_RETRIES).

(** *** GameSession: [handle_game_state]

    [len(new_moves) < len(current_moves) or
     new_moves[:len(current_moves)] != current_moves] *)
Definition diverged (current_moves new_moves : list string) : bool :=
  (List.length new_moves <? List.length current_moves)%nat
  || negb (bool_decide (take (List.length current_moves) new_moves = current_moves)).

(** The loop over [new_moves[len(current_moves):]]:
    <<
    for move in new_moves[len(current_moves):]:
        try:
            board.push_uci(move)
        except chess.IllegalMoveError as e:
            logging.error(...)
            await self.reload_game_state(game_id)
            return
    >>
    [Some b] when the loop runs to its end with the board at [b], [None]
    when the function returns from inside the loop. *)
Fixpoint apply_new_moves (env : Env) (game_id : string) (b : Board)
    (new : list string) : M (option Board) :=
  match new with
  | [] => mret (Some b)
  | move :: rest =>
      r ← try_except
            (b' ← lift (push_uci b move);
             board_becomes game_id b';;
             mret (Some b'))
            (except_only IllegalMoveError
               (log ERROR "illegal move in history";;
                reload_game_state (snapshot env) game_id;;
                mret None));
      match r with
      | Some b' => apply_new_moves env game_id b' rest
      | None => mret None
      end
  end.

(** The move computation and commit block of [handle_game_state]:
    <<
    try:
        async with async_timeout.timeout(5):
            result = await self.engine.play(board, chess.engine.Limit(time=0.05), ...)
            if result.move and result.move in board.legal_moves:
                if await self.make_move(game_id, result.move.uci()):
                    logging.info(...)
                else:
                    logging.error(...)
            else:
                logging.warning(...)
    except asyncio.TimeoutError:
        logging.error(...)
    except chess.engine.EngineTerminatedError:
        logging.critical(...)
        await self.restart_engine()
    >>
    The 5 second timer covers both awaits of the block.  When it fires
    while [engine.play] is awaited, that is the [TimeoutError] answer of
    [play]; when it fires while [make_move] is awaited, [make_move] is
    cancelled at its await [timer env], and on leaving the block
    [async_timeout] raises [asyncio.TimeoutError] in place of the
    cancellation. *)
Definition compute_and_commit (env : Env) (game_id : string) (b : Board) : M unit :=
  try_except
    (emit EnginePlay;;
     match play env with
     | PlayRaises e => raise e
     | PlayResult result_move =>
         match result_move with
         | Some m =>
             if is_legal b m then
               sent ← make_move_timed (timer env) env game_id m;
               match sent with
               | Done true => mret tt
               | Done false => log ERROR "move was not delivered"
               | Cancelled => raise TimeoutError
               end
             else log WARNING "engine returned an unusable move"
         | None => log WARNING "engine returned an unusable move"
         end
     end)
    (fun e =>
       if decide (e = TimeoutError) then
         log ERROR "move computation timed out"
       else if decide (e = EngineTerminatedError) then
         log CRITICAL "engine stopped responding";;
         restart_engine (restart env)
       else raise e).

(** [handle_game_state(state, game_id)]; [moves] is [state]'s ['moves']
    key, [None] when absent ([state.get('moves', '')]). *)
Definition handle_game_state (env : Env) (moves : option string) (game_id : string)
    : M unit :=
  try_except
    (game_data ← gets (fun s => games s !! game_id);
     match game_data with
     | None => log ERROR "game data not found"
     | Some gd =>
         let current_moves := move_stack (board gd) in
         let new_moves := split (default "" moves) in
         if diverged current_moves new_moves then
           log WARNING "move history mismatch, reloading the board";;
           reload_game_state (snapshot env) game_id
         else
           r ← apply_new_moves env game_id (board gd)
                 (drop (List.length current_moves) new_moves);
           match r with
           | None => mret tt
           | Some b => compute_and_commit env game_id b
           end
     end)
    (fun e => log ERROR "fatal error").

(** *** GameSession: [handle_initial_state] *)

(** The history replay of [handle_initial_state]:
    [for move in state['moves'].split(): board.push_uci(move)] *)
Fixpoint replay_moves (game_id : string) (b : Board) (l : list string) : M Board :=
  match l with
  | [] => mret b
  | move :: rest =>
      b' ← lift (push_uci b move);
      board_becomes game_id b';;
      replay_moves game_id b' rest
  end.

(** [bool(game_data)]: the dict has the keys ['board'] and ['is_white'],
    and a non-empty dict is true. *)
Definition dict_truthy (game_data : GameData) : bool := true.

(** [bool(s)] of a text *)
Definition str_truthy (s : string) : bool := negb (bool_decide (s = "")).

(** [handle_initial_state(state, game_id)]; [state_moves] is [state]'s
    ['moves'] key.
    <<
    try:
        game_data = self.games[game_id]
        board = game_data['board']
        if 'moves' in state and state['moves']:
            try:
                for move in state['moves'].split():
                    board.push_uci(move)
            except ValueError as e:
                logging.error(...)
                return
        if (board.turn == chess.WHITE and game_data) or \
           (board.turn == chess.BLACK and not game_data):
            await self.handle_game_state(
                {'moves': state.get('moves', ''), 'isMyTurn': True}, game_id)
        else:
            logging.warning(...)
    except Exception as e:
        logging.error(...)
        await self.restart_engine()
    >> *)
Definition handle_initial_state (env : Env) (state_moves : option string)
    (game_id : string) : M unit :=
  try_except
    (game_data ← games_getitem game_id;
     r ← match state_moves with
         | Some moves =>
             if str_truthy moves then
               try_except
                 (b ← replay_moves game_id (board game_data) (split moves);
                  mret (Some b))
                 (fun e => if is_ValueError e
                           then log ERROR "bad move in history";; mret None
                           else raise e)
             else mret (Some (board game_data))
         | None => mret (Some (board game_data))
         end;
     match r with
     | None => mret tt
     | Some b =>
         if (bool_decide (turn b = WHITE) && dict_truthy game_data)
            || (bool_decide (turn b = BLACK) && negb (dict_truthy game_data))
         then handle_game_state env (Some (default "" state_moves)) game_id
         else log WARNING "skipped: not the side to move"
     end)
    (fun e => log ERROR "critical error";; restart_engine (restart env)).

(** *** Requests: [safe_request], [accept_challenge], [decline_challenge]
    <<
    if not url.startswith(("http://", "https://")):
        url = f"{BASE_URL}{url}"
    try:
        async with method(url, **kwargs) as response:
            if response.status == 200:
                return await response.json()
            logging.error(f"HTTP Error {response.status}")
    except Exception as e:
        logging.error(f"Request failed: {str(e)}")
    return None
    >>
    [method] is [self.session.get] or [self.session.post]. *)
Definition safe_request {A} (method : string -> effect) (url : string)
    (out : request_outcome A) : M (option A) :=
  let url := if String.prefix "http://" url || String.prefix "https://" url
             then url else BASE_URL +:+ url in
  try_except
    (emit (method url);;
     match out with
     | ReqRaises e => raise e
     | ReqStatus status body =>
         if status =? 200 then mret (Some body)
         else log ERROR "HTTP Error";; mret None
     end)
    (fun e => log ERROR "Request failed";; mret None).

(** <<
    async def accept_challenge(self, challenge_id):
        await self.session.post(f"{BASE_URL}/challenge/{challenge_id}/accept", ...)
    >> *)
Definition accept_challenge (penv : PollEnv) (challenge_id : string) : M unit :=
  emit (HttpPost (BASE_URL +:+ "/challenge/" +:+ challenge_id +:+ "/accept"));;
  match accept_out penv challenge_id with
  | PostRaises e => raise e
  | PostStatus _ => mret tt
  end.

(** <<
    async def decline_challenge(self, challenge_id):
        await self.safe_request(self.session.post,
            f"{BASE_URL}/challenge/{challenge_id}/decline", ...)
    >> *)
Definition decline_challenge (penv : PollEnv) (challenge_id : string) : M unit :=
  safe_request HttpPost (BASE_URL +:+ "/challenge/" +:+ challenge_id +:+ "/decline")
    (decline_out penv challenge_id);;
  mret tt.

(** *** SessionPoller: one pass of the [while True] loop of [poll_events] *)

(** <<
    for challenge in challenges.get('in', []):
        acceptable, reason = self.is_challenge_acceptable(challenge)
        if acceptable:
            await self.accept_challenge(challenge['id'])
        else:
            await self.decline_challenge(challenge['id'])
    >> *)
Fixpoint answer_challenges (penv : PollEnv) (challenges : list Challenge) : M unit :=
  match challenges with
  | [] => mret tt
  | challenge :: rest =>
      let '(acceptable, _) := is_challenge_acceptable ACCEPTANCE_CRITERIA challenge in
      (if acceptable then accept_challenge penv (id challenge)
       else decline_challenge penv (id challenge));;
      answer_challenges penv rest
  end.

(** <<
    for game in games.get('nowPlaying', []):
        if game['gameId'] not in self.active_games:
            self.active_games[game['gameId']] = asyncio.create_task(self.process_game(game))
    >>
    The task is represented by the game it was created for. *)
Fixpoint spawn_new_games (now_playing : list Game) : M unit :=
  match now_playing with
  | [] => mret tt
  | game :: rest =>
      running ← gets active_games;
      match running !! gameId game with
      | Some _ => mret tt
      | None =>
          emit (CreateTask (gameId game));;
          modify (set_active_games (insert (gameId game) game))
      end;;
      spawn_new_games rest
  end.

(** The block under [async with self.lock]:
    <<
    current_ids = {g['gameId'] for g in games.get('nowPlaying', [])}
    for game_id in list(self.active_games.keys()):
        if game_id not in current_ids:
            del self.active_games[game_id]
    for game in games.get('nowPlaying', []): ...
    >> *)
Definition reconcile (now_playing : list Game) : M unit :=
  let current_ids : gset string := list_to_set (gameId <$> now_playing) in
  modify (set_active_games
            (filter (fun kv : string * Game => kv.1 ∈ current_ids)));;
  spawn_new_games now_playing.

(** The body of [while True:] in [poll_events]. *)
Definition poll_cycle (penv : PollEnv) : M unit :=
  try_except
    (r ← safe_request HttpGet (BASE_URL +:+ "/challenge") (challenges_out penv);
     (* [... or {'in': []}], then [challenges.get('in', [])] *)
     let challenges := default [] (mjoin r) in
     answer_challenges penv challenges;;
     g ← safe_request HttpGet (BASE_URL +:+ "/account/playing") (playing_out penv);
     let now_playing := default [] (mjoin g) in
     reconcile now_playing;;
     emit (SleepUniform REQUEST_DELAY.1 REQUEST_DELAY.2))
    (fun e => log ERROR "main loop error";; sleep 5).

(** *** GameSession: chat and the event loop of [process_game] *)

(** [s.lower()] on the ASCII range *)
Definition lower_ascii (c : ascii) : ascii :=
  let n := nat_of_ascii c in
  if ((65 <=? n) && (n <=? 90))%nat then ascii_of_nat (n + 32) else c.

Fixpoint lower (s : string) : string :=
  match s with
  | EmptyString => EmptyString
  | String c s' => String (lower_ascii c) (lower s')
  end.

(** [d[key]] on a record field: [KeyError] when the key is absent *)
Definition getitem {A} (field : option A) : M A :=
  match field with
  | Some a => mret a
  | None => raise KeyError
  end.

(** <<
    async def send_chat_message(self, game_id, message):
        url = f"{BASE_URL}/bot/game/{game_id}/chat"
        await self.safe_request(self.session.post, url, json=data)
    >> *)
Definition send_chat_message (env : Env) (game_id : string) : M unit :=
  safe_request HttpPost (BASE_URL +:+ "/bot/game/" +:+ game_id +:+ "/chat")
    (chat_out env);;
  mret tt.

(** <<
    if event['username'] == 'lichess':
        return
    message = f"{event['username']}: {event['text']}"
    if event['text'].lower() == '!help':
        await self.send_chat_message(game_id, ...)
    >> *)
Definition handle_chat_message (env : Env) (event : Event) (game_id : string)
    : M unit :=
  username ← getitem (ev_username event);
  if bool_decide (username = "lichess") then mret tt
  else
    text ← getitem (ev_text event);
    if bool_decide (lower text = "!help") then send_chat_message env game_id
    else mret tt.

(** The body of [async for event in self.get_game_stream(game_id)]; the
    result is [true] when the body executes [break].
    <<
    try:
        if event['type'] == 'gameFull':
            await self.handle_initial_state(event['state'], game_id)
        elif event['type'] == 'gameState':
            await self.handle_game_state(event, game_id)
        elif event['type'] == 'chatLine':
            await self.handle_chat_message(event, game_id)
        elif event['type'] in ['gameFinish', 'aborted', 'resign']:
            break
        else:
            logging.debug(...)
    except Exception as e:
        logging.error(...)
    >> *)
Definition process_event (env : Env) (event : Event) (game_id : string) : M bool :=
  try_except
    (ty ← getitem (ev_type event);
     if bool_decide (ty = "gameFull") then
       initial_state ← getitem (ev_state event);
       handle_initial_state env initial_state game_id;;
       mret false
     else if bool_decide (ty = "gameState") then
       handle_game_state env (ev_moves event) game_id;;
       mret false
     else if bool_decide (ty = "chatLine") then
       handle_chat_message env event game_id;;
       mret false
     else if bool_decide (ty ∈ ["gameFinish"; "aborted"; "resign"]) then
       mret true
     else mret false)
    (fun e => log ERROR "event handling error";; mret false).

(** The event loop over the records that the stream delivers, each with
    the answers the session receives while handling it; [stream_end] is
    the exception with which the stream breaks off, if any. *)
Fixpoint run_stream (game_id : string) (events : list (Event * Env))
    (stream_end : option exn) : M unit :=
  match events with
  | [] => match stream_end with
          | Some e => raise e
          | None => mret tt
          end
  | (event, env) :: rest =>
      stop ← process_event env event game_id;
      if stop : bool then mret tt
      else run_stream game_id rest stream_end
  end.

(** [try: m  finally: f] *)
Definition try_finally {A} (m : M A) (f : M unit) : M A :=
  fun s => match m s with
           | (r, s') => match f s' with
                        | (Ok _, s'') => (r, s'')
                        | (Raise e, s'') => (Raise e, s'')
                        end
           end.

(** <<
    async def process_game(self, game):
        game_id = game['gameId']
        self.games[game_id] = {'board': chess.Board(),
                               'is_white': game.get('color') == 'white'}
        try:
            async for event in self.get_game_stream(game_id): ...
        except Exception as e:
            logging.error(...)
        finally:
            async with self.lock:
                if game_id in self.active_games:
                    del self.active_games[game_id]
    >> *)
Definition process_game (game : Game) (events : list (Event * Env))
    (stream_end : option exn) : M unit :=
  let game_id := gameId game in
  modify (set_games (insert game_id
            {| board := Board_start;
               is_white := bool_decide (color game = Some "white") |}));;
  try_finally
    (try_except
       (emit (HttpGet (BASE_URL +:+ "/bot/game/stream/" +:+ game_id));;
        run_stream game_id events stream_end)
       (fun e => log ERROR "game error"))
    (running ← gets active_games;
     match running !! game_id with
     | Some _ => modify (set_active_games (delete game_id))
     | None => mret tt
     end).

(** The state of a freshly started agent: no sessions, engine handle [h]. *)
Definition initial_manager (h : nat) : Manager :=
  {| games := ∅; active_games := ∅; engine := Some h; trace := [] |}.

(** *** Vocabulary of the properties *)

(** Pushing a list of moves in order, without the bookkeeping of the
    session. *)
Fixpoint push_all (b : Board) (l : list string) : res Board :=
  match l with
  | [] => Ok b
  | m :: rest =>
      match push_uci b m with
      | Ok b' => push_all b' rest
      | Raise e => Raise e
      end
  end.

(** The state after the effects [t] have happened. *)
Definition add_effects (t : list effect) (s : Manager) : Manager :=
  {| games := games s; active_games := active_games s;
     engine := engine s; trace := (trace s ++ t)%list |}.

(** The state in which the board object of [game_id] is at [b]. *)
Definition with_board (game_id : string) (b : Board) (s : Manager) : Manager :=
  set_games (alter (fun gd => {| board := b; is_white := is_white gd |}) game_id) s.

(** [self.games[game_id]['board']], if the session exists. *)
Definition board_at (game_id : string) (s : Manager) : option Board :=
  board <$> games s !! game_id.

(** What happened between [s] and [s']. *)
Definition effects_between (s s' : Manager) (t : list effect) : Prop :=
  trace s' = (trace s ++ t)%list.

(** No move computation was requested between [s] and [s']. *)
Definition skips_computation (s s' : Manager) : Prop :=
  exists t : list effect, effects_between s s' t /\ EnginePlay ∉ t.

(** A move computation was requested between [s] and [s']. *)
Definition invokes_computation (s s' : Manager) : Prop :=
  exists t : list effect, effects_between s s' t /\ EnginePlay ∈ t.

(** The URL of the move submission. *)
Definition move_url (game_id move : string) : string :=
  BASE_URL +:+ "/bot/game/" +:+ game_id +:+ "/move/" +:+ move.

(** The effects of [k] submission attempts that end in the [except]
    clause of [make_move]: the POST, the error record, the backoff. *)
Fixpoint failed_attempts (game_id move : string) (k : nat) : list effect :=
  match k with
  | O => []
  | S k' =>
      [HttpPost (move_url game_id move);
       Log ERROR "move submission failed"; Sleep 1]
      ++ failed_attempts game_id move k'
  end.

(** The first [k] POSTs of a submission all raise. *)
Definition first_attempts_raise (env : Env) (k : nat) : Prop :=
  forall i, (i < k)%nat -> exists e, post_move env i = PostRaises e.

(** The coroutine [m] returns normally from every state. *)
Definition never_raises {A} (m : M A) : Prop :=
  forall s, exists a, (m s).1 = Ok a.

(** Between [s] and [s'] nothing was written to the data of a session
    other than [game_id], nor to the registry of running tasks. *)
Definition session_frame (game_id : string) (s s' : Manager) : Prop :=
  (forall other, other <> game_id -> games s' !! other = games s !! other)
  /\ active_games s' = active_games s.

(** Every run of [m] stays within the data of session [game_id]. *)
Definition within_session {A} (game_id : string) (m : M A) : Prop :=
  forall s, session_frame game_id s (m s).2.

End WithChess.
End Session.

(* ===================================================================== *)
(** ** A small chess-rules instance                                       *)
(* ===================================================================== *)

(** An instance of [ChessLib] on which the model runs: positions reached
    from the starting position by first moves of a few pieces, and
    positions set up from another FEN, in which the instance knows no
    legal move.  It is used for the concrete runs below, never in the
    general theorems. *)
Module Book.
Import Session.

Record BookBoard : Type := {
  from_start : bool;          (* set up from [STARTING_FEN] *)
  white_first : bool;         (* side to move of the set-up position *)
  stack : list string         (* moves pushed since, oldest first *)
}.

Definition white_book : list string := ["e2e4"; "d2d4"; "g1f3"].
Definition black_book : list string := ["e7e5"; "d7d5"; "g8f6"].

Definition book_turn (b : BookBoard) : bool :=
  if Nat.even (List.length (stack b)) then white_first b
  else negb (white_first b).

(** Each book move is a first move of its piece, legal whenever it has not
    been played yet and it is its side's turn. *)
Definition book_legal (b : BookBoard) (m : string) : bool :=
  from_start b
  && bool_decide (m ∈ (if book_turn b then white_book else black_book))
  && bool_decide (m ∉ stack b).

Definition is_file (c : ascii) : bool :=
  let n := nat_of_ascii c in ((97 <=? n) && (n <=? 104))%nat.
Definition is_rank (c : ascii) : bool :=
  let n := nat_of_ascii c in ((49 <=? n) && (n <=? 56))%nat.
Definition is_promotion (c : ascii) : bool :=
  bool_decide (c ∈ ["q"; "r"; "b"; "n"]%char).

(** The shape of a UCI move: two squares and an optional promotion piece,
    or the null move. *)
Definition uci_syntax (m : string) : bool :=
  match list_ascii_of_string m with
  | [f1; r1; f2; r2] =>
      (is_file f1 && is_rank r1 && is_file f2 && is_rank r2)
      || bool_decide (m = "0000")
  | [f1; r1; f2; r2; p] =>
      is_file f1 && is_rank r1 && is_file f2 && is_rank r2 && is_promotion p
  | _ => false
  end.

Definition book_push (b : BookBoard) (m : string) : res BookBoard :=
  if negb (uci_syntax m) then Raise InvalidMoveError
  else if bool_decide (m = "0000") || book_legal b m then
    Ok {| from_start := from_start b; white_first := white_first b;
          stack := stack b ++ [m] |}
  else Raise IllegalMoveError.

Definition book_start : BookBoard :=
  {| from_start := true; white_first := true; stack := [] |}.

Definition book_fen (fen : string) : res BookBoard :=
  if bool_decide (fen = STARTING_FEN) then Ok book_start
  else
    match split fen with
    | [] => Raise OtherValueError
    | [_] => Ok {| from_start := false; white_first := true; stack := [] |}
    | _ :: side :: _ =>
        if bool_decide (side = "w") then
          Ok {| from_start := false; white_first := true; stack := [] |}
        else if bool_decide (side = "b") then
          Ok {| from_start := false; white_first := false; stack := [] |}
        else Raise OtherValueError
    end.

Definition book : ChessLib := {|
  Board := BookBoard;
  Board_start := book_start;
  Board_fen := book_fen;
  push_uci := book_push;
  move_stack := stack;
  turn := book_turn;
  is_legal := book_legal
|}.

(** Answers of a quiet world: the snapshot has no ['fen'], the engine
    proposes [e2e4], every POST is answered 200, restarts succeed. *)
Definition quiet_env : Env := {|
  snapshot := FetchJson None;
  play := PlayResult (Some "e2e4");
  post_move := fun _ => PostStatus 200;
  timer := None;
  restart := {| quit_out := Ok tt; popen_out := Ok 1%nat; configure_out := Ok tt |};
  chat_out := ReqStatus 200 tt
|}.

(** A manager with one session [game_id] on board [b]. *)
Definition one_game (game_id : string) (b : BookBoard) (white : bool)
    : @Manager book :=
  {| games := {[ game_id := @Build_GameData book b white ]};
     active_games := ∅; engine := Some 0%nat; trace := [] |}.

(** The starting position with [e2e4] pushed. *)
Definition after_e2e4 : BookBoard :=
  {| from_start := true; white_first := true; stack := ["e2e4"] |}.

(** The position after 1. e4 e5, as a FEN. *)
Definition open_game_fen : string :=
  "rnbqkbnr/pppp1ppp/8/4p3/4P3/8/PPPP1PPP/RNBQKBNR w KQkq e6 0 2".


(** The snapshot carries the FEN of the open game. *)
Definition resync_env : Env := {|
  snapshot := FetchJson (Some open_game_fen);
  play := play quiet_env;
  post_move := post_move quiet_env;
  timer := None;
  restart := restart quiet_env;
  chat_out := chat_out quiet_env
|}.

(** The engine process has died and cannot be launched again. *)
Definition dead_engine_env : Env := {|
  snapshot := FetchJson None;
  play := PlayRaises EngineTerminatedError;
  post_move := fun _ => PostStatus 200;
  timer := None;
  restart := {| quit_out := Ok tt; popen_out := Raise OtherException;
                configure_out := Ok tt |};
  chat_out := ReqStatus 200 tt
|}.

(** Every POST of a move fails at the network level. *)
Definition offline_env : Env := {|
  snapshot := FetchJson None;
  play := PlayResult (Some "e2e4");
  post_move := fun _ => PostRaises ClientError;
  timer := None;
  restart := restart quiet_env;
  chat_out := ReqStatus 200 tt
|}.

(** The server answers the first POST of a move with 400. *)
Definition rejecting_env : Env := {|
  snapshot := FetchJson None;
  play := PlayResult (Some "e2e4");
  post_move := fun _ => PostStatus 400;
  timer := None;
  restart := restart quiet_env;
  chat_out := ReqStatus 200 tt
|}.

(** The engine answers with a move of Black. *)
Definition black_reply_env : Env := {|
  snapshot := FetchJson None;
  play := PlayResult (Some "e7e5");
  post_move := fun _ => PostStatus 200;
  timer := None;
  restart := restart quiet_env;
  chat_out := ReqStatus 200 tt
|}.

(** The server has not answered the first POST of the move when the
    timer of the computation block fires. *)
Definition slow_server_env : Env := {|
  snapshot := FetchJson None;
  play := PlayResult (Some "e2e4");
  post_move := fun _ => PostStatus 200;
  timer := Some (AwaitPost 0);
  restart := restart quiet_env;
  chat_out := ReqStatus 200 tt
|}.

(** Every POST of a move fails at the network level, and the timer fires
    during the pause after the second failure. *)
Definition slow_network_env : Env := {|
  snapshot := FetchJson None;
  play := PlayResult (Some "e2e4");
  post_move := fun _ => PostRaises ClientError;
  timer := Some (AwaitBackoff 1);
  restart := restart quiet_env;
  chat_out := ReqStatus 200 tt
|}.

(** A [gameState] record with the move list [moves]. *)
Definition game_state_event (moves : string) : Event :=
  {| ev_type := Some "gameState"; ev_state := None; ev_moves := Some moves;
     ev_username := None; ev_text := None |}.

(** One pass of the poller: two pending challenges, the first acceptable
    and the second not; one game being played. *)
Definition bullet_from_bot : Filter.Challenge :=
  {| Filter.id := "c9";
     Filter.challenger :=
       Some {| Filter.title := Some "BOT"; Filter.rating := Some 2000;
               Filter.challenger_rated := None |};
     Filter.requested_rated := Some false;
     Filter.rematch := None; Filter.variant_key := Some "standard";
     Filter.timeControl := Some (Filter.clock 60 0) |}.

Definition pending : list Filter.Challenge := [Filter.casual_3_2; bullet_from_bot].

Definition playing : list Game := [ {| gameId := "g9"; color := Some "white" |} ].

(** The POST that accepts a challenge raises a connection error. *)
Definition accept_fails_penv : PollEnv := {|
  challenges_out := ReqStatus 200 (Some pending);
  accept_out := fun _ => PostRaises ClientError;
  decline_out := fun _ => ReqStatus 200 tt;
  playing_out := ReqStatus 200 (Some playing)
|}.

(** The same pass when the POST that declines a challenge raises instead. *)
Definition decline_fails_penv : PollEnv := {|
  challenges_out := ReqStatus 200 (Some (rev pending));
  accept_out := fun _ => PostStatus 200;
  decline_out := fun _ => ReqRaises ClientError;
  playing_out := ReqStatus 200 (Some playing)
|}.

(** A manager without sessions. *)
Definition idle : @Manager book := initial_manager 0%nat.

(** The board of session [game_id], if any. *)
Definition board_of (game_id : string) (s : @Manager book) : option BookBoard :=
  @board book <$> games s !! game_id.

End Book.

(* ===================================================================== *)
(** ** Further vocabulary for texts                                        *)
(* ===================================================================== *)

Module Words.

(** A text without whitespace. *)
Definition no_space (w : string) : Prop :=
  Forall (fun c => is_space c = false) (list_ascii_of_string w).

(** [' '.join(words)], the format of the server's move lists. *)
Fixpoint join (words : list string) : string :=
  match words with
  | [] => ""
  | [w] => w
  | w :: rest => w +:+ " " +:+ join rest
  end.

End Words.

(* ===================================================================== *)
(** ** Further vocabulary for the challenge filter                        *)
(* ===================================================================== *)

Module FilterCases.
Import Filter.

(** The challenge [c] with the ['rating'] key of its challenger set to
    [r] ([None]: the key removed). *)
Definition with_rating (r : option Z) (c : Challenge) : Challenge :=
  let ch := default empty_challenger (challenger c) in
  {| id := id c;
     challenger := Some {| title := title ch; rating := r;
                           challenger_rated := challenger_rated ch |};
     requested_rated := requested_rated c;
     rematch := rematch c;
     variant_key := variant_key c;
     timeControl := timeControl c |}.

(** The reasons that come with [True]. *)
Definition accepting (r : reason) : bool :=
  match r with
  | RematchAccepted | ChallengeAccepted => true
  | _ => false
  end.

(** a standard 5+3 game offered by a player rated 3001 *)
Definition strong_5_3 : Challenge :=
  {| id := "c4"; challenger := Some (human 3001);
     requested_rated := Some false; rematch := None;
     variant_key := Some "standard"; timeControl := Some (clock 300 3) |}.

(** a correspondence game, one day per move, offered by a player rated
    1800 *)
Definition daily : Challenge :=
  {| id := "c5"; challenger := Some (human 1800);
     requested_rated := Some false; rematch := None;
     variant_key := Some "standard";
     timeControl := Some {| tc_type := Some "correspondence"; limit := None;
                            increment := None; daysPerTurn := Some 1 |} |}.

End FilterCases.
(* ===================================================================== *)
(** ** EventStreamParser: [get_game_stream]                               *)
(* ===================================================================== *)

(** <<
    buffer = ""
    async for chunk in response.content.iter_chunked(1024):
        buffer += chunk.decode(errors="replace")
        while "\n" in buffer:
            line, buffer = buffer.split("\n", 1)
            if line.strip():
                try:
                    yield json.loads(line)
                except json.JSONDecodeError:
                    pass
    >>
    The chunks are modelled after decoding, as texts.  [json.loads] belongs
    to the standard library and is a parameter.  The [except] clause
    catches [json.JSONDecodeError] only: any other exception that
    [json.loads] raises ([RecursionError] on a text nested too deeply)
    leaves the generator, which ends there. *)
Module Stream.

Definition newline : ascii := ascii_of_nat 10.

(** [buffer.split("\n", 1)] when ["\n" in buffer]: the text before the
    first newline and the text after it; [None] when there is no
    newline. *)
Fixpoint cut_line (buffer : string) : option (string * string) :=
  match buffer with
  | EmptyString => None
  | String c rest =>
      if Ascii.eqb c newline then Some (EmptyString, rest)
      else match cut_line rest with
           | Some (line, buffer') => Some (String c line, buffer')
           | None => None
           end
  end.

(** [bool(line.strip())]: the line has a character that is not
    whitespace. *)
Definition strip_truthy (line : string) : bool :=
  existsb (fun c => negb (is_space c)) (list_ascii_of_string line).

(** [json.loads(line)]: returns a value, raises [json.JSONDecodeError],
    or raises another exception. *)
Inductive loads_outcome (J : Type) : Type :=
  | Loaded (record : J)
  | JSONDecodeError
  | LoadsRaises (e : exn).
Global Arguments Loaded {J} record.
Global Arguments JSONDecodeError {J}.
Global Arguments LoadsRaises {J} e.

Section WithJson.
Context {J : Type} (loads : string -> loads_outcome J).

(** The body of the [while] loop for one line: the records yielded, and
    the exception that leaves the generator, if one does. *)
Definition yield_line (line : string) : list J * option exn :=
  if strip_truthy line then
    match loads line with
    | Loaded record => ([record], None)
    | JSONDecodeError => ([], None)
    | LoadsRaises e => ([], Some e)
    end
  else ([], None).

(** The [while "\n" in buffer] loop, at most [fuel] rounds: the records
    yielded, the buffer left, and the exception that ended the loop, if
    one did. *)
Fixpoint drain (fuel : nat) (buffer : string) : list J * string * option exn :=
  match fuel with
  | O => ([], buffer, None)
  | S fuel' =>
      match cut_line buffer with
      | None => ([], buffer, None)
      | Some (line, buffer') =>
          match yield_line line with
          | (records, Some e) => (records, buffer', Some e)
          | (records, None) =>
              let '(more, remaining, stop) := drain fuel' buffer' in
              ((records ++ more)%list, remaining, stop)
          end
      end
  end.

(** Every round removes a newline from the buffer, so its length bounds
    the number of rounds. *)
Definition drain_all (buffer : string) : list J * string * option exn :=
  drain (String.length buffer) buffer.

(** The loop over the chunks, started with [buffer].  After the chunks
    the response ends ([stream_end] is [None]) or breaks off with an
    exception of the connection, which leaves the generator. *)
Fixpoint stream_from (buffer : string) (chunks : list string)
    (stream_end : option exn) : list J * option exn :=
  match chunks with
  | [] => ([], stream_end)
  | chunk :: rest =>
      let '(records, remaining, stop) := drain_all (buffer +:+ chunk) in
      match stop with
      | Some e => (records, Some e)
      | None =>
          let '(more, stop') := stream_from remaining rest stream_end in
          ((records ++ more)%list, stop')
      end
  end.

(** The run of the generator [get_game_stream] on a response that arrives
    in the given chunks: the records it yields, in order, and the
    exception that ends it, [None] when it is exhausted. *)
Definition get_game_stream (chunks : list string) (stream_end : option exn)
    : list J * option exn :=
  stream_from EmptyString chunks stream_end.

(** The loop body over a list of lines, up to the first exception. *)
Fixpoint yield_lines (lines : list string) : list J * option exn :=
  match lines with
  | [] => ([], None)
  | line :: rest =>
      match yield_line line with
      | (records, Some e) => (records, Some e)
      | (records, None) =>
          let '(more, stop) := yield_lines rest in
          ((records ++ more)%list, stop)
      end
  end.

(** The value of a line that [json.loads] accepts. *)
Definition decoded (line : string) : option J :=
  match loads line with
  | Loaded record => Some record
  | _ => None
  end.

(** The exception of a line on which [json.loads] raises something else
    than [JSONDecodeError]. *)
Definition raised (line : string) : option exn :=
  match loads line with
  | LoadsRaises e => Some e
  | _ => None
  end.

(** The lines before the first one on which [json.loads] raises something
    else than [JSONDecodeError]. *)
Fixpoint before_raise (lines : list string) : list string :=
  match lines with
  | [] => []
  | line :: rest =>
      match raised line with
      | Some _ => []
      | None => line :: before_raise rest
      end
  end.

End WithJson.

(** The lines of a text that end in a newline, without it, and the text
    after the last newline. *)
Fixpoint lines_and_tail (s : string) : list string * string :=
  match s with
  | EmptyString => ([], EmptyString)
  | String c s' =>
      let '(ls, t) := lines_and_tail s' in
      if Ascii.eqb c newline then (EmptyString :: ls, t)
      else match ls with
           | [] => ([], String c t)
           | l :: ls' => (String c l :: ls', t)
           end
  end.

(** The chunks as one text. *)
Definition concat_chunks (chunks : list string) : string :=
  fold_right String.append EmptyString chunks.

(** A toy decoder for runs of the parser: a record is a text that starts
    with an opening brace; on a text that starts with an opening bracket
    the decoder raises, as [json.loads] does on a text nested too deeply;
    every other text is not JSON. *)
Definition braces (line : string) : loads_outcome string :=
  match line with
  | String "{" _ => Loaded line
  | String "[" _ => LoadsRaises OtherException
  | _ => JSONDecodeError
  end.

End Stream.

(* ===================================================================== *)
(** ** Further vocabulary for sessions and the poller                     *)
(* ===================================================================== *)

Module SessionCases.
Import Session.

Section WithChess.
Context {lib : ChessLib}.

(** Every run of [m] relates the state before and the state after
    by [R]. *)
Definition keeps {A} (R : Manager -> Manager -> Prop) (m : M A) : Prop :=
  forall s, R s (m s).2.

(** Session [game_id] is not lost and nothing outside it is written. *)
Definition stays (game_id : string) (s s' : Manager) : Prop :=
  session_frame game_id s s'
  /\ (is_Some (games s !! game_id) -> is_Some (games s' !! game_id)).

(** The trace only grows. *)
Definition grows (s s' : Manager) : Prop :=
  exists t : list effect, effects_between s s' t.

(** [R] holds across each elementary step that the coroutines of
    session [game_id] make. *)
Class SessionSteps (R : Manager -> Manager -> Prop) (game_id : string) : Prop := {
  step_emit : forall ev, keeps R (emit ev);
  step_engine : forall h, keeps R (modify (set_engine h));
  step_board : forall b, keeps R (board_becomes game_id b);
  step_insert : forall gd, keeps R (modify (set_games (insert game_id gd)))
}.

(** The state in which session [game_id] has the colour flag [w]. *)
Definition recolor (game_id : string) (w : bool) (s : Manager) : Manager :=
  set_games (alter (fun gd => {| board := board gd; is_white := w |}) game_id) s.

(** [m] does the same in a state and in the state with session
    [game_id] recoloured. *)
Definition colour_blind {A} (game_id : string) (w : bool) (m : M A) : Prop :=
  forall s, m (recolor game_id w s) = ((m s).1, recolor game_id w (m s).2).

(** The effect is a POST request. *)
Definition is_post (e : effect) : bool :=
  match e with HttpPost _ => true | _ => false end.

(** The number of POST requests among the effects [t]. *)
Definition count_posts (t : list effect) : nat :=
  List.length (List.filter is_post t).

(** The event is one of the three that end a game. *)
Definition is_terminal (event : Event) : bool :=
  match ev_type event with
  | Some ty => bool_decide (ty ∈ ["gameFinish"; "aborted"; "resign"])
  | None => false
  end.

(** The request that answers a pending challenge: accept when the
    filter accepts, decline otherwise. *)
Definition answer_of (challenge : Filter.Challenge) : effect :=
  HttpPost (BASE_URL +:+ "/challenge/" +:+ Filter.id challenge
            +:+ (if (Filter.is_challenge_acceptable
                       Filter.ACCEPTANCE_CRITERIA challenge).1
                 then "/accept" else "/decline")).

(** No POST that accepts a challenge raises. *)
Definition accepts_get_through (penv : PollEnv) : Prop :=
  forall challenge_id, exists status,
    accept_out penv challenge_id = PostStatus status.

(** The fetch of the playing list fails: it raises, or the status is not
    200. *)
Definition playing_fetch_fails (penv : PollEnv) : Prop :=
  match playing_out penv with
  | ReqRaises _ => True
  | ReqStatus status _ => status <> 200
  end.

(** The ids of the games of a playing list. *)
Definition playing_ids (now_playing : list Game) : gset string :=
  list_to_set (gameId <$> now_playing).

End WithChess.
End SessionCases.

(* ===================================================================== *)
(** ** Start-up and shutdown: [session], [init], [close],
       [_reconnect_session]                                               *)
(* ===================================================================== *)

(** The attributes of [BotManager] that these methods manage are the
    engine handle and the HTTP session [_session]; the games play no part
    in them, so the state here is these two and a trace. *)
Module Lifecycle.

(** An [aiohttp.ClientSession] object. *)
Record ClientSession : Type := {
  session_id : nat;
  closed : bool
}.

Inductive step : Type :=
  | PathExists                       (* os.path.exists(STOCKFISH_PATH) *)
  | Popen                            (* chess.engine.popen_uci(...) *)
  | Configure                        (* self.engine.configure(self.params) *)
  | Quit                             (* self.engine.quit() *)
  | CloseSession (id : nat)          (* self._session.close() *)
  | NewSession (id : nat)            (* aiohttp.ClientSession() *)
  | LogWarning (what : string)
  | LogError (what : string).

Global Instance step_eq_dec : EqDecision step.
Proof. solve_decision. Defined.

Record Resources : Type := {
  _session : option ClientSession;
  engine : option nat;
  steps : list step
}.

(** The answers of the outside world.  [FileNotFoundError] is none of the
    exception classes that the sessions tell apart and is represented by
    [OtherException]. *)
Record World : Type := {
  stockfish_exists : bool;
  popen_out : res nat;
  configure_out : res unit;
  quit_out : res unit;
  close_out : res unit;
  fresh_id : nat
}.

Definition did (st : step) (r : Resources) : Resources :=
  {| _session := _session r; engine := engine r; steps := (steps r ++ [st])%list |}.

Definition set_session (cs : option ClientSession) (r : Resources) : Resources :=
  {| _session := cs; engine := engine r; steps := steps r |}.

Definition set_engine (e : option nat) (r : Resources) : Resources :=
  {| _session := _session r; engine := e; steps := steps r |}.

(** [self._session and not self._session.closed] *)
Definition session_open (r : Resources) : option ClientSession :=
  match _session r with
  | Some cs => if closed cs then None else Some cs
  | None => None
  end.

(** <<
    @property
    def session(self):
        if self._session is None or self._session.closed:
            self._session = aiohttp.ClientSession()
        return self._session
    >> *)
Definition session (w : World) (r : Resources) : ClientSession * Resources :=
  match session_open r with
  | Some cs => (cs, r)
  | None =>
      let cs := {| session_id := fresh_id w; closed := false |} in
      (cs, set_session (Some cs) (did (NewSession (fresh_id w)) r))
  end.

(** <<
    async def close(self):
        tasks = []
        if self.engine:
            tasks.append(self.engine.quit())
        if self._session and not self._session.closed:
            tasks.append(self._session.close())
        if tasks:
            await asyncio.gather( *tasks, return_exceptions=True)
        self._session = None
        self.engine = None
    >>
    [gather(..., return_exceptions=True)] returns the exceptions of the
    tasks as values: whatever [quit_out] and [close_out] are, nothing is
    raised. *)
Definition close (w : World) (r : Resources) : res unit * Resources :=
  let r1 := match engine r with
            | Some _ => did Quit r
            | None => r
            end in
  let r2 := match session_open r with
            | Some cs => did (CloseSession (session_id cs)) r1
            | None => r1
            end in
  (Ok tt, set_engine None (set_session None r2)).

(** <<
    async def init(self):
        try:
            if not os.path.exists(STOCKFISH_PATH):
                raise FileNotFoundError(...)
            self.transport, self.engine = await chess.engine.popen_uci(...)
            await self.engine.configure(self.params)
        except Exception as e:
            await self.close()
            raise
    >> *)
Definition init (w : World) (r : Resources) : res unit * Resources :=
  let on_error (e : exn) (r' : Resources) : res unit * Resources :=
    match close w r' with
    | (Ok _, r'') => (Raise e, r'')
    | (Raise e', r'') => (Raise e', r'')
    end in
  let r0 := did PathExists r in
  if negb (stockfish_exists w) then on_error OtherException r0
  else
    match popen_out w with
    | Raise e => on_error e (did Popen r0)
    | Ok h =>
        let r1 := set_engine (Some h) (did Popen r0) in
        match configure_out w with
        | Raise e => on_error e (did Configure r1)
        | Ok _ => (Ok tt, did Configure r1)
        end
    end.

(** <<
    async def _reconnect_session(self):
        try:
            if self._session and not self._session.closed:
                await self._session.close()
            self._session = aiohttp.ClientSession()
            logging.warning(...)
        except Exception as e:
            logging.error(...)
    >> *)
Definition _reconnect_session (w : World) (r : Resources) : res unit * Resources :=
  let renew (r' : Resources) :=
    (Ok tt,
     did (LogWarning "session recreated")
       (set_session (Some {| session_id := fresh_id w; closed := false |})
          (did (NewSession (fresh_id w)) r'))) in
  match session_open r with
  | Some cs =>
      match close_out w with
      | Ok _ => renew (did (CloseSession (session_id cs)) r)
      | Raise _ =>
          (Ok tt, did (LogError "session could not be recreated")
                    (did (CloseSession (session_id cs)) r))
      end
  | None => renew r
  end.

(** A start in which everything answers. *)
Definition good_world : World := {|
  stockfish_exists := true; popen_out := Ok 7%nat; configure_out := Ok tt;
  quit_out := Ok tt; close_out := Ok tt; fresh_id := 1%nat
|}.

(** A start without the engine binary. *)
Definition no_binary : World := {|
  stockfish_exists := false; popen_out := Ok 7%nat; configure_out := Ok tt;
  quit_out := Ok tt; close_out := Ok tt; fresh_id := 1%nat
|}.

(** A manager as [__init__] leaves it. *)
Definition blank : Resources :=
  {| _session := None; engine := None; steps := [] |}.

End Lifecycle.

(* ===================================================================== *)
(** ** Further runs on the book instance                                   *)
(* ===================================================================== *)

Module BookCases.
Import Session Book.

(** The process of the old engine answers [quit] with an exception. *)
Definition stuck_quit : restart_outcome :=
  {| quit_out := Raise EngineTerminatedError; popen_out := Ok 1%nat;
     configure_out := Ok tt |}.

(** The new process starts but cannot be configured. *)
Definition bad_configure : restart_outcome :=
  {| quit_out := Ok tt; popen_out := Ok 1%nat;
     configure_out := Raise OtherException |}.

(** One pass of the poller in which the playing list cannot be fetched. *)
Definition playing_fails_penv : PollEnv := {|
  challenges_out := ReqStatus 200 (Some pending);
  accept_out := fun _ => PostStatus 200;
  decline_out := fun _ => ReqStatus 200 tt;
  playing_out := ReqRaises ClientError
|}.

(** A manager with a running task for game [g9]. *)
Definition busy : @Manager book :=
  {| games := ∅;
     active_games := {[ "g9" := {| gameId := "g9"; color := Some "white" |} ]};
     engine := Some 0%nat; trace := [] |}.

End BookCases.

(* ===================================================================== *)
(** * Properties                                                          *)
(* ===================================================================== *)

(** ** ChallengeFilter *)

Module FilterFacts.
Import Filter.

Lemma tc_acceptable_spec crit main inc :
  tc_acceptable crit (main, inc) = true <->
  exists t i, (t, i) ∈ time_controls crit /\ main = t /\ i <= inc.
Proof.
  unfold tc_acceptable. rewrite existsb_exists. split.
  - intros [[t i] [Hin Hb]]. simpl in Hb.
    apply andb_true_iff in Hb as [Ht Hi].
    exists t, i. split; [by apply list_elem_of_In|]. lia.
  - intros (t & i & Hin & -> & Hle). exists (t, i). split.
    + by apply list_elem_of_In.
    + simpl. apply andb_true_iff. lia.
Qed.

Lemma parse_known_type tc :
  known_tc_type tc = true -> exists p, parse_time_control tc = Ok p.
Proof.
  unfold known_tc_type, parse_time_control.
  destruct (tc_type tc) as [ty|]; [|done]. intros _.
  repeat case_bool_decide; eauto.
Qed.

(** Past the earlier rules, the answer is decided by [tc_acceptable]. *)
Lemma reaches_result crit c p :
  reaches_time_control_rule crit c ->
  parse_time_control (default empty_tc (timeControl c)) = Ok p ->
  is_challenge_acceptable crit c =
    if tc_acceptable crit p then (true, ChallengeAccepted)
    else (false, BadTimeControl).
Proof.
  intros (Hre & Hbot & Hvar & Hrated & Hty & Hrating) Hp.
  unfold is_challenge_acceptable, is_challenge_acceptable_body.
  rewrite Hre, Hbot, Hvar, Hty, Hp. simpl.
  rewrite bool_decide_true by done. simpl.
  destruct (rating (default empty_challenger (challenger c))) as [r|] eqn:Hr.
  - case_bool_decide as H0.
    + by destruct (tc_acceptable crit p).
    + specialize (Hrating r eq_refl H0).
      replace ((min_rating crit <=? r) && (r <=? max_rating crit)) with true.
      * simpl. by destruct (tc_acceptable crit p).
      * symmetry. apply andb_true_iff. lia.
  - by destruct (tc_acceptable crit p).
Qed.

(** C6. A challenge that reaches the time-control rule is accepted if and
    only if its normalized (main time, increment) pair has a main time
    equal to that of some allowed entry and an increment at least that
    entry's minimum; otherwise it is denied for its time control.  The
    normalized pair is (0, 0) for [unlimited], (daysPerTurn * 86400, 0) for
    [correspondence] and (limit, increment) for [clock], an absent
    [daysPerTurn] counting as 1 and an absent [limit] or [increment]
    as 0. *)
Theorem time_control_acceptance crit c :
  reaches_time_control_rule crit c ->
  let tc := default empty_tc (timeControl c) in
  exists main inc,
    parse_time_control tc = Ok (main, inc)
    /\ (tc_type tc = Some "unlimited" -> (main, inc) = (0, 0))
    /\ (tc_type tc = Some "correspondence" ->
          (main, inc) = (default 1 (daysPerTurn tc) * 86400, 0))
    /\ (tc_type tc = Some "clock" ->
          (main, inc) = (default 0 (limit tc), default 0 (increment tc)))
    /\ ((is_challenge_acceptable crit c).1 = true <->
          exists t i, (t, i) ∈ time_controls crit /\ main = t /\ i <= inc)
    /\ ((is_challenge_acceptable crit c).1 = true ->
          is_challenge_acceptable crit c = (true, ChallengeAccepted))
    /\ ((is_challenge_acceptable crit c).1 = false ->
          is_challenge_acceptable crit c = (false, BadTimeControl)).
Proof.
  intros Hreach tc.
  destruct (parse_known_type tc) as [[main inc] Hp].
  { apply Hreach. }
  exists main, inc. split; [done|].
  rewrite (reaches_result crit c (main, inc) Hreach Hp).
  rewrite <- tc_acceptable_spec.
  unfold parse_time_control in Hp.
  repeat split.
  - intros Hty. rewrite Hty in Hp. simpl in Hp. congruence.
  - intros Hty. rewrite Hty in Hp. simpl in Hp. congruence.
  - intros Hty. rewrite Hty in Hp. simpl in Hp. congruence.
  - by destruct (tc_acceptable crit (main, inc)).
  - by destruct (tc_acceptable crit (main, inc)).
  - by destruct (tc_acceptable crit (main, inc)).
  - by destruct (tc_acceptable crit (main, inc)).
Qed.

Lemma casual_3_2_reaches :
  reaches_time_control_rule ACCEPTANCE_CRITERIA casual_3_2.
Proof.
  unfold reaches_time_control_rule.
  repeat (split; [reflexivity|]).
  intros r [= <-] _. simpl. lia.
Qed.

Lemma time_control_acceptance_witness :
  reaches_time_control_rule ACCEPTANCE_CRITERIA casual_3_2
  /\ is_challenge_acceptable ACCEPTANCE_CRITERIA casual_3_2
     = (true, ChallengeAccepted).
Proof.
  split; [exact casual_3_2_reaches|].
  destruct (time_control_acceptance _ _ casual_3_2_reaches)
    as (main & inc & _ & _ & _ & _ & _ & Hacc & _).
  apply Hacc. reflexivity.
Defined.

(** C7. A challenge marked as a rematch is denied when rematches are
    disabled, denied when the challenger is a bot and deny-bots is set, and
    accepted otherwise; its variant, rating, rated flag and time control
    are not consulted: two rematch challenges whose challengers have the
    same title get the same answer. *)
Theorem rematch_handling crit c :
  default false (rematch c) = true ->
  let ch := default empty_challenger (challenger c) in
  is_challenge_acceptable crit c =
    (if negb (allow_rematches crit) then (false, RematchesDisabled)
     else if deny_bots crit && bool_decide (title ch = Some "BOT")
          then (false, RematchFromBotDenied)
          else (true, RematchAccepted))
  /\ ((is_challenge_acceptable crit c).1 = true <->
        allow_rematches crit = true
        /\ ~ (deny_bots crit = true /\ title ch = Some "BOT"))
  /\ (forall c',
        default false (rematch c') = true ->
        title (default empty_challenger (challenger c')) = title ch ->
        is_challenge_acceptable crit c' = is_challenge_acceptable crit c).
Proof.
  intros Hre ch.
  assert (Heq : forall c0, default false (rematch c0) = true ->
    is_challenge_acceptable crit c0 =
      (if negb (allow_rematches crit) then (false, RematchesDisabled)
       else if deny_bots crit
               && bool_decide (title (default empty_challenger (challenger c0))
                               = Some "BOT")
            then (false, RematchFromBotDenied)
            else (true, RematchAccepted))).
  { intros c0 H0. unfold is_challenge_acceptable, is_challenge_acceptable_body.
    rewrite H0. unfold is_bot.
    destruct (allow_rematches crit); simpl; [|done].
    by destruct (deny_bots crit && _). }
  split; [by apply Heq|]. split.
  - rewrite (Heq c Hre). fold ch.
    destruct (allow_rematches crit), (deny_bots crit); simpl;
      [destruct (bool_decide_reflect (title ch = Some "BOT")); simpl| | |];
      intuition congruence.
  - intros c' Hre' Ht. rewrite (Heq c' Hre'), (Heq c Hre). fold ch.
    by rewrite Ht.
Qed.

Lemma rematch_handling_witness :
  default false (rematch rematch_offer) = true
  /\ is_challenge_acceptable ACCEPTANCE_CRITERIA rematch_offer
     = (true, RematchAccepted).
Proof.
  split; [reflexivity|].
  exact (proj1 (rematch_handling ACCEPTANCE_CRITERIA rematch_offer eq_refl)).
Defined.

(** The rule as the source has it: a challenge that is not a rematch and
    passes the bot and variant checks is denied whenever the ['rated'] key
    of its challenger object (false when absent) differs from the required
    flag, before the type, rating and time-control rules. *)
Lemma challenger_flag_rule crit c :
  let ch := default empty_challenger (challenger c) in
  default false (rematch c) = false ->
  (deny_bots crit && is_bot ch) = false ->
  variant_allowed crit (variant_key c) = true ->
  default false (challenger_rated ch) <> rated crit ->
  is_challenge_acceptable crit c
  = (false, UnsupportedMode (default false (challenger_rated ch))).
Proof.
  intros ch Hre Hbot Hvar Hrated.
  unfold is_challenge_acceptable, is_challenge_acceptable_body.
  fold ch. rewrite Hre, Hbot, Hvar. simpl.
  by rewrite bool_decide_false.
Qed.

(** It takes a challenger object that carries [rated: true] itself for
    the rule to deny under [ACCEPTANCE_CRITERIA]. *)
Lemma challenger_flag_rule_run :
  is_challenge_acceptable ACCEPTANCE_CRITERIA rated_3_2
  = (false, UnsupportedMode true).
Proof.
  apply (challenger_flag_rule ACCEPTANCE_CRITERIA rated_3_2); try reflexivity.
  simpl. discriminate.
Qed.

(** C8. The rated-flag rule does not test the flag that the challenge
    requests.  The filter reads ['rated'] from the challenger object
    ([challenger.get('rated', False)]), not from the challenge, so its
    answer is the same whatever the challenge's own ['rated'] key says.
    Under [ACCEPTANCE_CRITERIA], which require casual games, a rated 3+2
    challenge that is not a rematch and passes the bot and variant checks
    is accepted instead of denied; under criteria that require rated
    games the same rated challenge is denied for its mode. *)
Theorem rated_flag_read_from_challenger :
  (forall crit c flag,
     is_challenge_acceptable crit (with_requested_rated flag c)
     = is_challenge_acceptable crit c)
  /\ (requested_rated rated_request_3_2 = Some true
      /\ rated ACCEPTANCE_CRITERIA = false
      /\ default false (rematch rated_request_3_2) = false
      /\ is_bot (default empty_challenger (challenger rated_request_3_2)) = false
      /\ variant_allowed ACCEPTANCE_CRITERIA (variant_key rated_request_3_2) = true
      /\ is_challenge_acceptable ACCEPTANCE_CRITERIA rated_request_3_2
         = (true, ChallengeAccepted))
  /\ (rated rated_only = true
      /\ is_challenge_acceptable rated_only rated_request_3_2
         = (false, UnsupportedMode false)).
Proof.
  split; [done|]. split; repeat split; vm_compute; reflexivity.
Qed.

End FilterFacts.

(** ** GameSession, MoveSubmitter, EngineSupervisor *)

Module SessionFacts.
Import Session.

Ltac unfold_M :=
  unfold board_becomes, games_getitem, getitem;
  unfold mbind, M_bind, mret, M_ret, bind, ret, raise, try_except, lift, gets,
    modify, emit, log, sleep, except_only in *.

Section WithChess.
Context {lib : ChessLib}.

Implicit Types (s : Manager) (b : Board) (env : Env) (game_id : string).

(** *** Bookkeeping of states and traces *)

Lemma manager_eq s s' :
  games s = games s' -> active_games s = active_games s' ->
  engine s = engine s' -> trace s = trace s' -> s = s'.
Proof. destruct s, s'; simpl; congruence. Qed.

Lemma with_board_same game_id gd s :
  games s !! game_id = Some gd -> with_board game_id (board gd) s = s.
Proof.
  intros Hgd. apply manager_eq; try done. simpl.
  apply map_eq. intros k. rewrite lookup_alter.
  case_decide as Hk; [|done]. subst k. rewrite Hgd. by destruct gd.
Qed.

Lemma with_board_twice game_id b1 b2 s :
  with_board game_id b2 (with_board game_id b1 s) = with_board game_id b2 s.
Proof.
  apply manager_eq; try done. simpl.
  apply map_eq. intros k. rewrite !lookup_alter.
  repeat case_decide; try done. by destruct (games s !! game_id).
Qed.

Lemma board_at_with_board game_id b gd s :
  games s !! game_id = Some gd ->
  games (with_board game_id b s) !! game_id
  = Some {| board := b; is_white := is_white gd |}.
Proof.
  intros Hgd. simpl. rewrite lookup_alter. case_decide; [|done].
  by rewrite Hgd.
Qed.





(** *** [reload_game_state] *)

Lemma reload_cases out game_id s :
  reload_game_state out game_id s =
  let s1 := add_trace (HttpGet (BASE_URL +:+ "/bot/game/" +:+ game_id)) s in
  let failed := (Ok tt, add_trace (Log ERROR "game reload failed") s1) in
  match out with
  | FetchRaises _ => failed
  | FetchJson fen =>
      match Board_fen (default STARTING_FEN fen), games s !! game_id with
      | Ok b, Some gd =>
          (Ok tt, set_games (insert game_id {| board := b; is_white := is_white gd |}) s1)
      | _, _ => failed
      end
  end.
Proof.
  unfold reload_game_state. unfold_M.
  destruct out as [e|fen]; simpl; [done|].
  destruct (Board_fen (default STARTING_FEN fen)); simpl; [|done].
  by destruct (games s !! game_id).
Qed.

Lemma reload_never_raises out game_id s :
  (reload_game_state out game_id s).1 = Ok tt.
Proof.
  rewrite reload_cases. simpl.
  destruct out as [e|fen]; [done|].
  destruct (Board_fen _); [|done]. by destruct (games s !! game_id).
Qed.


(** A snapshot with a FEN that parses replaces the board, whatever the
    board was. *)
Lemma reload_rebuilds fen b gd game_id s :
  Board_fen (default STARTING_FEN fen) = Ok b ->
  games s !! game_id = Some gd ->
  games (reload_game_state (FetchJson fen) game_id s).2 !! game_id
  = Some {| board := b; is_white := is_white gd |}.
Proof.
  intros Hb Hgd. rewrite reload_cases. simpl. rewrite Hb, Hgd. simpl.
  apply lookup_insert_eq.
Qed.

Lemma reload_other_games out game_id other s :
  other <> game_id ->
  games (reload_game_state out game_id s).2 !! other = games s !! other.
Proof.
  intros Hne. rewrite reload_cases. simpl.
  destruct out as [e|fen]; [done|].
  destruct (Board_fen _); [|done].
  destruct (games s !! game_id); [|done]. simpl.
  by rewrite lookup_insert_ne.
Qed.

(** *** The synchronization loop *)


(** The test of [handle_game_state] fails exactly when the local list is
    a prefix of the reported one. *)
Lemma diverged_false_prefix (L M' : list string) :
  diverged L M' = false <-> L `prefix_of` M'.
Proof.
  unfold diverged. rewrite orb_false_iff, Nat.ltb_ge, negb_false_iff.
  rewrite bool_decide_eq_true. split.
  - intros [_ Ht]. exists (drop (List.length L) M').
    by rewrite <- Ht at 1; rewrite take_drop.
  - intros [k ->]. split.
    + rewrite length_app. lia.
    + by rewrite take_app_length.
Qed.



Lemma reload_eq out game_id s :
  reload_game_state out game_id s
  = (Ok tt, (reload_game_state out game_id s).2).
Proof.
  pose proof (reload_never_raises out game_id s) as H.
  destruct (reload_game_state out game_id s) as [r s']. simpl in *. by subst.
Qed.



(** *** [make_move] *)

Lemma add_effects_nil s : add_effects [] s = s.
Proof. apply manager_eq; try done. simpl. apply app_nil_r. Qed.

Lemma add_effects_app t1 t2 s :
  add_effects t2 (add_effects t1 s) = add_effects (t1 ++ t2) s.
Proof. apply manager_eq; try done. simpl. by rewrite app_assoc. Qed.

Lemma add_trace_effects ev s : add_trace ev s = add_effects [ev] s.
Proof. done. Qed.

(** An attempt whose POST raises ends in the [except] clause. *)
Lemma attempt_raises env game_id move attempt e s :
  post_move env attempt = PostRaises e ->
  make_move_attempt env game_id move attempt s
  = (Ok None, add_effects (failed_attempts game_id move 1) s).
Proof.
  intros Hp. unfold make_move_attempt. unfold_M. rewrite Hp. simpl.
  f_equal. apply manager_eq; try done. simpl.
  by rewrite <- !app_assoc.
Qed.

(** An attempt answered with a status other than 200 returns [False]. *)
Lemma attempt_rejected env game_id move attempt status s :
  post_move env attempt = PostStatus status -> status <> 200 ->
  make_move_attempt env game_id move attempt s
  = (Ok (Some false), add_effects [HttpPost (move_url game_id move)] s).
Proof.
  intros Hp Hs. unfold make_move_attempt. unfold_M. rewrite Hp. simpl.
  destruct (status =? 200) eqn:E; [lia|]. done.
Qed.

(** An attempt answered with 200 pushes the move and returns [True]. *)
Lemma attempt_accepted env game_id move attempt gd b' s :
  post_move env attempt = PostStatus 200 ->
  games s !! game_id = Some gd ->
  push_uci (board gd) move = Ok b' ->
  make_move_attempt env game_id move attempt s
  = (Ok (Some true),
     with_board game_id b' (add_effects [HttpPost (move_url game_id move)] s)).
Proof.
  intros Hp Hgd Hpush. unfold make_move_attempt. unfold_M. rewrite Hp. simpl.
  rewrite Hgd. simpl. by rewrite Hpush.
Qed.

Lemma loop_after_failures env game_id move : forall k start rest s,
  (forall i, (start <= i < start + k)%nat -> exists e, post_move env i = PostRaises e) ->
  make_move_loop env game_id move (seq start k ++ rest) s
  = make_move_loop env game_id move rest
      (add_effects (failed_attempts game_id move k) s).
Proof.
  induction k as [|k IH]; intros start rest s Hall.
  - simpl. by rewrite add_effects_nil.
  - destruct (Hall start) as [e He]; [lia|].
    change (seq start (S k) ++ rest)%list
      with (start :: (seq (S start) k ++ rest))%list.
    cbn [make_move_loop]. unfold mbind, M_bind, bind at 1.
    rewrite (attempt_raises _ _ _ _ e) by done.
    rewrite IH by (intros i Hi; apply Hall; lia).
    rewrite add_effects_app. done.
Qed.

(** C4. Move submission.  There are [MAX_RETRIES] = 3 attempts.  Every
    attempt whose POST fails at the network level is followed by a sleep
    of 1 second and then by the next attempt, if one is left.  When all
    three fail, the call returns [False].  When an attempt is answered
    with a status other than 200, the call returns [False] at once: that
    POST is the last effect of the call. *)
Theorem move_submission env game_id move s k :
  first_attempts_raise env k ->
  MAX_RETRIES = 3%nat
  /\ ((MAX_RETRIES <= k)%nat ->
        make_move env game_id move s
        = (Ok false,
           add_effects
             (failed_attempts game_id move MAX_RETRIES
              ++ [Log ERROR "all submission attempts failed"]) s))
  /\ ((k < MAX_RETRIES)%nat ->
        forall status,
          post_move env k = PostStatus status -> status <> 200 ->
          make_move env game_id move s
          = (Ok false,
             add_effects
               (failed_attempts game_id move k
                ++ [HttpPost (move_url game_id move)]) s)).
Proof.
  intros Hraise. split; [done|]. split.
  - intros Hk. unfold make_move.
    rewrite <- (app_nil_r (seq 0 MAX_RETRIES)).
    rewrite loop_after_failures by (intros i Hi; apply Hraise; lia).
    simpl. unfold_M. simpl. f_equal. apply manager_eq; try done.
    simpl. by rewrite <- !app_assoc.
  - intros Hk status Hp Hs. unfold make_move.
    replace (seq 0 MAX_RETRIES)
      with (seq 0 k ++ k :: seq (S k) (MAX_RETRIES - S k))%list.
    2:{ change (k :: seq (S k) (MAX_RETRIES - S k))
          with (seq k (S (MAX_RETRIES - S k))).
        replace k with (0 + k)%nat at 2 by lia.
        rewrite <- seq_app. f_equal. lia. }
    rewrite loop_after_failures by (intros i Hi; apply Hraise; lia).
    cbn [make_move_loop]. unfold mbind, M_bind, bind at 1.
    rewrite (attempt_rejected _ _ _ _ status) by done.
    unfold_M. by rewrite add_effects_app.
Qed.

(** A submission answered with 200 after [k] failed attempts pushes the
    move on the local board and returns [True]. *)
Lemma make_move_accepted env game_id move s k gd b' :
  first_attempts_raise env k -> (k < MAX_RETRIES)%nat ->
  post_move env k = PostStatus 200 ->
  games s !! game_id = Some gd ->
  push_uci (board gd) move = Ok b' ->
  make_move env game_id move s
  = (Ok true,
     with_board game_id b'
       (add_effects (failed_attempts game_id move k
                     ++ [HttpPost (move_url game_id move)]) s)).
Proof.
  intros Hraise Hk Hp Hgd Hpush. unfold make_move.
  replace (seq 0 MAX_RETRIES)
    with (seq 0 k ++ k :: seq (S k) (MAX_RETRIES - S k))%list.
  2:{ change (k :: seq (S k) (MAX_RETRIES - S k))
        with (seq k (S (MAX_RETRIES - S k))).
      replace k with (0 + k)%nat at 2 by lia.
      rewrite <- seq_app. f_equal. lia. }
  rewrite loop_after_failures by (intros i Hi; apply Hraise; lia).
  cbn [make_move_loop]. unfold mbind, M_bind, bind at 1.
  rewrite (attempt_accepted _ _ _ _ gd b') by done.
  unfold_M. by rewrite add_effects_app.
Qed.

(** *** Coroutines that never raise *)

Lemma nr_ret {A} (a : A) : never_raises (ret a).
Proof. intros s. by exists a. Qed.

Lemma nr_gets {A} (f : Manager -> A) : never_raises (gets f).
Proof. intros s. by eexists. Qed.

Lemma nr_modify f : never_raises (modify f).
Proof. intros s. by exists tt. Qed.

Lemma nr_bind {A B} (m : M A) (k : A -> M B) :
  never_raises m -> (forall a, never_raises (k a)) -> never_raises (bind m k).
Proof.
  intros Hm Hk s. unfold bind. destruct (Hm s) as [a Ha].
  destruct (m s) as [r s']. simpl in Ha. subst r. apply Hk.
Qed.

(** A [try] whose handler never raises never raises, whatever its body
    does. *)
Lemma nr_try_except {A} (m : M A) (h : exn -> M A) :
  (forall e, never_raises (h e)) -> never_raises (try_except m h).
Proof.
  intros Hh s. unfold try_except. destruct (m s) as [[a|e] s'].
  - by exists a.
  - apply Hh.
Qed.

Lemma nr_try_finally {A} (m : M A) (f : M unit) :
  never_raises m -> never_raises f -> never_raises (try_finally m f).
Proof.
  intros Hm Hf s. unfold try_finally. destruct (Hm s) as [a Ha].
  destruct (m s) as [r s']. simpl in Ha. subst r.
  destruct (Hf s') as [u Hu]. destruct (f s') as [r' s'']. simpl in Hu.
  subst r'. by exists a.
Qed.

Ltac nr_step :=
  first
    [ apply nr_ret | apply nr_gets | apply nr_modify
    | apply nr_try_except; intros ?
    | apply nr_bind; [|intros ?]
    | match goal with
      | |- never_raises (match ?x with _ => _ end) => destruct x
      end ].

Ltac nr :=
  unfold mbind, M_bind, mret, M_ret, log, sleep, emit;
  repeat nr_step.

Lemma nr_reload out game_id : never_raises (reload_game_state out game_id).
Proof. unfold reload_game_state. nr. Qed.

Lemma nr_make_move_attempt env game_id move attempt :
  never_raises (make_move_attempt env game_id move attempt).
Proof. unfold make_move_attempt. nr. Qed.

Lemma nr_make_move env game_id move : never_raises (make_move env game_id move).
Proof.
  unfold make_move. generalize (seq 0 MAX_RETRIES) as l.
  induction l as [|a l IH]; simpl.
  - nr.
  - unfold mbind, M_bind. apply nr_bind; [apply nr_make_move_attempt|].
    intros [r|]; [apply nr_ret|apply IH].
Qed.

Lemma nr_handle_game_state env moves game_id :
  never_raises (handle_game_state env moves game_id).
Proof. unfold handle_game_state. nr. Qed.

Lemma nr_safe_request {A} method url (out : request_outcome A) :
  never_raises (safe_request method url out).
Proof. unfold safe_request. nr. Qed.

Lemma nr_process_event env event game_id :
  never_raises (process_event env event game_id).
Proof. unfold process_event. nr. Qed.

Lemma nr_process_game game events stream_end :
  never_raises (process_game game events stream_end).
Proof.
  unfold process_game. unfold mbind, M_bind.
  apply nr_bind; [apply nr_modify|intros _].
  apply nr_try_finally; nr.
Qed.

Lemma nr_poll_cycle penv : never_raises (poll_cycle penv).
Proof. unfold poll_cycle. nr. Qed.

Lemma returns_unit (m : M unit) s : never_raises m -> (m s).1 = Ok tt.
Proof. intros H. destruct (H s) as [[] Ha]. done. Qed.

(** *** Coroutines that stay within their session *)

Lemma frame_refl game_id s : session_frame game_id s s.
Proof. by split. Qed.

Lemma frame_trans game_id s1 s2 s3 :
  session_frame game_id s1 s2 -> session_frame game_id s2 s3 ->
  session_frame game_id s1 s3.
Proof.
  intros [G1 A1] [G2 A2]. split.
  - intros other Hne. by rewrite G2, G1.
  - by rewrite A2, A1.
Qed.

Lemma ws_ret {A} game_id (a : A) : within_session game_id (ret a).
Proof. intros s. apply frame_refl. Qed.

Lemma ws_raise {A} game_id e : within_session game_id (raise (A:=A) e).
Proof. intros s. apply frame_refl. Qed.

Lemma ws_lift {A} game_id (r : res A) : within_session game_id (lift r).
Proof. intros s. apply frame_refl. Qed.

Lemma ws_gets {A} game_id (f : Manager -> A) : within_session game_id (gets f).
Proof. intros s. apply frame_refl. Qed.

Lemma ws_emit game_id ev : within_session game_id (emit ev).
Proof. intros s. by split. Qed.

Lemma ws_set_engine game_id h : within_session game_id (modify (set_engine h)).
Proof. intros s. by split. Qed.

Lemma ws_board_becomes game_id b : within_session game_id (board_becomes game_id b).
Proof.
  intros s. split; [|done]. intros other Hne. simpl.
  by rewrite lookup_alter_ne.
Qed.

Lemma ws_insert game_id gd :
  within_session game_id (modify (set_games (insert game_id gd))).
Proof.
  intros s. split; [|done]. intros other Hne. simpl.
  by rewrite lookup_insert_ne.
Qed.

Lemma ws_bind {A B} game_id (m : M A) (k : A -> M B) :
  within_session game_id m -> (forall a, within_session game_id (k a)) ->
  within_session game_id (bind m k).
Proof.
  intros Hm Hk s. unfold bind. specialize (Hm s).
  destruct (m s) as [[a|e] s']; simpl in *; [|done].
  eapply frame_trans; [exact Hm|apply Hk].
Qed.

Lemma ws_try_except {A} game_id (m : M A) (h : exn -> M A) :
  within_session game_id m -> (forall e, within_session game_id (h e)) ->
  within_session game_id (try_except m h).
Proof.
  intros Hm Hh s. unfold try_except. specialize (Hm s).
  destruct (m s) as [[a|e] s']; simpl in *; [done|].
  eapply frame_trans; [exact Hm|apply Hh].
Qed.

Ltac ws_step :=
  lazymatch goal with
  | |- within_session _ (ret _) => apply ws_ret
  | |- within_session _ (raise _) => apply ws_raise
  | |- within_session _ (lift _) => apply ws_lift
  | |- within_session _ (gets _) => apply ws_gets
  | |- within_session _ (emit _) => apply ws_emit
  | |- within_session _ (modify (set_engine _)) => apply ws_set_engine
  | |- within_session _ (board_becomes _ _) => apply ws_board_becomes
  | |- within_session _ (modify (set_games (insert _ _))) => apply ws_insert
  | |- within_session _ (try_except _ _) => apply ws_try_except; [|intros ?]
  | |- within_session _ (bind _ _) => apply ws_bind; [|intros ?]
  | |- within_session _ (except_only _ _ _) => unfold except_only
  | |- within_session _ (games_getitem _) => unfold games_getitem
  | |- within_session _ (getitem _) => unfold getitem
  | |- within_session _ (match ?x with _ => _ end) => destruct x
  end.

Ltac ws_with tac :=
  repeat first
    [ progress unfold mbind, M_bind, mret, M_ret, log, sleep
    | ws_step | tac | progress cbv beta zeta ].

Ltac ws := ws_with fail.

Lemma ws_restart_engine game_id r : within_session game_id (restart_engine r).
Proof. unfold restart_engine. ws. Qed.

Lemma ws_reload out game_id : within_session game_id (reload_game_state out game_id).
Proof. unfold reload_game_state. ws. Qed.

Lemma ws_make_move env game_id move : within_session game_id (make_move env game_id move).
Proof.
  unfold make_move. generalize (seq 0 MAX_RETRIES) as l.
  induction l as [|a l IH]; simpl.
  - ws.
  - unfold mbind, M_bind. apply ws_bind.
    + unfold make_move_attempt. ws_with ltac:(apply ws_reload).
    + intros [r|]; [apply ws_ret|apply IH].
Qed.

Lemma ws_make_move_timed timer env game_id move :
  within_session game_id (make_move_timed timer env game_id move).
Proof.
  unfold make_move_timed. generalize (seq 0 MAX_RETRIES) as l.
  induction l as [|a l IH]; simpl.
  - ws.
  - unfold mbind, M_bind. apply ws_bind.
    + unfold make_move_attempt_timed, reload_game_state_timed.
      ws_with ltac:(apply ws_reload).
    + intros [[r|]|]; [apply ws_ret|apply IH|apply ws_ret].
Qed.

Lemma ws_apply_new_moves env game_id l : forall b,
  within_session game_id (apply_new_moves env game_id b l).
Proof.
  induction l as [|m rest IH]; intros b; simpl.
  - apply ws_ret.
  - unfold mbind, M_bind. apply ws_bind.
    + ws_with ltac:(apply ws_reload).
    + intros [b'|]; [apply IH|apply ws_ret].
Qed.

Lemma ws_compute_and_commit env game_id b :
  within_session game_id (compute_and_commit env game_id b).
Proof.
  unfold compute_and_commit.
  ws_with ltac:(first [apply ws_make_move_timed | apply ws_restart_engine]).
Qed.

Lemma ws_handle_game_state env moves game_id :
  within_session game_id (handle_game_state env moves game_id).
Proof.
  unfold handle_game_state.
  ws_with ltac:(first [apply ws_reload | apply ws_apply_new_moves
                      | apply ws_compute_and_commit]).
Qed.

Lemma ws_replay_moves game_id l : forall b,
  within_session game_id (replay_moves game_id b l).
Proof.
  induction l as [|m rest IH]; intros b; simpl.
  - apply ws_ret.
  - ws_with ltac:(apply IH).
Qed.

Lemma ws_handle_initial_state env state_moves game_id :
  within_session game_id (handle_initial_state env state_moves game_id).
Proof.
  unfold handle_initial_state.
  ws_with ltac:(first [apply ws_replay_moves | apply ws_handle_game_state
                      | apply ws_restart_engine]).
Qed.

Lemma ws_safe_request {A} game_id method url (out : request_outcome A) :
  within_session game_id (safe_request method url out).
Proof. unfold safe_request. ws. Qed.

Lemma ws_process_event env event game_id :
  within_session game_id (process_event env event game_id).
Proof.
  unfold process_event, handle_chat_message, send_chat_message.
  ws_with ltac:(first [apply ws_handle_initial_state
                      | apply ws_handle_game_state | apply ws_safe_request]).
Qed.

(** *** The move-commit path *)

Lemma restart_engine_games r s : games (restart_engine r s).2 = games s.
Proof.
  unfold restart_engine. unfold_M.
  destruct (engine s), (quit_out r), (popen_out r), (configure_out r); done.
Qed.

Lemma make_move_loop_cons env game_id move a l s :
  make_move_loop env game_id move (a :: l) s
  = match make_move_attempt env game_id move a s with
    | (Ok (Some r), s') => (Ok r, s')
    | (Ok None, s') => make_move_loop env game_id move l s'
    | (Raise e, s') => (Raise e, s')
    end.
Proof.
  simpl. unfold mbind, M_bind, bind.
  by destruct (make_move_attempt env game_id move a s) as [[[r|]|e] s'].
Qed.

(** Whatever the answers to the POSTs are, a submission returns [True]
    with the move pushed on the local board, or [False] with every board
    as it was. *)
Lemma make_move_loop_games env game_id move gd b' : forall attempts s,
  games s !! game_id = Some gd ->
  push_uci (board gd) move = Ok b' ->
  let out := make_move_loop env game_id move attempts s in
  (out.1 = Ok true /\ games out.2 = games (with_board game_id b' s))
  \/ (out.1 = Ok false /\ games out.2 = games s).
Proof.
  induction attempts as [|a l IH]; intros s Hgd Hpush.
  - right. simpl. by unfold_M.
  - cbv zeta. rewrite make_move_loop_cons.
    destruct (post_move env a) as [e|status] eqn:Hp.
    + rewrite (attempt_raises _ _ _ _ e) by done.
      apply (IH (add_effects _ s)); done.
    + destruct (decide (status = 200)) as [->|Hs].
      * rewrite (attempt_accepted _ _ _ _ gd b') by done. by left.
      * rewrite (attempt_rejected _ _ _ _ status) by done. by right.
Qed.

(** *** [make_move] under the timer *)

(** An attempt that the timer does not concern runs as the attempt
    awaited to its end. *)
Lemma attempt_timed_plain timer env game_id move attempt s :
  timer <> Some (AwaitPost attempt) ->
  timer <> Some (AwaitBackoff attempt) ->
  timer <> Some (AwaitReload attempt) ->
  make_move_attempt_timed timer env game_id move attempt s
  = match make_move_attempt env game_id move attempt s with
    | (Ok r, s') => (Ok (Done r), s')
    | (Raise e, s') => (Raise e, s')
    end.
Proof.
  intros Hpost Hback Hreload.
  unfold make_move_attempt_timed, make_move_attempt, reload_game_state_timed.
  rewrite (bool_decide_eq_false_2 _ Hreload).
  unfold_M. rewrite (decide_False (P := timer = Some (AwaitPost attempt))) by done.
  rewrite (decide_False (P := timer = Some (AwaitBackoff attempt))) by done.
  destruct (post_move env attempt) as [e|status]; [done|].
  destruct (status =? 200); [|done]. simpl.
  destruct (games _ !! game_id) as [gd|]; [|done]. simpl.
  destruct (push_uci (board gd) move) as [b'|e]; [done|]. simpl.
  case_decide; [|done].
  match goal with
  | |- context [reload_game_state ?o ?g ?st] =>
      rewrite (reload_eq o g st)
  end.
  done.
Qed.

Lemma make_move_loop_timed_cons timer env game_id move a l s :
  make_move_loop_timed timer env game_id move (a :: l) s
  = match make_move_attempt_timed timer env game_id move a s with
    | (Ok (Done (Some r)), s') => (Ok (Done r), s')
    | (Ok (Done None), s') => make_move_loop_timed timer env game_id move l s'
    | (Ok Cancelled, s') => (Ok Cancelled, s')
    | (Raise e, s') => (Raise e, s')
    end.
Proof.
  simpl. unfold mbind, M_bind, bind.
  by destruct (make_move_attempt_timed timer env game_id move a s)
    as [[[[r|]|]|e] s'].
Qed.

(** When the timer does not fire, [make_move] runs to its end. *)
Lemma make_move_timed_none env game_id move s :
  make_move_timed None env game_id move s
  = match make_move env game_id move s with
    | (Ok r, s') => (Ok (Done r), s')
    | (Raise e, s') => (Raise e, s')
    end.
Proof.
  unfold make_move_timed, make_move. revert s.
  induction (seq 0 MAX_RETRIES) as [|a l IH]; intros s; [done|].
  rewrite make_move_loop_timed_cons, make_move_loop_cons.
  rewrite attempt_timed_plain by done.
  destruct (make_move_attempt env game_id move a s) as [[[r|]|e] s'];
    first [done|apply IH].
Qed.

Lemma loop_timed_after_failures timer env game_id move : forall k start rest s,
  (forall i, (start <= i < start + k)%nat ->
             (exists e, post_move env i = PostRaises e)
             /\ timer <> Some (AwaitPost i) /\ timer <> Some (AwaitBackoff i)
             /\ timer <> Some (AwaitReload i)) ->
  make_move_loop_timed timer env game_id move (seq start k ++ rest) s
  = make_move_loop_timed timer env game_id move rest
      (add_effects (failed_attempts game_id move k) s).
Proof.
  induction k as [|k IH]; intros start rest s Hall.
  - simpl. by rewrite add_effects_nil.
  - destruct (Hall start) as [[e He] (H1 & H2 & H3)]; [lia|].
    change (seq start (S k) ++ rest)%list
      with (start :: (seq (S start) k ++ rest))%list.
    rewrite make_move_loop_timed_cons.
    rewrite attempt_timed_plain by done.
    rewrite (attempt_raises _ _ _ _ e) by done.
    rewrite IH by (intros i Hi; apply Hall; lia).
    rewrite add_effects_app. done.
Qed.

(** The timer fires while the POST of attempt [k] is awaited, after [k]
    attempts that failed at the network level: the call is cancelled
    with that POST as its last effect. *)
Lemma cancelled_at_post env game_id move s k :
  first_attempts_raise env k -> (k < MAX_RETRIES)%nat ->
  make_move_timed (Some (AwaitPost k)) env game_id move s
  = (Ok Cancelled,
     add_effects (failed_attempts game_id move k
                  ++ [HttpPost (move_url game_id move)]) s).
Proof.
  intros Hraise Hk. unfold make_move_timed.
  replace (seq 0 MAX_RETRIES)
    with (seq 0 k ++ k :: seq (S k) (MAX_RETRIES - S k))%list.
  2:{ change (k :: seq (S k) (MAX_RETRIES - S k))
        with (seq k (S (MAX_RETRIES - S k))).
      replace k with (0 + k)%nat at 2 by lia.
      rewrite <- seq_app. f_equal. lia. }
  rewrite loop_timed_after_failures.
  2:{ intros i Hi. split; [apply Hraise; lia|].
      repeat split; intros [= ?]; lia. }
  rewrite make_move_loop_timed_cons.
  unfold make_move_attempt_timed. unfold_M.
  rewrite decide_True by done. simpl.
  f_equal. apply manager_eq; try done. simpl. by rewrite app_assoc.
Qed.

Lemma failed_attempts_app game_id move k j :
  failed_attempts game_id move (k + j)
  = (failed_attempts game_id move k ++ failed_attempts game_id move j)%list.
Proof. induction k as [|k IH]; [done|]. simpl. by rewrite IH. Qed.

(** The timer fires during the pause after the failed POST of attempt
    [k]: the call is cancelled there, with no further attempt. *)
Lemma cancelled_at_backoff env game_id move s k :
  first_attempts_raise env (S k) -> (k < MAX_RETRIES)%nat ->
  make_move_timed (Some (AwaitBackoff k)) env game_id move s
  = (Ok Cancelled, add_effects (failed_attempts game_id move (S k)) s).
Proof.
  intros Hraise Hk.
  replace (failed_attempts game_id move (S k))
    with (failed_attempts game_id move k ++ failed_attempts game_id move 1)%list
    by (rewrite <- failed_attempts_app; f_equal; lia).
  unfold make_move_timed.
  replace (seq 0 MAX_RETRIES)
    with (seq 0 k ++ k :: seq (S k) (MAX_RETRIES - S k))%list.
  2:{ change (k :: seq (S k) (MAX_RETRIES - S k))
        with (seq k (S (MAX_RETRIES - S k))).
      replace k with (0 + k)%nat at 2 by lia.
      rewrite <- seq_app. f_equal. lia. }
  rewrite loop_timed_after_failures.
  2:{ intros i Hi. split; [apply Hraise; lia|].
      repeat split; intros [= ?]; lia. }
  rewrite make_move_loop_timed_cons.
  destruct (Hraise k) as [e He]; [lia|].
  unfold make_move_attempt_timed. unfold_M.
  rewrite (decide_False (P := Some (AwaitBackoff k) = Some (AwaitPost k))) by done.
  rewrite He. simpl. rewrite decide_True by done. simpl.
  f_equal. apply manager_eq; try done. simpl. by rewrite <- !app_assoc.
Qed.

(** Whatever the answers to the POSTs are and wherever the timer fires,
    a submission under the timer returns [True] with the move pushed on
    the local board, or returns [False] or is cancelled with every board
    as it was. *)
Lemma make_move_loop_timed_games timer env game_id move gd b' : forall attempts s,
  games s !! game_id = Some gd ->
  push_uci (board gd) move = Ok b' ->
  let out := make_move_loop_timed timer env game_id move attempts s in
  (out.1 = Ok (Done true) /\ games out.2 = games (with_board game_id b' s))
  \/ (out.1 = Ok (Done false) /\ games out.2 = games s)
  \/ (out.1 = Ok Cancelled /\ games out.2 = games s).
Proof.
  induction attempts as [|a l IH]; intros s Hgd Hpush.
  - right. left. simpl. by unfold_M.
  - cbv zeta. rewrite make_move_loop_timed_cons.
    unfold make_move_attempt_timed. unfold_M.
    destruct (decide (timer = Some (AwaitPost a))); [by right; right|].
    destruct (post_move env a) as [e|status] eqn:Hp.
    + simpl. destruct (decide (timer = Some (AwaitBackoff a))); [by right; right|].
      simpl. apply (IH (add_trace _ (add_trace _ (add_trace _ s)))); done.
    + destruct (status =? 200) eqn:Hs; [|by right; left].
      simpl. rewrite Hgd. simpl. rewrite Hpush. simpl. by left.
Qed.

(** C5. The move-commit path writes to the local board only on
    submission success.  With [b] the local board and [m] the engine's
    move: when [m] is legal on [b] and [make_move] returns [True], the
    board of the session is [b] with [m] pushed; when the computation
    raises (a timeout among others), when the engine gives no move or an
    illegal one, when [make_move] returns [False], and when the timer of
    the block cancels [make_move] at any of its awaits (which ends the
    block with the timeout record), all boards are as they were.  The
    awaited [make_move] ends in one of these three ways. *)
Theorem commit_only_on_success env game_id s gd :
  ChessLaws lib ->
  games s !! game_id = Some gd ->
  let b := board gd in
  let out := compute_and_commit env game_id b s in
  let submission m :=
    make_move_timed (timer env) env game_id m (add_trace EnginePlay s) in
  let submitted m := (submission m).1 in
  (forall m, play env = PlayResult (Some m) -> is_legal b m = true ->
             submitted m = Ok (Done true) ->
             exists b', push_uci b m = Ok b' /\ board_at game_id out.2 = Some b')
  /\ (forall e, play env = PlayRaises e -> games out.2 = games s)
  /\ (play env = PlayResult None -> games out.2 = games s)
  /\ (forall m, play env = PlayResult (Some m) -> is_legal b m = false ->
                games out.2 = games s)
  /\ (forall m, play env = PlayResult (Some m) -> is_legal b m = true ->
                submitted m = Ok (Done false) -> games out.2 = games s)
  /\ (forall m, play env = PlayResult (Some m) -> is_legal b m = true ->
                submitted m = Ok Cancelled ->
                games out.2 = games s
                /\ out = (Ok tt, add_trace (Log ERROR "move computation timed out")
                                  (submission m).2))
  /\ (forall m, is_legal b m = true ->
                submitted m = Ok (Done true) \/ submitted m = Ok (Done false)
                \/ submitted m = Ok Cancelled).
Proof.
  intros Hlaws Hgd b out submission submitted.
  assert (Hmm : forall m, is_legal b m = true ->
    exists b', push_uci b m = Ok b' /\
      ((submitted m = Ok (Done true) /\
        games (submission m).2 = games (with_board game_id b' s))
       \/ (submitted m = Ok (Done false) /\ games (submission m).2 = games s)
       \/ (submitted m = Ok Cancelled /\ games (submission m).2 = games s))).
  { intros m Hm. destruct (legal_push _ Hlaws b m Hm) as [b' Hb'].
    exists b'. split; [done|].
    apply (make_move_loop_timed_games (timer env) env game_id m gd b' _
             (add_trace EnginePlay s)); done. }
  assert (Hout : forall m, play env = PlayResult (Some m) ->
    is_legal b m = true ->
    games out.2 = games (submission m).2).
  { intros m Hplay Hm. unfold out, compute_and_commit. unfold_M.
    rewrite Hplay, Hm. simpl.
    destruct (Hmm m Hm) as (b' & _ & [[Hs _]|[[Hs _]|[Hs _]]]);
      unfold submitted, submission in *;
      destruct (make_move_timed _ _ _ _ _) as [r s']; simpl in *; by subst r. }
  repeat split.
  - intros m Hplay Hm Hsub.
    destruct (Hmm m Hm) as (b' & Hb' & [[_ Hg]|[[Hs _]|[Hs _]]]); [|congruence..].
    exists b'. split; [done|]. unfold board_at.
    rewrite (Hout m Hplay Hm), Hg.
    by rewrite (board_at_with_board _ _ gd).
  - intros e Hplay. unfold out, compute_and_commit. unfold_M.
    rewrite Hplay. simpl. repeat case_decide; try done. simpl.
    pose proof (restart_engine_games (restart env)
      (add_trace (Log CRITICAL "engine stopped responding")
         (add_trace EnginePlay s))) as Hr.
    destruct (restart_engine _ _) as [[|] ?]; done.
  - intros Hplay. unfold out, compute_and_commit. unfold_M.
    by rewrite Hplay.
  - intros m Hplay Hm. unfold out, compute_and_commit. unfold_M.
    by rewrite Hplay, Hm.
  - intros m Hplay Hm Hsub. rewrite (Hout m Hplay Hm).
    destruct (Hmm m Hm) as (b' & _ & [[Hs _]|[[_ Hg]|[Hs _]]]); [congruence|done|congruence].
  - rename H into Hplay, H0 into Hm, H1 into Hsub. rewrite (Hout m Hplay Hm).
    destruct (Hmm m Hm) as (b' & _ & [[Hs _]|[[Hs _]|[_ Hg]]]); [congruence..|done].
  - rename H into Hplay, H0 into Hm, H1 into Hsub.
    unfold out, compute_and_commit. unfold_M.
    rewrite Hplay, Hm. simpl. unfold submitted, submission in *.
    destruct (make_move_timed _ _ _ _ _) as [r s']; simpl in *. by subst r.
  - intros m Hm. destruct (Hmm m Hm) as (b' & _ & [[Hs _]|[[Hs _]|[Hs _]]]); tauto.
Qed.

(** C10. When the fetched snapshot has no ['fen'] key, the reload does
    not fail: it replaces the board of the session, whatever position it
    held, by the board of [chess.STARTING_FEN]. *)
Theorem reload_without_fen game_id s gd b0 :
  Board_fen STARTING_FEN = Ok b0 ->
  games s !! game_id = Some gd ->
  let out := reload_game_state (FetchJson None) game_id s in
  out.1 = Ok tt
  /\ games out.2 !! game_id = Some {| board := b0; is_white := is_white gd |}
  /\ trace out.2
     = (trace s ++ [HttpGet (BASE_URL +:+ "/bot/game/" +:+ game_id)])%list.
Proof.
  intros Hfen Hgd out. split; [apply reload_never_raises|]. split.
  - by apply (reload_rebuilds None b0 gd).
  - unfold out. rewrite reload_cases. simpl. by rewrite Hfen, Hgd.
Qed.

(** *** Errors and the session *)

(** A restart whose relaunch raises hands the exception to its caller,
    after a critical log record. *)
Lemma restart_engine_relaunch_fails r s e :
  popen_out r = Raise e ->
  engine s = None \/ quit_out r = Ok tt ->
  (restart_engine r s).1 = Raise e
  /\ Log CRITICAL "engine restart failed" ∈ trace (restart_engine r s).2.
Proof.
  intros Hp Hq. unfold restart_engine. unfold_M. rewrite Hp.
  destruct (engine s) as [h|]; simpl.
  - destruct Hq as [|Hq]; [done|]. rewrite Hq. simpl.
    split; [done|]. apply elem_of_app. right. by apply list_elem_of_singleton.
  - split; [done|]. apply elem_of_app. right. by apply list_elem_of_singleton.
Qed.

(** [handle_initial_state] calls [restart_engine] from its [except]
    clause, so a failed restart leaves [handle_initial_state] as an
    exception; its caller is the [try] of [process_event]. *)
Lemma handle_initial_state_restart_fails env state_moves game_id s e :
  games s !! game_id = None ->
  popen_out (restart env) = Raise e ->
  engine s = None \/ quit_out (restart env) = Ok tt ->
  (handle_initial_state env state_moves game_id s).1 = Raise e.
Proof.
  intros Hgd Hp Hq. unfold handle_initial_state.
  unfold try_except at 1. unfold_M. rewrite Hgd. simpl.
  apply (restart_engine_relaunch_fails (restart env)
           (add_trace (Log ERROR "critical error") s) e); done.
Qed.

(** C3, as the code has it.  When the relaunch in [restart_engine]
    raises, [restart_engine] logs a critical record and hands the
    exception to its caller; no coroutine of the session lets it out:
    [handle_game_state] and the handling of any stream event return
    normally, as does [process_game] as a whole.  Like every other error
    of a game it stays in that game's session: handling an event writes
    neither to the data of another session nor to the registry of running
    tasks. *)
Theorem restart_failure_contained env event game_id s e :
  popen_out (restart env) = Raise e ->
  engine s = None \/ quit_out (restart env) = Ok tt ->
  ((restart_engine (restart env) s).1 = Raise e
   /\ Log CRITICAL "engine restart failed"
        ∈ trace (restart_engine (restart env) s).2)
  /\ (forall moves, (handle_game_state env moves game_id s).1 = Ok tt)
  /\ (exists stop, (process_event env event game_id s).1 = Ok stop)
  /\ session_frame game_id s (process_event env event game_id s).2
  /\ (forall game events stream_end,
        (process_game game events stream_end s).1 = Ok tt).
Proof.
  intros Hp Hq. split; [by apply restart_engine_relaunch_fails|].
  split; [intros moves; apply returns_unit, nr_handle_game_state|].
  split; [apply nr_process_event|].
  split; [apply ws_process_event|].
  intros game events stream_end. apply returns_unit, nr_process_game.
Qed.

(** The turn test of [handle_initial_state] is a test on the side to move
    alone. *)
Lemma initial_turn_test game_data b :
  (bool_decide (turn b = WHITE) && dict_truthy game_data)
  || (bool_decide (turn b = BLACK) && negb (dict_truthy game_data))
  = bool_decide (turn b = WHITE).
Proof.
  unfold dict_truthy. by rewrite andb_true_r, andb_false_r, orb_false_r.
Qed.

(** *** The poller *)

(** A failed fetch of the challenge list counts as an empty list: the
    pass goes on with the playing list. *)
Lemma poll_cycle_fetch_fails penv e s :
  challenges_out penv = ReqRaises e ->
  poll_cycle penv s
  = try_except
      (g ← safe_request HttpGet (BASE_URL +:+ "/account/playing") (playing_out penv);
       reconcile (default [] (mjoin g));;
       emit (SleepUniform REQUEST_DELAY.1 REQUEST_DELAY.2))
      (fun e => log ERROR "main loop error";; sleep 5)
      (add_effects [HttpGet (BASE_URL +:+ "/challenge");
                    Log ERROR "Request failed"] s).
Proof.
  intros Hc. unfold poll_cycle, safe_request at 1.
  unfold try_except at 1. unfold_M. rewrite Hc. simpl.
  replace (add_trace (Log ERROR "Request failed")
             (add_trace (HttpGet (BASE_URL +:+ "/challenge")) s))
    with (add_effects [HttpGet (BASE_URL +:+ "/challenge");
                       Log ERROR "Request failed"] s); [done|].
  apply manager_eq; try done. simpl. by rewrite <- app_assoc.
Qed.

(** A decline that fails is logged and the loop over the challenges goes
    on. *)
Lemma decline_failure_goes_on penv challenge_id e s :
  decline_out penv challenge_id = ReqRaises e ->
  decline_challenge penv challenge_id s
  = (Ok tt,
     add_effects [HttpPost (BASE_URL +:+ "/challenge/" +:+ challenge_id +:+ "/decline");
                  Log ERROR "Request failed"] s).
Proof.
  intros Hd. unfold decline_challenge, safe_request. unfold_M.
  rewrite Hd. simpl. f_equal.
  apply manager_eq; try done. simpl. by rewrite <- app_assoc.
Qed.

(** An accept whose POST raises is not caught in [accept_challenge]. *)
Lemma accept_failure_raises penv challenge_id e s :
  accept_out penv challenge_id = PostRaises e ->
  (accept_challenge penv challenge_id s).1 = Raise e.
Proof.
  intros Ha. unfold accept_challenge. unfold_M. by rewrite Ha.
Qed.

End WithChess.

(** *** Runs on the book instance *)

Import Book.

Ltac by_computation := apply (bool_decide_unpack _); vm_compute; exact I.

Lemma book_laws : ChessLaws book.
Proof.
  split.
  - reflexivity.
  - intros b m Hlegal. simpl in *. unfold book_push.
    assert (Hsyn : uci_syntax m = true).
    { unfold book_legal in Hlegal.
      apply andb_true_iff in Hlegal as [Hl _].
      apply andb_true_iff in Hl as [_ Hin].
      apply bool_decide_eq_true in Hin.
      destruct (book_turn b); unfold white_book, black_book in Hin;
        repeat (apply elem_of_cons in Hin as [->|Hin]; [reflexivity|]);
        by apply elem_of_nil in Hin. }
    rewrite Hsyn, Hlegal. simpl. rewrite orb_true_r. eauto.
Qed.


Lemma move_submission_witness :
  first_attempts_raise offline_env 3
  /\ (make_move (lib:=book) offline_env "g1" "e2e4"
        (one_game "g1" book_start true)).1 = Ok false
  /\ first_attempts_raise rejecting_env 0
  /\ trace (make_move (lib:=book) rejecting_env "g1" "e2e4"
              (one_game "g1" book_start true)).2
     = [HttpPost (move_url "g1" "e2e4")].
Proof.
  assert (H : first_attempts_raise offline_env 3).
  { intros i _. by exists ClientError. }
  assert (H0 : first_attempts_raise rejecting_env 0).
  { intros i Hi. lia. }
  split; [exact H|]. split.
  - destruct (move_submission (lib:=book) offline_env "g1" "e2e4"
                (one_game "g1" book_start true) 3 H) as (_ & Hall & _).
    rewrite Hall; [reflexivity|]. unfold MAX_RETRIES. lia.
  - split; [exact H0|].
    destruct (move_submission (lib:=book) rejecting_env "g1" "e2e4"
                (one_game "g1" book_start true) 0 H0) as (_ & _ & Hrej).
    rewrite (Hrej ltac:(unfold MAX_RETRIES; lia) 400); [reflexivity|reflexivity|lia].
Defined.

Lemma commit_only_on_success_witness :
  let s := one_game "g1" book_start true in
  board_of "g1" (compute_and_commit (lib:=book) quiet_env "g1" book_start s).2
  = Some after_e2e4
  /\ games (compute_and_commit (lib:=book) slow_server_env "g1" book_start s).2
     = games s
  /\ games (compute_and_commit (lib:=book) slow_network_env "g1" book_start s).2
     = games s.
Proof.
  intros s. split; [|split].
  - destruct (commit_only_on_success (lib:=book) quiet_env "g1" s
                (@Build_GameData book book_start true) book_laws)
      as (Hcommit & _); [vm_compute; reflexivity|].
    destruct (Hcommit "e2e4") as (b' & Hb' & Hboard);
      [reflexivity|reflexivity|vm_compute; reflexivity|].
    unfold board_of. unfold board_at in Hboard. simpl in *.
    rewrite Hboard. f_equal. vm_compute in Hb'. injection Hb' as <-. reflexivity.
  - destruct (commit_only_on_success (lib:=book) slow_server_env "g1" s
                (@Build_GameData book book_start true) book_laws)
      as (_ & _ & _ & _ & _ & Hcancel & _); [vm_compute; reflexivity|].
    destruct (Hcancel "e2e4") as [Hgames _];
      [reflexivity|reflexivity|vm_compute; reflexivity|].
    exact Hgames.
  - destruct (commit_only_on_success (lib:=book) slow_network_env "g1" s
                (@Build_GameData book book_start true) book_laws)
      as (_ & _ & _ & _ & _ & Hcancel & _); [vm_compute; reflexivity|].
    destruct (Hcancel "e2e4") as [Hgames _];
      [reflexivity|reflexivity|vm_compute; reflexivity|].
    exact Hgames.
Defined.

(** Runs of [handle_game_state] under the timer.  The server has not
    answered the first POST when the timer fires: the effects are the
    computation, that POST and the timeout record.  Every POST fails and
    the timer fires during the second pause: there is no third attempt. *)
Lemma timer_cuts_submission :
  let s := one_game "g1" book_start true in
  handle_game_state (lib:=book) slow_server_env (Some "") "g1" s
  = (Ok tt,
     add_effects [EnginePlay; HttpPost (move_url "g1" "e2e4");
                  Log ERROR "move computation timed out"] s)
  /\ handle_game_state (lib:=book) slow_network_env (Some "") "g1" s
     = (Ok tt,
        add_effects ([EnginePlay] ++ failed_attempts "g1" "e2e4" 2
                     ++ [Log ERROR "move computation timed out"]) s).
Proof. split; vm_compute; reflexivity. Qed.

Lemma reload_without_fen_witness :
  let s := one_game "g1" after_e2e4 true in
  board_of "g1" (reload_game_state (lib:=book) (FetchJson None) "g1" s).2
  = Some book_start.
Proof.
  intros s.
  destruct (reload_without_fen (lib:=book) "g1" s
              (@Build_GameData book after_e2e4 true) book_start)
    as (_ & Hboard & _); [reflexivity|vm_compute; reflexivity|].
  unfold board_of. by rewrite Hboard.
Defined.

Lemma restart_failure_contained_witness :
  let s := one_game "g1" book_start true in
  (restart_engine (lib:=book) (restart dead_engine_env) s).1 = Raise OtherException
  /\ (handle_game_state (lib:=book) dead_engine_env None "g1" s).1 = Ok tt.
Proof.
  intros s.
  destruct (restart_failure_contained (lib:=book) dead_engine_env
              (game_state_event "") "g1" s OtherException)
    as ((Hraise & _) & Hgs & _); [reflexivity|by right|].
  split; [exact Hraise|apply Hgs].
Defined.

(** C3, as the claim has it, fails: the engine has died, the relaunch
    raises, the failure is logged, and it is caught before it leaves
    [handle_game_state]; the session goes on. *)
Lemma restart_failure_not_propagated :
  let s := one_game "g1" book_start true in
  let out := handle_game_state (lib:=book) dead_engine_env None "g1" s in
  Log CRITICAL "engine restart failed" ∈ trace out.2
  /\ ~ (exists e, out.1 = Raise e)
  /\ ~ (exists e,
          (process_game (lib:=book) {| gameId := "g1"; color := Some "white" |}
             [(game_state_event "", dead_engine_env)] None idle).1 = Raise e).
Proof.
  intros s out. split; [by_computation|]. split.
  - intros [e He]. vm_compute in He. discriminate.
  - intros [e He]. vm_compute in He. discriminate.
Qed.

(** C2 on the code.  The turn test of [handle_initial_state] reads
    [game_data], which is always true, where it needs
    [game_data['is_white']]; [handle_game_state] has no turn test.
    (1) A session playing Black receives [gameFull] with no moves: White
    is to move and the session requests a move.  (2) A session playing
    Black receives [gameFull] with the moves "e2e4": it is its turn and it
    requests none.  (3) A session playing White receives [gameState]
    repeating its own move e2e4: Black is to move, the session requests a
    move and submits the move of Black it is given. *)
Theorem computes_when_not_its_turn :
  (let s := one_game "g1" book_start false in
   let out := handle_initial_state (lib:=book) quiet_env (Some "") "g1" s in
   turn (ChessLib:=book) book_start = WHITE /\ invokes_computation s out.2)
  /\
  (let s := one_game "g1" book_start false in
   let out := handle_initial_state (lib:=book) quiet_env (Some "e2e4") "g1" s in
   board_of "g1" out.2 = Some after_e2e4
   /\ turn (ChessLib:=book) after_e2e4 = BLACK
   /\ skips_computation s out.2)
  /\
  (let s := one_game "g1" after_e2e4 true in
   let out := handle_game_state (lib:=book) black_reply_env (Some "e2e4") "g1" s in
   turn (ChessLib:=book) after_e2e4 = BLACK
   /\ invokes_computation s out.2
   /\ HttpPost (move_url "g1" "e7e5") ∈ trace out.2).
Proof.
  repeat split.
  - eexists. split; [vm_compute; reflexivity|by_computation].
  - eexists. split; [vm_compute; reflexivity|by_computation].
  - eexists. split; [vm_compute; reflexivity|by_computation].
  - by_computation.
Qed.

(** C9 on the code.  [accept_challenge] awaits the POST outside any
    [try], unlike [decline_challenge], which goes through [safe_request].
    When the POST of an accept raises, the exception ends the pass in the
    [except] clause of [poll_events]: the second pending challenge is not
    answered, the playing list is not fetched and no task is created for
    the game being played.  The same pass with a failing decline is
    carried through. *)
Theorem accept_failure_aborts_pass :
  (let out := poll_cycle (lib:=book) accept_fails_penv idle in
   out.1 = Ok tt
   /\ trace out.2
      = [HttpGet (BASE_URL +:+ "/challenge");
         HttpPost (BASE_URL +:+ "/challenge/c1/accept");
         Log ERROR "main loop error"; Sleep 5]
   /\ active_games out.2 !! "g9" = None)
  /\
  (let out := poll_cycle (lib:=book) decline_fails_penv idle in
   out.1 = Ok tt
   /\ trace out.2
      = [HttpGet (BASE_URL +:+ "/challenge");
         HttpPost (BASE_URL +:+ "/challenge/c9/decline");
         Log ERROR "Request failed";
         HttpPost (BASE_URL +:+ "/challenge/c1/accept");
         HttpGet (BASE_URL +:+ "/account/playing");
         CreateTask "g9"; SleepUniform 3 7]
   /\ active_games out.2 !! "g9" = Some {| gameId := "g9"; color := Some "white" |}).
Proof.
  repeat split; vm_compute; reflexivity.
Qed.

End SessionFacts.

(** ** [str.split()] *)

Module SplitFacts.
Import Words.

Lemma string_rev_cons c cur :
  string_of_list_ascii (rev (c :: cur))
  = string_of_list_ascii (rev cur) +:+ String c "".
Proof.
  simpl. generalize (rev cur) as l. induction l as [|a l IH]; simpl; [done|].
  by rewrite IH.
Qed.

Lemma list_ascii_of_string_app s1 s2 :
  list_ascii_of_string (s1 +:+ s2)
  = (list_ascii_of_string s1 ++ list_ascii_of_string s2)%list.
Proof. induction s1 as [|c s1 IH]; simpl; [done|]. by rewrite IH. Qed.

Lemma split_acc_words s : forall cur w,
  Forall (fun c => is_space c = false) cur ->
  w ∈ split_acc cur s -> w <> "" /\ no_space w.
Proof.
  assert (Hword : forall cur, cur <> [] ->
            Forall (fun c => is_space c = false) cur ->
            string_of_list_ascii (rev cur) <> ""
            /\ no_space (string_of_list_ascii (rev cur))).
  { intros cur Hne Hcur. split.
    - destruct cur as [|c cur]; [done|]. rewrite string_rev_cons.
      destruct (string_of_list_ascii (rev cur)); done.
    - unfold no_space. rewrite list_ascii_of_string_of_list_ascii.
      by apply Forall_rev. }
  induction s as [|c s IH]; intros cur w Hcur Hin; simpl in Hin.
  - destruct cur as [|a cur]; [by apply elem_of_nil in Hin|].
    apply list_elem_of_singleton in Hin as ->. by apply Hword.
  - destruct (is_space c) eqn:Hc.
    + destruct cur as [|a cur]; [by apply (IH [])|].
      apply elem_of_cons in Hin as [->|Hin]; [by apply Hword|].
      by apply (IH []).
    + apply (IH (c :: cur)); [|done]. by constructor.
Qed.

(** X6. Every word that [split] returns is non-empty and free of
    whitespace. *)
Theorem split_words_clean s w :
  w ∈ split s -> w <> "" /\ no_space w.
Proof. intros Hin. by apply (split_acc_words s [] w). Qed.

Lemma split_words_clean_witness :
  "e7e5" <> "" /\ no_space "e7e5".
Proof.
  apply (split_words_clean "  e2e4 e7e5 "). vm_compute.
  apply list_elem_of_further, list_elem_of_here.
Defined.

Lemma split_acc_app_space c s2 : forall s1 cur,
  is_space c = true ->
  split_acc cur (s1 +:+ String c s2)
  = (split_acc cur s1 ++ split s2)%list.
Proof.
  induction s1 as [|a s1 IH]; intros cur Hc; simpl.
  - rewrite Hc. by destruct cur.
  - destruct (is_space a).
    + destruct cur; simpl; by rewrite IH.
    + by rewrite IH.
Qed.

Lemma split_acc_clean w : forall cur,
  no_space w ->
  split_acc cur w
  = match (rev cur ++ list_ascii_of_string w)%list with
    | [] => []
    | l => [string_of_list_ascii l]
    end.
Proof.
  induction w as [|c w IH]; intros cur Hw; simpl.
  - rewrite app_nil_r. destruct cur as [|a cur]; [done|].
    destruct (rev (a :: cur)) eqn:E; [|done].
    apply (f_equal List.length) in E. rewrite length_rev in E. done.
  - unfold no_space in Hw. simpl in Hw. apply Forall_cons in Hw as [Hc Hw].
    rewrite Hc. rewrite (IH (c :: cur) Hw). simpl.
    by rewrite <- app_assoc.
Qed.

Lemma split_clean_word w :
  w <> "" -> no_space w -> split w = [w].
Proof.
  intros Hne Hw. unfold split. rewrite (split_acc_clean w [] Hw). simpl.
  destruct w as [|c w]; [done|]. simpl.
  by rewrite string_of_list_ascii_of_string.
Qed.

(** X7. Splitting distributes over a whitespace character: the words of
    [s1 + c + s2] are the words of [s1] followed by the words of [s2]. *)
Theorem split_at_space c s1 s2 :
  is_space c = true ->
  split (s1 +:+ String c s2) = (split s1 ++ split s2)%list.
Proof. intros Hc. by apply split_acc_app_space. Qed.

Lemma split_at_space_witness :
  split ("e2e4 e7e5" +:+ String " " "g1f3") = ["e2e4"; "e7e5"; "g1f3"].
Proof.
  rewrite split_at_space; reflexivity.
Defined.

(** The no-break space U+00A0 and the next-line control U+0085 separate
    words, as the ASCII whitespace does. *)
Lemma split_latin1_space :
  split ("e2e4" +:+ String (ascii_of_nat 160) "e7e5"
         +:+ String (ascii_of_nat 133) "g1f3")
  = ["e2e4"; "e7e5"; "g1f3"].
Proof. reflexivity. Qed.

(** X8. Round trip with the server's format: the words of a list of
    non-empty texts joined by single spaces are the texts, provided no
    text contains a character that [str.split()] takes for whitespace
    (the ASCII whitespace, U+0085 and U+00A0). *)
Theorem split_join words :
  Forall (fun w => w <> "" /\ no_space w) words ->
  split (join words) = words.
Proof.
  induction words as [|w rest IH]; intros Hall; [done|].
  apply Forall_cons in Hall as [[Hne Hw] Hrest].
  destruct rest as [|w' rest'].
  - simpl. by apply split_clean_word.
  - change (join (w :: w' :: rest')) with (w +:+ String " " (join (w' :: rest'))).
    unfold split at 1. rewrite split_acc_app_space by done.
    change (split_acc [] w) with (split w).
    rewrite split_clean_word by done.
    by rewrite (IH Hrest).
Qed.

Lemma split_join_witness :
  split (join ["e2e4"; "e7e5"; "g1f3"]) = ["e2e4"; "e7e5"; "g1f3"].
Proof.
  apply split_join.
  repeat (constructor; [split; [discriminate|];
                        unfold no_space; simpl; repeat constructor|]).
  constructor.
Defined.

End SplitFacts.

(** ** More on the challenge filter *)

Module FilterMore.
Import Filter FilterCases.

(** The answer of the body, rule by rule. *)
Lemma body_cases crit c :
  let ch := default empty_challenger (challenger c) in
  let tc := default empty_tc (timeControl c) in
  is_challenge_acceptable_body crit c =
  if default false (rematch c) then
    if negb (allow_rematches crit) then Ok (false, RematchesDisabled)
    else if deny_bots crit && is_bot ch then Ok (false, RematchFromBotDenied)
    else Ok (true, RematchAccepted)
  else if deny_bots crit && is_bot ch then Ok (false, BotDenied)
  else if negb (variant_allowed crit (variant_key c))
       then Ok (false, UnsupportedVariant (variant_key c))
  else if negb (bool_decide (default false (challenger_rated ch) = rated crit))
       then Ok (false, UnsupportedMode (default false (challenger_rated ch)))
  else if negb (known_tc_type tc) then Ok (false, UnsupportedGameType)
  else match parse_time_control tc with
       | Raise e => Raise e
       | Ok p =>
           match rating ch with
           | Some r =>
               if bool_decide (r = 0) then
                 if tc_acceptable crit p then Ok (true, ChallengeAccepted)
                 else Ok (false, BadTimeControl)
               else if (min_rating crit <=? r) && (r <=? max_rating crit) then
                 if tc_acceptable crit p then Ok (true, ChallengeAccepted)
                 else Ok (false, BadTimeControl)
               else Ok (false, RatingOutOfRange r)
           | None =>
               if tc_acceptable crit p then Ok (true, ChallengeAccepted)
               else Ok (false, BadTimeControl)
           end
       end.
Proof.
  intros ch tc. unfold is_challenge_acceptable_body. fold ch tc.
  destruct (default false (rematch c)); [done|].
  destruct (deny_bots crit && is_bot ch); [done|].
  destruct (negb (variant_allowed crit (variant_key c))); [done|].
  destruct (negb (bool_decide _)); [done|].
  destruct (negb (known_tc_type tc)); [done|].
  destruct (parse_time_control tc) as [p|e]; [|done].
  destruct (rating ch) as [r|]; cbv zeta.
  - case_bool_decide; [by destruct (tc_acceptable crit p)|].
    destruct ((min_rating crit <=? r) && (r <=? max_rating crit)); simpl;
      [by destruct (tc_acceptable crit p)|done].
  - by destruct (tc_acceptable crit p).
Qed.

(** X1. With deny-bots set, a challenger whose title is BOT is never
    accepted, rematch or not. *)
Theorem never_accepts_denied_bot crit c :
  deny_bots crit = true ->
  title (default empty_challenger (challenger c)) = Some "BOT" ->
  (is_challenge_acceptable crit c).1 = false.
Proof.
  intros Hd Hb. unfold is_challenge_acceptable. rewrite body_cases.
  unfold is_bot. rewrite Hd, Hb. simpl.
  destruct (default false (rematch c)); [|done].
  by destruct (allow_rematches crit).
Qed.

Lemma never_accepts_denied_bot_witness :
  (is_challenge_acceptable ACCEPTANCE_CRITERIA Book.bullet_from_bot).1 = false.
Proof.
  apply never_accepts_denied_bot; reflexivity.
Defined.

Lemma accepted_inversion crit c :
  (is_challenge_acceptable crit c).1 = true ->
  default false (rematch c) = false ->
  reaches_time_control_rule crit c
  /\ exists main inc t i,
       parse_time_control (default empty_tc (timeControl c)) = Ok (main, inc)
       /\ (t, i) ∈ time_controls crit /\ main = t /\ i <= inc.
Proof.
  unfold is_challenge_acceptable. rewrite body_cases. cbv zeta.
  intros Hacc Hre. rewrite Hre in Hacc.
  set (ch := default empty_challenger (challenger c)) in *.
  set (tc := default empty_tc (timeControl c)) in *.
  destruct (deny_bots crit && is_bot ch) eqn:Hbot; [done|].
  destruct (variant_allowed crit (variant_key c)) eqn:Hvar; [|done].
  simpl in Hacc. case_bool_decide as Hrated; [|done]. simpl in Hacc.
  destruct (known_tc_type tc) eqn:Hty; [|done]. simpl in Hacc.
  destruct (parse_time_control tc) as [[main inc]|e] eqn:Hp; [|done].
  assert (Htc : tc_acceptable crit (main, inc) = true
                /\ forall r, rating ch = Some r -> r <> 0 ->
                             min_rating crit <= r <= max_rating crit).
  { destruct (rating ch) as [r|].
    - case_bool_decide as H0.
      + destruct (tc_acceptable crit (main, inc)); [|done].
        split; [done|]. intros r' [= <-]. done.
      + destruct ((min_rating crit <=? r) && (r <=? max_rating crit)) eqn:Hr;
          [|done].
        destruct (tc_acceptable crit (main, inc)); [|done].
        split; [done|]. intros r' [= <-] _.
        apply andb_true_iff in Hr. lia.
    - destruct (tc_acceptable crit (main, inc)); [|done]. by split. }
  destruct Htc as [Hok Hrating]. split.
  - unfold reaches_time_control_rule. fold ch tc.
    repeat (split; [done|]). exact Hrating.
  - apply FilterFacts.tc_acceptable_spec in Hok as (t & i & Hin & Ht & Hi).
    by exists main, inc, t, i.
Qed.

(** X2. An accepted challenge that is not a rematch meets every rule: it
    passes all the checks before the time-control comparison, and its
    normalized time control has the main time of an allowed entry and at
    least that entry's increment. *)
Theorem accepted_meets_every_rule crit c :
  (is_challenge_acceptable crit c).1 = true ->
  default false (rematch c) = false ->
  reaches_time_control_rule crit c
  /\ exists main inc t i,
       parse_time_control (default empty_tc (timeControl c)) = Ok (main, inc)
       /\ (t, i) ∈ time_controls crit /\ main = t /\ i <= inc.
Proof. apply accepted_inversion. Qed.

Lemma accepted_meets_every_rule_witness :
  reaches_time_control_rule ACCEPTANCE_CRITERIA casual_3_2.
Proof.
  apply (accepted_meets_every_rule ACCEPTANCE_CRITERIA casual_3_2);
    reflexivity.
Defined.

(** X3. A challenge that is not a rematch and passes the bot, variant,
    rated-flag and type checks is denied for its rating when the rating is
    present, not zero and outside [min_rating, max_rating], whatever its
    time control is. *)
Theorem rating_out_of_range_denied crit c r :
  let ch := default empty_challenger (challenger c) in
  let tc := default empty_tc (timeControl c) in
  default false (rematch c) = false ->
  (deny_bots crit && is_bot ch) = false ->
  variant_allowed crit (variant_key c) = true ->
  default false (challenger_rated ch) = rated crit ->
  known_tc_type tc = true ->
  rating ch = Some r -> r <> 0 ->
  r < min_rating crit \/ max_rating crit < r ->
  is_challenge_acceptable crit c = (false, RatingOutOfRange r).
Proof.
  intros ch tc Hre Hbot Hvar Hrated Hty Hr H0 Hout.
  unfold is_challenge_acceptable. rewrite body_cases. fold ch tc.
  rewrite Hre, Hbot, Hvar, Hty, Hr. simpl.
  rewrite bool_decide_true by done. simpl.
  destruct (FilterFacts.parse_known_type tc Hty) as [p ->].
  rewrite bool_decide_false by done.
  replace ((min_rating crit <=? r) && (r <=? max_rating crit)) with false;
    [done|].
  symmetry. apply andb_false_iff. lia.
Qed.

Lemma rating_out_of_range_denied_witness :
  is_challenge_acceptable ACCEPTANCE_CRITERIA strong_5_3
  = (false, RatingOutOfRange 3001).
Proof.
  apply (rating_out_of_range_denied ACCEPTANCE_CRITERIA strong_5_3 3001);
    try reflexivity; simpl; lia.
Defined.

(** X4. A rating of 0 counts as no rating: the range check is skipped and
    the answer is the one the same challenge gets without the key. *)
Theorem rating_zero_skips_range_check crit c :
  is_challenge_acceptable crit (with_rating (Some 0) c)
  = is_challenge_acceptable crit (with_rating None c).
Proof.
  unfold is_challenge_acceptable. rewrite !body_cases. simpl.
  repeat (match goal with
          | |- context [if ?b then _ else _] => destruct b eqn:?; simpl
          | |- context [match ?x with _ => _ end] => destruct x eqn:?; simpl
          end; try done).
Qed.

(** The filter's [except] clause is never reached on a challenge of
    the modelled shape: the only lookup that can raise, [tc['type']], comes
    after the test that the type is known.  The flag and the reason agree:
    the flag is [True] exactly for the two accepting reasons. *)
Lemma filter_answers_consistently crit c :
  (exists r, is_challenge_acceptable_body crit c = Ok r)
  /\ (is_challenge_acceptable crit c).2 <> ProcessingError
  /\ (is_challenge_acceptable crit c).1 = accepting (is_challenge_acceptable crit c).2.
Proof.
  assert (H : exists r, is_challenge_acceptable_body crit c = Ok r
                        /\ r.2 <> ProcessingError /\ r.1 = accepting r.2).
  { rewrite body_cases. cbv zeta.
    destruct (default false (rematch c)).
    { repeat (match goal with
              | |- context [if ?b then _ else _] => destruct b eqn:?; simpl
              end; try (eexists; split; [reflexivity|by split])). }
    destruct (deny_bots crit && is_bot _); [by eexists|].
    destruct (variant_allowed crit (variant_key c)); simpl; [|by eexists].
    case_bool_decide; simpl; [|by eexists].
    destruct (known_tc_type _) eqn:Hty; simpl; [|by eexists].
    destruct (FilterFacts.parse_known_type _ Hty) as [p ->].
    repeat (match goal with
            | |- context [if ?b then _ else _] => destruct b eqn:?; simpl
            | |- context [match ?x with _ => _ end] => destruct x eqn:?; simpl
            end; try (eexists; split; [reflexivity|by split])). }
  destruct H as (r & Hr & Hne & Hacc). unfold is_challenge_acceptable.
  rewrite Hr. eauto.
Qed.

(** X5. Under [ACCEPTANCE_CRITERIA] as configured, a challenge that is
    not a rematch is accepted only with a clock: unlimited and
    correspondence games normalize to a main time that no allowed entry
    has. *)
Theorem configured_filter_accepts_clock_only c :
  default false (rematch c) = false ->
  (is_challenge_acceptable ACCEPTANCE_CRITERIA c).1 = true ->
  tc_type (default empty_tc (timeControl c)) = Some "clock"
  /\ default 0 (limit (default empty_tc (timeControl c))) ∈ [60; 180; 300; 600].
Proof.
  intros Hre Hacc.
  destruct (accepted_inversion ACCEPTANCE_CRITERIA c Hacc Hre)
    as (Hreach & main & inc & t & i & Hp & Hin & -> & Hi).
  destruct Hreach as (_ & _ & _ & _ & Hty & _).
  set (tc := default empty_tc (timeControl c)) in *.
  assert (Ht : t ∈ [60; 180; 300; 600]).
  { simpl in Hin.
    repeat (apply elem_of_cons in Hin as [[= -> ->]|Hin]; [set_solver|]).
    by apply elem_of_nil in Hin. }
  unfold known_tc_type in Hty. unfold parse_time_control in Hp.
  destruct (tc_type tc) as [ty|]; [|done].
  apply bool_decide_eq_true in Hty.
  repeat (apply elem_of_cons in Hty as [->|Hty]); [| | |by apply elem_of_nil in Hty];
    simpl in Hp; injection Hp as <- <-.
  - by split.
  - exfalso.
    repeat (apply elem_of_cons in Ht as [Ht|Ht]; [lia|]).
    by apply elem_of_nil in Ht.
  - exfalso.
    repeat (apply elem_of_cons in Ht as [Ht|Ht]; [lia|]).
    by apply elem_of_nil in Ht.
Qed.

Lemma configured_filter_accepts_clock_only_witness :
  tc_type (default empty_tc (timeControl casual_3_2)) = Some "clock"
  /\ default 0 (limit (default empty_tc (timeControl casual_3_2)))
       ∈ [60; 180; 300; 600].
Proof.
  apply configured_filter_accepts_clock_only; reflexivity.
Defined.

End FilterMore.

(** ** The event stream parser *)

Module StreamFacts.
Import Stream.

Section WithJson.
Context {J : Type} (loads : string -> loads_outcome J).

Lemma sapp_cons c (s1 s2 : string) :
  String c s1 +:+ s2 = String c (s1 +:+ s2).
Proof. done. Qed.

Lemma sapp_nil_r (s : string) : s +:+ "" = s.
Proof. induction s as [|c s IH]; [done|]. by rewrite sapp_cons, IH. Qed.

Lemma sapp_assoc (s1 s2 s3 : string) :
  (s1 +:+ s2) +:+ s3 = s1 +:+ (s2 +:+ s3).
Proof. induction s1 as [|c s1 IH]; [done|]. by rewrite !sapp_cons, IH. Qed.

Lemma cut_line_lines s :
  match cut_line s with
  | Some (line, rest) =>
      lines_and_tail s = (line :: (lines_and_tail rest).1, (lines_and_tail rest).2)
      /\ (String.length rest < String.length s)%nat
  | None => lines_and_tail s = ([], s)
  end.
Proof.
  induction s as [|c s IH]; simpl; [done|].
  destruct (Ascii.eqb c newline) eqn:Hc.
  - destruct (lines_and_tail s) as [ls t]. simpl. split; [done|lia].
  - destruct (cut_line s) as [[line rest]|].
    + destruct IH as [-> Hlen]. simpl. split; [done|lia].
    + by rewrite IH.
Qed.

(** With enough fuel the loop runs until no newline is left, or until an
    exception ends it. *)
Lemma drain_lines fuel : forall s,
  (String.length s <= fuel)%nat ->
  ((drain loads fuel s).1.1, (drain loads fuel s).2)
  = yield_lines loads (lines_and_tail s).1
  /\ ((drain loads fuel s).2 = None ->
      (drain loads fuel s).1.2 = (lines_and_tail s).2).
Proof.
  induction fuel as [|fuel IH]; intros s Hlen.
  - destruct s; [done|simpl in Hlen; lia].
  - simpl. pose proof (cut_line_lines s) as Hcut.
    destruct (cut_line s) as [[line rest]|].
    + destruct Hcut as [-> Hl]. simpl.
      destruct (yield_line loads line) as [records [e|]]; [done|].
      destruct (IH rest) as [IH1 IH2]; [lia|].
      destruct (drain loads fuel rest) as [[more remaining] stop].
      simpl in *. rewrite <- IH1. done.
    + by rewrite Hcut.
Qed.

Lemma yield_lines_app l1 l2 :
  yield_lines loads (l1 ++ l2)
  = match yield_lines loads l1 with
    | (records, Some e) => (records, Some e)
    | (records, None) =>
        ((records ++ (yield_lines loads l2).1)%list, (yield_lines loads l2).2)
    end.
Proof.
  induction l1 as [|l l1 IH]; simpl.
  - by destruct (yield_lines loads l2).
  - destruct (yield_line loads l) as [records [e|]]; [done|].
    rewrite IH. destruct (yield_lines loads l1) as [more [e|]]; [done|].
    simpl. by rewrite app_assoc.
Qed.

Lemma lines_and_tail_app s1 s2 :
  lines_and_tail (s1 +:+ s2)
  = (((lines_and_tail s1).1
      ++ (lines_and_tail ((lines_and_tail s1).2 +:+ s2)).1)%list,
     (lines_and_tail ((lines_and_tail s1).2 +:+ s2)).2).
Proof.
  induction s1 as [|c s1 IH].
  - simpl. change ("" +:+ s2) with s2. by destruct (lines_and_tail s2).
  - rewrite sapp_cons. simpl.
    rewrite IH. destruct (lines_and_tail s1) as [ls t]. simpl.
    destruct (Ascii.eqb c newline) eqn:Hc; simpl; [done|].
    destruct ls as [|l ls]; simpl; [|done].
    rewrite Hc.
    by destruct (lines_and_tail (t +:+ s2)) as [[|l' ls'] t'].
Qed.

Lemma tail_no_newline s :
  (lines_and_tail (lines_and_tail s).2).1 = []
  /\ (lines_and_tail (lines_and_tail s).2).2 = (lines_and_tail s).2.
Proof.
  induction s as [|c s IH]; simpl; [done|].
  destruct (lines_and_tail s) as [ls t]. simpl in *.
  destruct (Ascii.eqb c newline) eqn:Hc; simpl; [done|].
  destruct ls as [|l ls]; simpl; [|done].
  destruct IH as [IH1 IH2]. destruct (lines_and_tail t) as [ls' t'].
  simpl in *. subst. by rewrite Hc.
Qed.

(** The generator runs the loop body over the complete lines of the whole
    text, wherever the chunks are cut. *)
Lemma stream_from_lines stream_end chunks : forall buffer,
  (lines_and_tail buffer).1 = [] -> (lines_and_tail buffer).2 = buffer ->
  stream_from loads buffer chunks stream_end
  = let run := yield_lines loads
                 (lines_and_tail (buffer +:+ concat_chunks chunks)).1 in
    (run.1, match run.2 with Some e => Some e | None => stream_end end).
Proof.
  induction chunks as [|chunk rest IH]; intros buffer Hb1 Hb2; simpl.
  - by rewrite sapp_nil_r, Hb1.
  - rewrite <- sapp_assoc.
    rewrite (lines_and_tail_app (buffer +:+ chunk)). simpl.
    rewrite yield_lines_app.
    destruct (drain_lines (String.length (buffer +:+ chunk)) (buffer +:+ chunk))
      as [Hd1 Hd2]; [done|].
    unfold drain_all.
    destruct (drain loads _ (buffer +:+ chunk)) as [[records remaining] stop].
    simpl in *. rewrite <- Hd1.
    destruct stop as [e|]; [done|].
    rewrite Hd2 by done.
    destruct (tail_no_newline (buffer +:+ chunk)) as [Ht1 Ht2].
    rewrite (IH _ Ht1 Ht2). simpl.
    by destruct (yield_lines loads (lines_and_tail (_ +:+ concat_chunks rest)).1).
Qed.

Lemma yield_lines_spec lines :
  let texts := filter (fun line => strip_truthy line = true) lines in
  yield_lines loads lines
  = (omap (decoded loads) (before_raise loads texts),
     head (omap (raised loads) texts)).
Proof.
  induction lines as [|l ls IH]; [done|].
  cbv zeta in *. simpl. rewrite filter_cons. unfold yield_line.
  destruct (strip_truthy l) eqn:Hl.
  - rewrite decide_True by done. simpl.
    assert (Hr : raised loads l
                 = match loads l with LoadsRaises e => Some e | _ => None end)
      by done.
    assert (Hd : decoded loads l
                 = match loads l with Loaded r => Some r | _ => None end)
      by done.
    destruct (loads l) as [record| |e]; rewrite Hr; simpl; [|by rewrite Hd, IH|done].
    rewrite Hd, IH. done.
  - rewrite decide_False by congruence. rewrite IH. done.
Qed.

(** X9. The generator yields, in order, the decoded values of the
    complete lines of the whole response text that are not blank and that
    [json.loads] accepts, up to the first line on which [json.loads]
    raises something else than [JSONDecodeError]: that exception ends the
    generator, and the lines after it are never read.  A line is complete
    when its newline has arrived; blank lines and lines that raise
    [JSONDecodeError] are dropped and the lines after them are still
    read; the text after the last newline is not yielded.  When no line
    ends the generator, it ends as the response does. *)
Theorem stream_yields_complete_lines chunks stream_end :
  let texts := filter (fun line => strip_truthy line = true)
                 (lines_and_tail (concat_chunks chunks)).1 in
  get_game_stream loads chunks stream_end
  = (omap (decoded loads) (before_raise loads texts),
     match head (omap (raised loads) texts) with
     | Some e => Some e
     | None => stream_end
     end).
Proof.
  unfold get_game_stream. rewrite stream_from_lines by done.
  change ("" +:+ concat_chunks chunks) with (concat_chunks chunks).
  cbv zeta. by rewrite yield_lines_spec.
Qed.

(** When [json.loads] raises nothing but [JSONDecodeError], the generator
    yields every decodable line and ends as the response does. *)
Lemma stream_without_other_errors chunks stream_end :
  let texts := filter (fun line => strip_truthy line = true)
                 (lines_and_tail (concat_chunks chunks)).1 in
  Forall (fun line => raised loads line = None) texts ->
  get_game_stream loads chunks stream_end
  = (omap (decoded loads) texts, stream_end).
Proof.
  intros texts Hall. unfold get_game_stream.
  rewrite stream_from_lines by done.
  change ("" +:+ concat_chunks chunks) with (concat_chunks chunks).
  cbv zeta. rewrite yield_lines_spec. cbv zeta. fold texts. simpl.
  assert (H : before_raise loads texts = texts
              /\ omap (raised loads) texts = []).
  { induction Hall as [|l ls Hl Hls [IH1 IH2]]; [done|].
    simpl. rewrite Hl. split; [by rewrite IH1|exact IH2]. }
  destruct H as [-> ->]. done.
Qed.

(** X10. What the parser yields depends on the response text only, not on
    how it is cut into chunks. *)
Theorem stream_chunking_irrelevant chunks chunks' stream_end :
  concat_chunks chunks = concat_chunks chunks' ->
  get_game_stream loads chunks stream_end
  = get_game_stream loads chunks' stream_end.
Proof.
  intros Heq. unfold get_game_stream.
  rewrite !stream_from_lines by done.
  change ("" +:+ concat_chunks chunks) with (concat_chunks chunks).
  change ("" +:+ concat_chunks chunks') with (concat_chunks chunks').
  by rewrite Heq.
Qed.

End WithJson.

Lemma stream_chunking_irrelevant_witness :
  get_game_stream braces
    ["{a}"; String newline "{"; "b}" +:+ String newline "{c"] None
  = get_game_stream braces
      ["{a}" +:+ String newline "{b}" +:+ String newline "{c"] None.
Proof.
  apply stream_chunking_irrelevant. reflexivity.
Defined.

(** A run: the second line is not JSON and is dropped, the fourth makes
    the decoder raise and ends the generator, so the fifth is never
    yielded. *)
Lemma stream_ends_at_other_error :
  get_game_stream braces
    ["{a}" +:+ String newline "no" +:+ String newline "{b";
     "}" +:+ String newline "[[" +:+ String newline "{c}" +:+ String newline ""]
    None
  = (["{a}"; "{b}"], Some OtherException).
Proof. reflexivity. Qed.

End StreamFacts.

(** ** More on sessions: what every step keeps *)

Module KeepFacts.
Import Session SessionCases.

Section Keeps.
Context {lib : ChessLib}.
Context (R : Manager -> Manager -> Prop) `{!PreOrder R}.

Lemma keeps_ret {A} (a : A) : keeps R (ret a).
Proof. intros s. simpl. reflexivity. Qed.

Lemma keeps_raise {A} e : keeps R (raise (A:=A) e).
Proof. intros s. simpl. reflexivity. Qed.

Lemma keeps_lift {A} (r : res A) : keeps R (lift r).
Proof. intros s. simpl. reflexivity. Qed.

Lemma keeps_gets {A} (f : Manager -> A) : keeps R (gets f).
Proof. intros s. simpl. reflexivity. Qed.

Lemma keeps_bind {A B} (m : M A) (k : A -> M B) :
  keeps R m -> (forall a, keeps R (k a)) -> keeps R (bind m k).
Proof.
  intros Hm Hk s. unfold bind. specialize (Hm s).
  destruct (m s) as [[a|e] s']; simpl in *; [|done].
  etrans; [exact Hm|apply Hk].
Qed.

Lemma keeps_try_except {A} (m : M A) (h : exn -> M A) :
  keeps R m -> (forall e, keeps R (h e)) -> keeps R (try_except m h).
Proof.
  intros Hm Hh s. unfold try_except. specialize (Hm s).
  destruct (m s) as [[a|e] s']; simpl in *; [done|].
  etrans; [exact Hm|apply Hh].
Qed.

Lemma keeps_try_finally {A} (m : M A) (f : M unit) :
  keeps R m -> keeps R f -> keeps R (try_finally m f).
Proof.
  intros Hm Hf s. unfold try_finally. specialize (Hm s).
  destruct (m s) as [r s']. specialize (Hf s').
  destruct (f s') as [[u|e] s'']; simpl in *; by etrans.
Qed.

End Keeps.

Ltac keeps_step :=
  lazymatch goal with
  | |- keeps _ (ret _) => apply keeps_ret; try apply _
  | |- keeps _ (raise _) => apply keeps_raise; try apply _
  | |- keeps _ (lift _) => apply keeps_lift; try apply _
  | |- keeps _ (gets _) => apply keeps_gets; try apply _
  | |- keeps _ (emit _) => apply step_emit
  | |- keeps _ (modify (set_engine _)) => apply step_engine
  | |- keeps _ (board_becomes _ _) => apply step_board
  | |- keeps _ (modify (set_games (insert _ _))) => apply step_insert
  | |- keeps _ (try_except _ _) =>
      apply keeps_try_except; [apply _| |intros ?]
  | |- keeps _ (bind _ _) => apply keeps_bind; [apply _| |intros ?]
  | |- keeps _ (except_only _ _ _) => unfold except_only
  | |- keeps _ (games_getitem _) => unfold games_getitem
  | |- keeps _ (getitem _) => unfold getitem
  | |- keeps _ (match ?x with _ => _ end) => destruct x
  end.

Ltac keeps_with tac :=
  repeat first
    [ progress unfold mbind, M_bind, mret, M_ret, log, sleep
    | keeps_step | tac | progress cbv beta zeta ].

Section SessionKeeps.
Context {lib : ChessLib}.
Context (R : Manager -> Manager -> Prop) (game_id : string).
Context `{!PreOrder R} `{!SessionSteps R game_id}.

Lemma keeps_restart_engine r : keeps R (restart_engine r).
Proof. unfold restart_engine. keeps_with fail. Qed.

Lemma keeps_reload out : keeps R (reload_game_state out game_id).
Proof. unfold reload_game_state. keeps_with fail. Qed.

Lemma keeps_make_move env move : keeps R (make_move env game_id move).
Proof.
  unfold make_move. generalize (seq 0 MAX_RETRIES) as l.
  induction l as [|a l IH]; simpl.
  - keeps_with fail.
  - unfold mbind, M_bind. apply keeps_bind; [apply _| |].
    + unfold make_move_attempt. keeps_with ltac:(apply keeps_reload).
    + intros [r|]; [apply keeps_ret; apply _|apply IH].
Qed.

Lemma keeps_make_move_timed timer env move :
  keeps R (make_move_timed timer env game_id move).
Proof.
  unfold make_move_timed. generalize (seq 0 MAX_RETRIES) as l.
  induction l as [|a l IH]; simpl.
  - keeps_with fail.
  - unfold mbind, M_bind. apply keeps_bind; [apply _| |].
    + unfold make_move_attempt_timed, reload_game_state_timed.
      keeps_with ltac:(apply keeps_reload).
    + intros [[r|]|]; [apply keeps_ret; apply _|apply IH|apply keeps_ret; apply _].
Qed.

Lemma keeps_apply_new_moves env l : forall b,
  keeps R (apply_new_moves env game_id b l).
Proof.
  induction l as [|m rest IH]; intros b; simpl.
  - apply keeps_ret; apply _.
  - unfold mbind, M_bind. apply keeps_bind; [apply _| |].
    + keeps_with ltac:(apply keeps_reload).
    + intros [b'|]; [apply IH|apply keeps_ret; apply _].
Qed.

Lemma keeps_compute_and_commit env b :
  keeps R (compute_and_commit env game_id b).
Proof.
  unfold compute_and_commit.
  keeps_with ltac:(first [apply keeps_make_move_timed
                         | apply keeps_restart_engine]).
Qed.

Lemma keeps_handle_game_state env moves :
  keeps R (handle_game_state env moves game_id).
Proof.
  unfold handle_game_state.
  keeps_with ltac:(first [apply keeps_reload | apply keeps_apply_new_moves
                         | apply keeps_compute_and_commit]).
Qed.

Lemma keeps_replay_moves l : forall b, keeps R (replay_moves game_id b l).
Proof.
  induction l as [|m rest IH]; intros b; simpl.
  - apply keeps_ret; apply _.
  - keeps_with ltac:(apply IH).
Qed.

Lemma keeps_handle_initial_state env state_moves :
  keeps R (handle_initial_state env state_moves game_id).
Proof.
  unfold handle_initial_state.
  keeps_with ltac:(first [apply keeps_replay_moves
                         | apply keeps_handle_game_state
                         | apply keeps_restart_engine]).
Qed.

Lemma keeps_safe_request {A} method url (out : request_outcome A) :
  keeps R (safe_request method url out).
Proof. unfold safe_request. keeps_with fail. Qed.

Lemma keeps_handle_chat_message env event :
  keeps R (handle_chat_message env event game_id).
Proof.
  unfold handle_chat_message, send_chat_message.
  keeps_with ltac:(apply keeps_safe_request).
Qed.

Lemma keeps_process_event env event :
  keeps R (process_event env event game_id).
Proof.
  unfold process_event.
  keeps_with ltac:(first [apply keeps_handle_initial_state
                         | apply keeps_handle_game_state
                         | apply keeps_handle_chat_message]).
Qed.

Lemma keeps_run_stream events stream_end :
  keeps R (run_stream game_id events stream_end).
Proof.
  induction events as [|[event env] rest IH]; simpl.
  - keeps_with fail.
  - keeps_with ltac:(first [apply keeps_process_event | apply IH]).
Qed.

End SessionKeeps.

Section Relations.
Context {lib : ChessLib}.

Lemma stays_preorder game_id : PreOrder (stays game_id).
Proof.
  split.
  - intros s. by repeat split.
  - intros s1 s2 s3 [[G1 A1] K1] [[G2 A2] K2]. repeat split.
    + intros other Hne. by rewrite G2, G1.
    + by rewrite A2, A1.
    + auto.
Qed.

#[global] Existing Instance stays_preorder.

Lemma stays_steps game_id : SessionSteps (stays game_id) game_id.
Proof.
  split.
  - intros ev s. by repeat split.
  - intros h s. by repeat split.
  - intros b s. repeat split; simpl.
    + intros other Hne. by rewrite lookup_alter_ne.
    + rewrite lookup_alter_eq. intros [gd ->]. by eexists.
  - intros gd s. repeat split; simpl.
    + intros other Hne. by rewrite lookup_insert_ne.
    + rewrite lookup_insert_eq. by eexists.
Qed.

#[global] Existing Instance stays_steps.

Lemma grows_preorder : PreOrder grows.
Proof.
  split.
  - intros s. exists []. unfold effects_between. by rewrite app_nil_r.
  - intros s1 s2 s3 [t1 H1] [t2 H2]. exists (t1 ++ t2)%list.
    unfold effects_between in *. by rewrite H2, H1, app_assoc.
Qed.

#[global] Existing Instance grows_preorder.

Lemma grows_same_trace s s' : trace s' = trace s -> grows s s'.
Proof. intros H. exists []. unfold effects_between. by rewrite app_nil_r. Qed.

Lemma grows_steps game_id : SessionSteps grows game_id.
Proof.
  split.
  - intros ev s. by exists [ev].
  - intros h s. by apply grows_same_trace.
  - intros b s. by apply grows_same_trace.
  - intros gd s. by apply grows_same_trace.
Qed.

#[global] Existing Instance grows_steps.

End Relations.

End KeepFacts.

(** ** More on sessions: reload, submission, replay *)

Module SessionMore.
Import Session SessionCases KeepFacts Book.

Ltac unfold_M :=
  unfold board_becomes, games_getitem, getitem;
  unfold mbind, M_bind, mret, M_ret, bind, ret, raise, try_except, lift, gets,
    modify, emit, log, sleep, except_only in *.

Ltac by_computation := apply (bool_decide_unpack _); vm_compute; exact I.

Section WithChess.
Context {lib : ChessLib}.

Implicit Types (s : Manager) (b : Board) (env : Env) (game_id : string).

Lemma effects_2 (e1 e2 : effect) s :
  add_trace e2 (add_trace e1 s) = add_effects [e1; e2] s.
Proof.
  apply SessionFacts.manager_eq; try done. simpl. by rewrite <- app_assoc.
Qed.

(** X11. A reload that cannot get a board keeps every board: when the
    fetch raises, or the FEN it brings is rejected by [chess.Board], the
    call returns normally, the only effects are the GET and an error
    record, and the state is otherwise as it was. *)
Theorem reload_failure_keeps_boards out game_id s :
  (exists e, out = FetchRaises e)
  \/ (exists fen e, out = FetchJson fen
                    /\ Board_fen (default STARTING_FEN fen) = Raise e) ->
  reload_game_state out game_id s
  = (Ok tt,
     add_effects [HttpGet (BASE_URL +:+ "/bot/game/" +:+ game_id);
                  Log ERROR "game reload failed"] s).
Proof.
  intros H. rewrite SessionFacts.reload_cases. cbv zeta. rewrite effects_2.
  destruct H as [[e ->]|(fen & e & -> & Hfen)]; [done|]. by rewrite Hfen.
Qed.

(** X12. A reload never changes the colour of its session, never loses
    the session and never writes to another session, to the registry of
    tasks or to the engine handle. *)
Theorem reload_keeps_colour out game_id s gd :
  games s !! game_id = Some gd ->
  let s' := (reload_game_state out game_id s).2 in
  (exists gd', games s' !! game_id = Some gd' /\ is_white gd' = is_white gd)
  /\ (forall other, other <> game_id -> games s' !! other = games s !! other)
  /\ active_games s' = active_games s
  /\ engine s' = engine s.
Proof.
  intros Hgd. cbv zeta. rewrite SessionFacts.reload_cases. cbv zeta.
  assert (Hkeep : exists gd', games s !! game_id = Some gd'
                              /\ is_white gd' = is_white gd) by eauto.
  destruct out as [e|fen]; [by repeat split|].
  destruct (Board_fen _) as [b|e]; [|by repeat split].
  rewrite Hgd. simpl. repeat split.
  - rewrite lookup_insert_eq. eauto.
  - intros other Hne. by rewrite lookup_insert_ne.
Qed.

(** *** Submission *)

Lemma count_posts_app t1 t2 :
  count_posts (t1 ++ t2) = (count_posts t1 + count_posts t2)%nat.
Proof. unfold count_posts. by rewrite List.filter_app, length_app. Qed.

(** Every attempt makes exactly one POST. *)
Lemma attempt_posts_once env game_id move attempt s :
  exists t, effects_between s (make_move_attempt env game_id move attempt s).2 t
            /\ count_posts t = 1%nat.
Proof.
  unfold make_move_attempt. unfold_M. unfold effects_between.
  destruct (post_move env attempt) as [e|status]; simpl.
  { eexists. split; [by rewrite <- !app_assoc|done]. }
  destruct (status =? 200); [|by eexists].
  simpl. destruct (games s !! game_id) as [gd|]; [|by eexists].
  destruct (push_uci (board gd) move) as [b'|e]; simpl; [by eexists|].
  destruct (decide (e = IllegalMoveError)) as [->|Hne]; simpl.
  - rewrite SessionFacts.reload_cases. cbv zeta.
    destruct (snapshot env) as [e|fen]; simpl.
    { eexists. split; [by rewrite <- !app_assoc|done]. }
    destruct (Board_fen _); simpl;
      [destruct (games s !! game_id); simpl|];
      (eexists; split; [by rewrite <- !app_assoc|done]).
  - eexists. split; [by rewrite <- !app_assoc|done].
Qed.

Lemma loop_posts_bounded env game_id move : forall attempts s,
  exists t, effects_between s (make_move_loop env game_id move attempts s).2 t
            /\ (count_posts t <= List.length attempts)%nat
            /\ (attempts <> [] -> 1 <= count_posts t)%nat.
Proof.
  induction attempts as [|a l IH]; intros s.
  - simpl. unfold_M. exists [Log ERROR "all submission attempts failed"].
    split; [done|]. split; [unfold count_posts; simpl; lia|done].
  - rewrite SessionFacts.make_move_loop_cons.
    destruct (attempt_posts_once env game_id move a s) as (t1 & H1 & C1).
    pose proof (SessionFacts.nr_make_move_attempt env game_id move a s) as [r Hr].
    destruct (make_move_attempt env game_id move a s) as [r0 s1].
    simpl in *. subst r0. destruct r as [r|].
    + exists t1. simpl. split; [done|]. split; lia.
    + destruct (IH s1) as (t2 & H2 & C2 & _).
      exists (t1 ++ t2)%list. unfold effects_between in *.
      rewrite count_posts_app. simpl.
      split; [by rewrite H2, H1, app_assoc|]. split; lia.
Qed.

(** X13. Whatever the server and the network answer, one call of
    [make_move] makes at least one and at most [MAX_RETRIES] POST
    requests. *)
Theorem make_move_posts_bounded env game_id move s :
  exists t, effects_between s (make_move env game_id move s).2 t
            /\ (1 <= count_posts t <= MAX_RETRIES)%nat.
Proof.
  destruct (loop_posts_bounded env game_id move (seq 0 MAX_RETRIES) s)
    as (t & Ht & Hle & Hge).
  exists t. split; [done|]. rewrite length_seq in Hle.
  split; [by apply Hge|done].
Qed.

Lemma loop_verdict env game_id move : forall attempts s,
  let out := make_move_loop env game_id move attempts s in
  (out.1 = Ok true /\ exists k, k ∈ attempts /\ post_move env k = PostStatus 200)
  \/ (out.1 = Ok false /\ games out.2 = games s /\ engine out.2 = engine s).
Proof.
  induction attempts as [|a l IH]; intros s; cbv zeta.
  - right. simpl. by unfold_M.
  - rewrite SessionFacts.make_move_loop_cons.
    assert (Ha : match make_move_attempt env game_id move a s with
                 | (Ok (Some true), _) => post_move env a = PostStatus 200
                 | (Ok (Some false), s') | (Ok None, s') =>
                     games s' = games s /\ engine s' = engine s
                 | (Raise _, _) => False
                 end).
    { unfold make_move_attempt. unfold_M.
      destruct (post_move env a) as [e|status]; simpl; [done|].
      destruct (status =? 200) eqn:E; [|done].
      apply Z.eqb_eq in E as ->.
      simpl. destruct (games s !! game_id) as [gd|]; [|done].
      destruct (push_uci (board gd) move) as [b'|e]; simpl; [done|].
      destruct (decide (e = IllegalMoveError)) as [->|Hne]; simpl; [|done].
      rewrite SessionFacts.reload_eq. done. }
    destruct (make_move_attempt env game_id move a s) as [[[[|]|]|e] s1];
      [| | |done].
    + left. split; [done|]. exists a. split; [apply list_elem_of_here|done].
    + right. simpl. tauto.
    + destruct Ha as [Hg He]. destruct (IH s1) as [[Ht (k & Hk & Hp)]|[Hf [Hg' He']]].
      * left. split; [done|]. exists k. split; [by apply list_elem_of_further|done].
      * right. split; [done|]. split; congruence.
Qed.

(** X14. [make_move] returns [True] only when one of its at most
    [MAX_RETRIES] POSTs was answered with status 200; when it returns
    [False], no board has been touched.  It returns one of the two. *)
Theorem make_move_verdict env game_id move s :
  let out := make_move env game_id move s in
  (out.1 = Ok true
   /\ exists k, (k < MAX_RETRIES)%nat /\ post_move env k = PostStatus 200)
  \/ (out.1 = Ok false /\ games out.2 = games s).
Proof.
  cbv zeta. unfold make_move.
  destruct (loop_verdict env game_id move (seq 0 MAX_RETRIES) s)
    as [[Ht (k & Hk & Hp)]|[Hf [Hg _]]].
  - left. split; [done|]. exists k. split; [|done].
    apply elem_of_seq in Hk. lia.
  - by right.
Qed.

(** *** Moves that cannot be pushed *)

(** The loop of [handle_game_state] when a move of the suffix raises
    something other than [IllegalMoveError]: the exception leaves the
    loop, with the moves before it pushed. *)
Lemma apply_new_moves_raises env game_id pre m rest e : forall b b1 gd s,
  games s !! game_id = Some gd -> board gd = b ->
  push_all b pre = Ok b1 ->
  push_uci b1 m = Raise e -> e <> IllegalMoveError ->
  apply_new_moves env game_id b (pre ++ m :: rest) s
  = (Raise e, with_board game_id b1 s).
Proof.
  induction pre as [|p pre IH]; intros b b1 gd s Hgd Hb Hpush Hm Hne;
    simpl in *.
  - injection Hpush as <-. subst b.
    rewrite (SessionFacts.with_board_same _ gd) by done.
    unfold_M. rewrite ?Hm. simpl. by rewrite decide_False.
  - destruct (push_uci b p) as [b2|e'] eqn:Hp; [|done].
    unfold_M. rewrite ?Hp. simpl.
    fold (with_board game_id b2 s).
    erewrite IH; [|by apply SessionFacts.board_at_with_board|done|done|done|done].
    by rewrite SessionFacts.with_board_twice.
Qed.

(** X15. A move of the reported suffix that [push_uci] rejects as
    malformed ([InvalidMoveError], not [IllegalMoveError]) does not start
    a reload: the moves before it stay pushed, the event ends with a
    "fatal error" record, and neither a snapshot is fetched nor a move
    computed. *)
Theorem malformed_move_in_history env moves game_id s gd pre m rest b1 e :
  games s !! game_id = Some gd ->
  diverged (move_stack (board gd)) (split (default "" moves)) = false ->
  drop (List.length (move_stack (board gd))) (split (default "" moves))
    = (pre ++ m :: rest)%list ->
  push_all (board gd) pre = Ok b1 ->
  push_uci b1 m = Raise e -> e <> IllegalMoveError ->
  handle_game_state env moves game_id s
  = (Ok tt, add_trace (Log ERROR "fatal error") (with_board game_id b1 s)).
Proof.
  intros Hgd Hsync Hsuf Hpush Hm Hne.
  unfold handle_game_state. unfold try_except at 1.
  unfold mbind, M_bind, bind at 1. unfold gets at 1. rewrite Hgd.
  cbv zeta. rewrite Hsync. unfold mbind, M_bind, bind at 1. rewrite Hsuf.
  by rewrite (apply_new_moves_raises env game_id pre m rest e (board gd) b1 gd s).
Qed.

(** An event for a session that [self.games] does not hold:
    [handle_game_state] only logs an error; [handle_initial_state] takes
    the [KeyError] for a critical error and restarts the engine. *)
Lemma event_for_unknown_session env moves game_id s :
  games s !! game_id = None ->
  handle_game_state env moves game_id s
  = (Ok tt, add_trace (Log ERROR "game data not found") s)
  /\ handle_initial_state env moves game_id s
     = restart_engine (restart env) (add_trace (Log ERROR "critical error") s).
Proof.
  intros Hgd. split.
  - unfold handle_game_state. unfold_M. by rewrite Hgd.
  - unfold handle_initial_state. unfold try_except at 1.
    unfold_M. by rewrite Hgd.
Qed.

Lemma replay_moves_raises game_id pre m rest e : forall b b1 gd s,
  games s !! game_id = Some gd -> board gd = b ->
  push_all b pre = Ok b1 ->
  push_uci b1 m = Raise e ->
  replay_moves game_id b (pre ++ m :: rest) s
  = (Raise e, with_board game_id b1 s).
Proof.
  induction pre as [|p pre IH]; intros b b1 gd s Hgd Hb Hpush Hm; simpl in *.
  - injection Hpush as <-. subst b.
    rewrite (SessionFacts.with_board_same _ gd) by done.
    unfold_M. by rewrite ?Hm.
  - destruct (push_uci b p) as [b2|e'] eqn:Hp; [|done].
    unfold_M. rewrite ?Hp. simpl.
    fold (with_board game_id b2 s).
    erewrite IH; [|by apply SessionFacts.board_at_with_board|done|done|done].
    by rewrite SessionFacts.with_board_twice.
Qed.

(** X16. A move of the initial history that [push_uci] rejects with a
    [ValueError] (illegal or malformed) ends [handle_initial_state]
    quietly: the moves before it stay pushed, an error is logged, and
    neither the engine is restarted nor a snapshot fetched nor a move
    computed. *)
Theorem bad_move_in_initial_history env moves game_id s gd pre m rest b1 e :
  games s !! game_id = Some gd ->
  str_truthy moves = true ->
  split moves = (pre ++ m :: rest)%list ->
  push_all (board gd) pre = Ok b1 ->
  push_uci b1 m = Raise e -> is_ValueError e = true ->
  handle_initial_state env (Some moves) game_id s
  = (Ok tt, add_trace (Log ERROR "bad move in history") (with_board game_id b1 s)).
Proof.
  intros Hgd Htruthy Hsplit Hpush Hm He.
  unfold handle_initial_state. unfold try_except at 1.
  unfold mbind, M_bind, bind at 1. unfold games_getitem.
  unfold mbind, M_bind, bind at 1. unfold gets at 1. rewrite Hgd.
  unfold mret, M_ret, ret at 1. rewrite Htruthy, Hsplit.
  unfold mbind, M_bind, bind at 1. unfold try_except at 1.
  unfold bind at 1.
  rewrite (replay_moves_raises game_id pre m rest e (board gd) b1 gd s) by done.
  rewrite He. by unfold_M.
Qed.

(** *** The engine restart *)

(** X17. When [engine.quit()] raises, which is how a dead process may
    answer, [restart_engine] does not get to the relaunch: it raises,
    the manager keeps the old handle, and no process is started. *)
Theorem restart_stops_at_failed_quit r s h e :
  engine s = Some h ->
  quit_out r = Raise e ->
  restart_engine r s
  = (Raise e, add_effects [EngineQuit; Log CRITICAL "engine restart failed"] s).
Proof.
  intros Heng Hq. unfold restart_engine. unfold_M. rewrite Heng. simpl.
  rewrite Hq. simpl. by rewrite effects_2.
Qed.

(** X18. Once the relaunch has succeeded the manager holds the new
    process handle, also when configuring the new process raises: the
    handle is stored before [configure] is awaited.  [quit] and the
    1 second pause come first exactly when there was a handle. *)
Theorem restart_stores_new_handle r s h :
  popen_out r = Ok h ->
  engine s = None \/ quit_out r = Ok tt ->
  let out := restart_engine r s in
  engine out.2 = Some h
  /\ games out.2 = games s
  /\ (configure_out r = Ok tt ->
        out.1 = Ok tt
        /\ effects_between s out.2
             (match engine s with
              | Some _ => [EngineQuit; Sleep 1]
              | None => []
              end ++ [EnginePopen; EngineConfigure]))
  /\ (forall e, configure_out r = Raise e -> out.1 = Raise e).
Proof.
  intros Hp Hq. cbv zeta. unfold restart_engine. unfold_M. rewrite Hp.
  unfold effects_between.
  destruct (engine s) as [h0|] eqn:Heng; simpl.
  - destruct Hq as [|Hq]; [done|]. rewrite Hq. simpl.
    destruct (configure_out r) as [[]|e]; simpl;
      repeat split; try done;
      first [by rewrite <- !app_assoc | by intros e' [= ->]].
  - destruct (configure_out r) as [[]|e]; simpl;
      repeat split; try done;
      first [by rewrite <- !app_assoc | by intros e' [= ->]].
Qed.

(** *** The event loop *)

(** The [finally] block of [process_game]. *)
Lemma process_game_finally game_id s :
  (running ← gets active_games;
   match running !! game_id with
   | Some _ => modify (set_active_games (delete game_id))
   | None => mret tt
   end) s
  = (Ok tt, set_active_games (delete game_id) s).
Proof.
  unfold_M. destruct (active_games s !! game_id) eqn:E; [done|].
  f_equal. apply SessionFacts.manager_eq; try done. simpl.
  by rewrite delete_id.
Qed.

Lemma process_game_shape game events stream_end s :
  exists r s2,
    try_except
      (emit (HttpGet (BASE_URL +:+ "/bot/game/stream/" +:+ gameId game));;
       run_stream (gameId game) events stream_end)
      (fun e => log ERROR "game error")
      (set_games (insert (gameId game)
                    {| board := Board_start;
                       is_white := bool_decide (color game = Some "white") |}) s)
    = (r, s2)
    /\ process_game game events stream_end s
       = (r, set_active_games (delete (gameId game)) s2).
Proof.
  change (process_game game events stream_end s)
    with (try_finally
            (try_except
               (emit (HttpGet (BASE_URL +:+ "/bot/game/stream/" +:+ gameId game));;
                run_stream (gameId game) events stream_end)
               (fun e => log ERROR "game error"))
            (running ← gets active_games;
             match running !! gameId game with
             | Some _ => modify (set_active_games (delete (gameId game)))
             | None => mret tt
             end)
            (set_games (insert (gameId game)
                          {| board := Board_start;
                             is_white := bool_decide (color game = Some "white") |}) s)).
  unfold try_finally.
  destruct (try_except _ _ _) as [r s2]. exists r, s2. split; [done|].
  by rewrite process_game_finally.
Qed.

(** X20. [process_game] registers its session under the game id and,
    however the stream goes, ends by taking the game id out of
    [active_games]; the entry in [self.games] is still there afterwards
    (it is never deleted), and no other session's data is written. *)
Theorem process_game_cleans_registry_only game events stream_end s :
  let game_id := gameId game in
  let out := process_game game events stream_end s in
  out.1 = Ok tt
  /\ active_games out.2 = delete game_id (active_games s)
  /\ is_Some (games out.2 !! game_id)
  /\ (forall other, other <> game_id -> games out.2 !! other = games s !! other)
  /\ (events = [] ->
        games out.2 !! game_id
        = Some {| board := Board_start;
                  is_white := bool_decide (color game = Some "white") |}).
Proof.
  cbv zeta. split; [apply SessionFacts.returns_unit, SessionFacts.nr_process_game|].
  destruct (process_game_shape game events stream_end s) as (r & s2 & Hbody & ->).
  simpl.
  set (s1 := set_games _ s) in Hbody.
  assert (Hs1 : games s1 !! gameId game
                = Some {| board := Board_start;
                          is_white := bool_decide (color game = Some "white") |}).
  { unfold s1. simpl. apply lookup_insert_eq. }
  assert (Hstays : stays (gameId game) s1 s2).
  { change s2 with (r, s2).2. rewrite <- Hbody.
    apply keeps_try_except; [apply _| |].
    - unfold mbind, M_bind. apply keeps_bind; [apply _|apply step_emit|].
      intros _. apply keeps_run_stream; apply _.
    - intros e. apply step_emit. }
  destruct Hstays as [[Hframe Hact] Hsome].
  rewrite Hact. split; [done|]. split; [apply Hsome; by rewrite Hs1|]. split.
  - intros other Hne. rewrite Hframe by done. unfold s1. simpl.
    by rewrite lookup_insert_ne.
  - intros ->. revert Hbody. unfold_M. simpl.
    destruct stream_end; intros [= _ <-]; exact Hs1.
Qed.

Lemma bind_ret_l {A B} (a : A) (k : A -> M B) : bind (ret a) k = k a.
Proof. reflexivity. Qed.

Lemma ok_false_ret s r s' : ret false s = (Ok r, s') -> r = false.
Proof. by intros [= <- _]. Qed.

Lemma ok_false_bind {A} (m : M A) (k : A -> M bool) :
  (forall a s r s', k a s = (Ok r, s') -> r = false) ->
  forall s r s', bind m k s = (Ok r, s') -> r = false.
Proof.
  intros Hk s r s'. unfold bind. destruct (m s) as [[a|e] s1]; [|done].
  apply Hk.
Qed.

Lemma try_except_false (m : M bool) (h : exn -> M bool) s :
  (forall s r s', m s = (Ok r, s') -> r = false) ->
  (forall e s', (h e s').1 = Ok false) ->
  (try_except m h s).1 = Ok false.
Proof.
  intros Hm Hh. unfold try_except. specialize (Hm s).
  destruct (m s) as [[r|e] s']; simpl; [|apply Hh].
  by rewrite (Hm r s' eq_refl).
Qed.

(** X21. The event loop stops exactly at the three terminal event types.
    Handling an event says "stop" if and only if its type is [gameFinish],
    [aborted] or [resign]; such an event changes nothing, and neither the
    events after it nor a later break of the stream are seen. *)
Theorem loop_stops_at_terminal_event env event game_id s :
  (process_event env event game_id s).1 = Ok (is_terminal event)
  /\ (is_terminal event = true ->
        process_event env event game_id s = (Ok true, s)
        /\ forall rest stream_end,
             run_stream game_id ((event, env) :: rest) stream_end s = (Ok tt, s)).
Proof.
  assert (Hterm : is_terminal event = true ->
                  process_event env event game_id s = (Ok true, s)).
  { unfold is_terminal, process_event. destruct (ev_type event) as [ty|]; [|done].
    intros Hty. apply bool_decide_eq_true in Hty. unfold_M. simpl.
    rewrite (bool_decide_true (ty ∈ _)) by done.
    repeat (apply elem_of_cons in Hty as [->|Hty]; [done|]).
    by apply elem_of_nil in Hty. }
  split.
  - destruct (is_terminal event) eqn:Ht; [by rewrite Hterm|].
    unfold is_terminal in Ht. unfold process_event.
    apply try_except_false; [|by intros e s'].
    unfold getitem. unfold mbind, M_bind, mret, M_ret.
    destruct (ev_type event) as [ty|]; [|by intros s0 r s'].
    cbv iota. rewrite bind_ret_l, Ht.
    repeat case_bool_decide;
      try apply ok_false_ret;
      destruct (ev_state event); try (by intros s0 r s');
      rewrite ?bind_ret_l;
      repeat (apply ok_false_bind; intros ?); apply ok_false_ret.
  - intros Ht. split; [by apply Hterm|]. intros rest stream_end.
    simpl. unfold mbind, M_bind, bind. by rewrite (Hterm Ht).
Qed.

(** *** Chat *)

(** X22. A chat line never changes a board, the registry or the engine
    handle.  A line from the system account [lichess] has no effect at
    all, also when it has no ['text'] key.  A request is made exactly for
    a line of another account whose text is [!help] in any letter case:
    one POST, to the chat of the game. *)
Theorem chat_lines_touch_no_state env event game_id s :
  let out := handle_chat_message env event game_id s in
  let asks_help :=
    exists username text,
      ev_username event = Some username /\ username <> "lichess"
      /\ ev_text event = Some text /\ lower text = "!help" in
  games out.2 = games s /\ active_games out.2 = active_games s
  /\ engine out.2 = engine s
  /\ (ev_username event = Some "lichess" -> out = (Ok tt, s))
  /\ exists t : list effect,
       effects_between s out.2 t
       /\ (asks_help ->
             head t = Some (HttpPost (BASE_URL +:+ "/bot/game/" +:+ game_id +:+ "/chat"))
             /\ count_posts t = 1%nat)
       /\ (~ asks_help -> t = []).
Proof.
  cbv zeta. unfold handle_chat_message, send_chat_message, safe_request.
  unfold effects_between.
  assert (Hurl : String.prefix "https://"
                   (BASE_URL +:+ "/bot/game/" +:+ game_id +:+ "/chat") = true)
    by reflexivity.
  rewrite Hurl, orb_true_r. unfold_M.
  destruct (ev_username event) as [username|]; simpl.
  2:{ repeat split; try done. exists []. rewrite app_nil_r.
      split; [done|]. split; [|done]. by intros (u & t & Hu & _). }
  case_bool_decide as Hsys; simpl.
  { repeat split; try done. exists []. rewrite app_nil_r.
    split; [done|]. split; [|done]. intros (u & t & [= <-] & Hne & _). done. }
  destruct (ev_text event) as [text|]; simpl.
  2:{ repeat split; try done; try (by intros [= ->]).
      exists []. rewrite app_nil_r.
      split; [done|]. split; [|done]. by intros (u & t & _ & _ & Ht & _). }
  case_bool_decide as Hhelp; simpl.
  - destruct (chat_out env) as [e|status []]; simpl;
      [|destruct (status =? 200); simpl];
      (repeat split; try done; try (by intros [= ->]));
      eexists; (split; [by rewrite <- ?app_assoc|]); (split; [done|]);
      intros Hno; exfalso; apply Hno; by exists username, text.
  - repeat split; try done; try (by intros [= ->]).
    exists []. rewrite app_nil_r.
    split; [done|]. split; [|done].
    intros (u & t & _ & _ & [= <-] & Ht). done.
Qed.

End WithChess.
End SessionMore.

(** ** More on sessions: the colour flag *)

Module ColourFacts.
Import Session SessionCases.

Section WithChess.
Context {lib : ChessLib}.
Context (game_id : string) (w : bool).

Implicit Types (s : Manager) (b : Board) (env : Env).

Lemma recolor_lookup s :
  games (recolor game_id w s) !! game_id
  = (fun gd => {| board := board gd; is_white := w |}) <$> games s !! game_id.
Proof. simpl. by rewrite lookup_alter_eq. Qed.

Lemma cb_ret {A} (a : A) : colour_blind game_id w (ret a).
Proof. done. Qed.

Lemma cb_raise {A} e : colour_blind game_id w (raise (A:=A) e).
Proof. done. Qed.

Lemma cb_lift {A} (r : res A) : colour_blind game_id w (lift r).
Proof. done. Qed.

Lemma cb_emit ev : colour_blind game_id w (emit ev).
Proof. done. Qed.

Lemma cb_set_engine h : colour_blind game_id w (modify (set_engine h)).
Proof. done. Qed.

Lemma cb_gets_engine : colour_blind game_id w (gets engine).
Proof. done. Qed.

Lemma cb_board_becomes b : colour_blind game_id w (board_becomes game_id b).
Proof.
  intros s. unfold board_becomes, modify. simpl. f_equal.
  apply SessionFacts.manager_eq; try done. simpl.
  apply map_eq. intros k. rewrite !lookup_alter.
  repeat case_decide; try done. by destruct (games s !! game_id).
Qed.

Lemma cb_bind {A B} (m : M A) (k : A -> M B) :
  colour_blind game_id w m -> (forall a, colour_blind game_id w (k a)) ->
  colour_blind game_id w (bind m k).
Proof.
  intros Hm Hk s. unfold bind. rewrite Hm.
  destruct (m s) as [[a|e] s']; simpl; [|done].
  rewrite Hk. by destruct (k a s').
Qed.

Lemma cb_try_except {A} (m : M A) (h : exn -> M A) :
  colour_blind game_id w m -> (forall e, colour_blind game_id w (h e)) ->
  colour_blind game_id w (try_except m h).
Proof.
  intros Hm Hh s. unfold try_except. rewrite Hm.
  destruct (m s) as [[a|e] s']; simpl; [done|].
  rewrite Hh. by destruct (h e s').
Qed.

(** Reading the session's record and then using its board only. *)
Lemma cb_lookup_bind {A} (k : option GameData -> M A) :
  (forall o, colour_blind game_id w (k o)) ->
  (forall gd s, k (Some {| board := board gd; is_white := w |}) s = k (Some gd) s) ->
  colour_blind game_id w (bind (gets (fun s => games s !! game_id)) k).
Proof.
  intros Hk Hboard s. unfold bind, gets. rewrite recolor_lookup.
  destruct (games s !! game_id) as [gd|]; simpl.
  - rewrite Hboard, Hk. by destruct (k (Some gd) s).
  - rewrite Hk. by destruct (k None s).
Qed.

Ltac cb_step :=
  lazymatch goal with
  | |- colour_blind _ _ (ret _) => apply cb_ret
  | |- colour_blind _ _ (raise _) => apply cb_raise
  | |- colour_blind _ _ (lift _) => apply cb_lift
  | |- colour_blind _ _ (gets engine) => apply cb_gets_engine
  | |- colour_blind _ _ (emit _) => apply cb_emit
  | |- colour_blind _ _ (modify (set_engine _)) => apply cb_set_engine
  | |- colour_blind _ _ (board_becomes _ _) => apply cb_board_becomes
  | |- colour_blind _ _ (try_except _ _) => apply cb_try_except; [|intros ?]
  | |- colour_blind _ _ (bind (gets (fun s => games s !! _)) _) =>
      apply cb_lookup_bind; [intros ?|intros ? ?; reflexivity]
  | |- colour_blind _ _ (bind _ _) => apply cb_bind; [|intros ?]
  | |- colour_blind _ _ (except_only _ _ _) => unfold except_only
  | |- colour_blind _ _ (match ?x with _ => _ end) => destruct x
  end.

Ltac cb_with tac :=
  repeat first
    [ progress unfold mbind, M_bind, mret, M_ret, log, sleep
    | cb_step | tac | progress cbv beta zeta ].

Lemma cb_restart_engine r : colour_blind game_id w (restart_engine r).
Proof. unfold restart_engine. cb_with fail. Qed.

(** The reload stores the colour it finds, so it commutes with a
    recolouring as well. *)
Lemma cb_reload out : colour_blind game_id w (reload_game_state out game_id).
Proof.
  intros s. rewrite !SessionFacts.reload_cases. cbv zeta.
  destruct out as [e|fen]; [done|].
  destruct (Board_fen _) as [b|e]; [|done].
  rewrite recolor_lookup.
  destruct (games s !! game_id) as [gd|]; simpl; [|done].
  f_equal. apply SessionFacts.manager_eq; try done. simpl.
  apply map_eq. intros k. destruct (decide (k = game_id)) as [->|Hne].
  - by rewrite lookup_insert_eq, lookup_alter_eq, lookup_insert_eq.
  - by rewrite lookup_insert_ne, !lookup_alter_ne, lookup_insert_ne.
Qed.

Lemma cb_make_move env move : colour_blind game_id w (make_move env game_id move).
Proof.
  unfold make_move. generalize (seq 0 MAX_RETRIES) as l.
  induction l as [|a l IH]; simpl.
  - cb_with fail.
  - unfold mbind, M_bind. apply cb_bind.
    + unfold make_move_attempt. cb_with ltac:(apply cb_reload).
    + intros [r|]; [apply cb_ret|apply IH].
Qed.

Lemma cb_make_move_timed timer env move :
  colour_blind game_id w (make_move_timed timer env game_id move).
Proof.
  unfold make_move_timed. generalize (seq 0 MAX_RETRIES) as l.
  induction l as [|a l IH]; simpl.
  - cb_with fail.
  - unfold mbind, M_bind. apply cb_bind.
    + unfold make_move_attempt_timed, reload_game_state_timed.
      cb_with ltac:(apply cb_reload).
    + intros [[r|]|]; [apply cb_ret|apply IH|apply cb_ret].
Qed.

Lemma cb_apply_new_moves env l : forall b,
  colour_blind game_id w (apply_new_moves env game_id b l).
Proof.
  induction l as [|m rest IH]; intros b; simpl.
  - apply cb_ret.
  - unfold mbind, M_bind. apply cb_bind.
    + cb_with ltac:(apply cb_reload).
    + intros [b'|]; [apply IH|apply cb_ret].
Qed.

Lemma cb_compute_and_commit env b :
  colour_blind game_id w (compute_and_commit env game_id b).
Proof.
  unfold compute_and_commit.
  cb_with ltac:(first [apply cb_make_move_timed | apply cb_restart_engine]).
Qed.

Lemma cb_handle_game_state env moves :
  colour_blind game_id w (handle_game_state env moves game_id).
Proof.
  unfold handle_game_state.
  cb_with ltac:(first [apply cb_reload | apply cb_apply_new_moves
                      | apply cb_compute_and_commit]).
Qed.

(** X19. [handle_game_state] never consults the colour of its session:
    run on a state in which the session has the other colour flag, it
    returns the same, has the same effects and leaves the same boards. *)
Theorem game_state_ignores_colour env moves s :
  let out := handle_game_state env moves game_id s in
  let out' := handle_game_state env moves game_id (recolor game_id w s) in
  out'.1 = out.1
  /\ trace out'.2 = trace out.2
  /\ board_at game_id out'.2 = board_at game_id out.2
  /\ engine out'.2 = engine out.2.
Proof.
  cbv zeta. rewrite cb_handle_game_state. simpl.
  repeat split. unfold board_at. rewrite recolor_lookup.
  by destruct (games _ !! game_id).
Qed.

End WithChess.
End ColourFacts.

(** ** More on requests and the poller *)

Module PollerFacts.

Local Set Warnings "-clear-no-such-hyp".
Import Filter Session SessionCases KeepFacts.

Ltac unfold_M :=
  unfold board_becomes, games_getitem, getitem;
  unfold mbind, M_bind, mret, M_ret, bind, ret, raise, try_except, lift, gets,
    modify, emit, log, sleep, except_only in *.

Section WithChess.
Context {lib : ChessLib}.

Implicit Types (s : Manager) (penv : PollEnv).

(** Every URL built from [BASE_URL] is absolute. *)
Lemma base_url_absolute rest :
  String.prefix "https://" (BASE_URL +:+ rest) = true.
Proof. reflexivity. Qed.

Lemma safe_request_result {A} method url (out : request_outcome A) s :
  exists t : list effect,
    safe_request method url out s
    = (Ok (match out with
           | ReqStatus status body => if status =? 200 then Some body else None
           | ReqRaises _ => None
           end), add_effects t s).
Proof.
  unfold safe_request. unfold_M.
  destruct out as [e|status body]; simpl.
  - eexists [_; _]. f_equal.
    apply SessionFacts.manager_eq; try done. simpl. by rewrite <- app_assoc.
  - destruct (status =? 200); simpl.
    + by eexists [_].
    + eexists [_; _]. f_equal.
      apply SessionFacts.manager_eq; try done. simpl. by rewrite <- app_assoc.
Qed.

(** X23. [safe_request] turns every failure into [None]: it never
    raises, returns the body exactly when the status is 200, logs one
    error otherwise, requests an absolute URL (a relative one is put
    after [BASE_URL]) and writes to nothing but the trace. *)
Theorem safe_request_contains_failures {A} method url (out : request_outcome A) s :
  let u := if String.prefix "http://" url || String.prefix "https://" url
           then url else BASE_URL +:+ url in
  let r := safe_request method url out s in
  (String.prefix "http://" u || String.prefix "https://" u) = true
  /\ r.1 = Ok (match out with
               | ReqStatus status body => if status =? 200 then Some body else None
               | ReqRaises _ => None
               end)
  /\ (exists failure : list effect,
        effects_between s r.2 (method u :: failure)
        /\ (failure = [] <-> exists body, out = ReqStatus 200 body)
        /\ (failure <> [] -> exists what, failure = [Log ERROR what]))
  /\ games r.2 = games s /\ active_games r.2 = active_games s
  /\ engine r.2 = engine s.
Proof.
  cbv zeta. split.
  { destruct (String.prefix "http://" url || String.prefix "https://" url) eqn:E;
      [done|]. by rewrite base_url_absolute, orb_true_r. }
  unfold safe_request, effects_between. unfold_M.
  destruct out as [e|status body]; simpl.
  - split; [done|]. split; [|done].
    exists [Log ERROR "Request failed"]. split; [by rewrite <- app_assoc|].
    split; [|eauto]. split; [done|]. by intros [body Hb].
  - destruct (status =? 200) eqn:E; simpl.
    + apply Z.eqb_eq in E as ->. split; [done|]. split; [|done].
      exists []. split; [done|]. split; [|done]. split; eauto.
    + split; [done|]. split; [|done].
      exists [Log ERROR "HTTP Error"]. split; [by rewrite <- app_assoc|].
      split; [|eauto]. split; [done|].
      intros [body' [= -> _]]. done.
Qed.

(** *** Reconciliation *)

Lemma spawn_new_games_cons g rest s :
  spawn_new_games (g :: rest) s
  = match active_games s !! gameId g with
    | Some _ => spawn_new_games rest s
    | None =>
        spawn_new_games rest
          (set_active_games (insert (gameId g) g)
             (add_trace (CreateTask (gameId g)) s))
    end.
Proof.
  simpl. unfold mbind, M_bind, bind at 1. unfold gets at 1.
  destruct (active_games s !! gameId g); reflexivity.
Qed.

Lemma spawn_new_games_spec now_playing : forall s,
  let out := spawn_new_games now_playing s in
  out.1 = Ok tt /\ games out.2 = games s /\ engine out.2 = engine s
  /\ dom (active_games out.2) = dom (active_games s) ∪ playing_ids now_playing
  /\ (forall k v, active_games s !! k = Some v -> active_games out.2 !! k = Some v)
  /\ exists t : list effect,
       effects_between s out.2 t /\ NoDup t
       /\ forall e, e ∈ t <->
            exists k, e = CreateTask k /\ k ∈ playing_ids now_playing
                      /\ k ∉ dom (active_games s).
Proof.
  induction now_playing as [|g rest IH]; intros s; cbv zeta.
  - simpl. repeat split; try done.
    + unfold playing_ids. simpl. set_solver.
    + exists []. unfold effects_between. rewrite app_nil_r.
      split; [done|]. split; [constructor|].
      intros e. split; [intros He; by apply elem_of_nil in He|].
      intros (k & _ & Hk & _). unfold playing_ids in Hk. simpl in Hk.
      set_solver.
  - rewrite spawn_new_games_cons.
    unfold playing_ids. rewrite fmap_cons, list_to_set_cons.
    fold (playing_ids rest).
    destruct (active_games s !! gameId g) as [v0|] eqn:Hg.
    + 
      destruct (IH s) as (Hr & Hgames & Heng & Hdom & Hkeep & t & Ht & Hnd & Hin).
      assert (Hmem : gameId g ∈ dom (active_games s)).
      { apply elem_of_dom. eauto. }
      repeat split; try done.
      * rewrite Hdom. set_solver.
      * exists t. split; [done|]. split; [done|].
        intros e. rewrite Hin. split; intros (k & -> & Hk & Hnk);
          exists k; set_solver.
    + set (s1 := set_active_games _ (add_trace _ s)).
      destruct (IH s1) as (Hr & Hgames & Heng & Hdom & Hkeep & t & Ht & Hnd & Hin).
      assert (Hnot : gameId g ∉ dom (active_games s)).
      { by apply not_elem_of_dom. }
      assert (Hdom1 : dom (active_games s1) = {[gameId g]} ∪ dom (active_games s)).
      { unfold s1. simpl. by rewrite dom_insert_L. }
      repeat split; try done.
      * rewrite Hdom, Hdom1. set_solver.
      * intros k v Hk. apply Hkeep. unfold s1. simpl.
        rewrite lookup_insert_ne; [done|]. intros <-. congruence.
      * exists (CreateTask (gameId g) :: t). split.
        { unfold effects_between in *. rewrite Ht. unfold s1. simpl.
          by rewrite <- app_assoc. }
        split.
        { constructor; [|done]. intros Hmem. apply Hin in Hmem
            as (k & [= <-] & _ & Hnk). rewrite Hdom1 in Hnk. set_solver. }
        intros e. rewrite elem_of_cons, Hin, Hdom1. split.
        { intros [->|(k & -> & Hk & Hnk)].
          - exists (gameId g). set_solver.
          - exists k. set_solver. }
        { intros (k & -> & Hk & Hnk).
          destruct (decide (k = gameId g)) as [->|Hne]; [by left|].
          right. exists k. set_solver. }
Qed.

Lemma filter_playing_dom (running : gmap string Game) (ids : gset string) :
  dom (filter (fun kv : string * Game => kv.1 ∈ ids) running) ⊆ ids.
Proof.
  intros k Hk. apply elem_of_dom in Hk as [v Hv].
  by apply map_lookup_filter_Some in Hv as [_ Hv].
Qed.

Lemma reconcile_eq now_playing s :
  reconcile now_playing s
  = spawn_new_games now_playing
      (set_active_games
         (filter (fun kv : string * Game => kv.1 ∈ playing_ids now_playing)) s).
Proof. reflexivity. Qed.

Lemma reconcile_spec now_playing s :
  let out := reconcile now_playing s in
  out.1 = Ok tt /\ games out.2 = games s /\ engine out.2 = engine s
  /\ dom (active_games out.2) = playing_ids now_playing
  /\ (forall k v, k ∈ playing_ids now_playing -> active_games s !! k = Some v ->
                  active_games out.2 !! k = Some v)
  /\ exists t : list effect,
       effects_between s out.2 t /\ NoDup t
       /\ forall e, e ∈ t <->
            exists k, e = CreateTask k /\ k ∈ playing_ids now_playing
                      /\ k ∉ dom (active_games s).
Proof.
  cbv zeta. rewrite reconcile_eq.
  set (s1 := set_active_games _ s).
  destruct (spawn_new_games_spec now_playing s1)
    as (Hr & Hgames & Heng & Hdom & Hkeep & t & Ht & Hnd & Hin).
  assert (Hsub : dom (active_games s1) ⊆ playing_ids now_playing).
  { unfold s1. simpl. apply filter_playing_dom. }
  assert (Hdom1 : forall k, k ∈ playing_ids now_playing ->
            (k ∈ dom (active_games s1) <-> k ∈ dom (active_games s))).
  { intros k Hk. unfold s1. simpl. rewrite !elem_of_dom. split.
    - intros [v Hv]. apply map_lookup_filter_Some in Hv as [Hv _]. eauto.
    - intros [v Hv]. exists v. by apply map_lookup_filter_Some. }
  repeat split; try done.
  - rewrite Hdom. set_solver.
  - intros k v Hk Hv. apply Hkeep. unfold s1. simpl.
    by apply map_lookup_filter_Some.
  - exists t. split; [done|]. split; [done|].
    intros e. rewrite Hin. split; intros (k & -> & Hk & Hnk); exists k;
      (split; [done|]); (split; [done|]); by rewrite ?Hdom1 in *.
Qed.

(** X24. After the reconciliation the registry holds exactly the games
    of the playing list: a task for every game id of the list and for no
    other. *)
Theorem registry_matches_playing_list now_playing s :
  dom (active_games (reconcile now_playing s).2) = playing_ids now_playing.
Proof. apply reconcile_spec. Qed.

(** X25. The reconciliation keeps the task of every game that goes on
    and creates a task exactly for the listed games that had none, once
    each, also when the list names a game twice; it writes to no
    session. *)
Theorem reconcile_creates_only_new_tasks now_playing s :
  let out := reconcile now_playing s in
  (forall k v, k ∈ playing_ids now_playing -> active_games s !! k = Some v ->
               active_games out.2 !! k = Some v)
  /\ (exists t : list effect,
        effects_between s out.2 t /\ NoDup t
        /\ forall e, e ∈ t <->
             exists k, e = CreateTask k /\ k ∈ playing_ids now_playing
                       /\ k ∉ dom (active_games s))
  /\ games out.2 = games s.
Proof.
  destruct (reconcile_spec now_playing s) as (_ & Hg & _ & _ & Hkeep & Ht).
  by repeat split.
Qed.

(** *** One pass of the poller *)

Lemma answer_challenges_cons penv c rest s :
  answer_challenges penv (c :: rest) s
  = bind (if (is_challenge_acceptable ACCEPTANCE_CRITERIA c).1
          then accept_challenge penv (id c)
          else decline_challenge penv (id c))
      (fun _ => answer_challenges penv rest) s.
Proof.
  simpl. by destruct (is_challenge_acceptable ACCEPTANCE_CRITERIA c) as [[|] ?].
Qed.

Lemma answer_one penv c s :
  accepts_get_through penv ->
  exists t : list effect,
    (if (is_challenge_acceptable ACCEPTANCE_CRITERIA c).1
     then accept_challenge penv (id c)
     else decline_challenge penv (id c)) s
    = (Ok tt, add_effects t s)
    /\ List.filter is_post t = [answer_of c].
Proof.
  intros Hacc. unfold answer_of.
  destruct (is_challenge_acceptable ACCEPTANCE_CRITERIA c).1.
  - unfold accept_challenge. unfold_M. destruct (Hacc (id c)) as [st ->].
    by exists [HttpPost (BASE_URL +:+ "/challenge/" +:+ id c +:+ "/accept")].
  - unfold decline_challenge, safe_request.
    rewrite base_url_absolute, orb_true_r. unfold_M.
    destruct (decline_out penv (id c)) as [e|st []]; simpl.
    + exists [HttpPost (BASE_URL +:+ "/challenge/" +:+ id c +:+ "/decline");
              Log ERROR "Request failed"].
      split; [|done]. f_equal.
      apply SessionFacts.manager_eq; try done. simpl. by rewrite <- app_assoc.
    + destruct (st =? 200); simpl.
      * by exists [HttpPost (BASE_URL +:+ "/challenge/" +:+ id c +:+ "/decline")].
      * exists [HttpPost (BASE_URL +:+ "/challenge/" +:+ id c +:+ "/decline");
                Log ERROR "HTTP Error"].
        split; [|done]. f_equal.
        apply SessionFacts.manager_eq; try done. simpl. by rewrite <- app_assoc.
Qed.

Lemma answer_challenges_spec penv challenges : forall s,
  accepts_get_through penv ->
  exists t : list effect,
    answer_challenges penv challenges s = (Ok tt, add_effects t s)
    /\ List.filter is_post t = answer_of <$> challenges.
Proof.
  induction challenges as [|c rest IH]; intros s Hacc.
  - exists []. simpl. by rewrite SessionFacts.add_effects_nil.
  - rewrite answer_challenges_cons. unfold bind.
    destruct (answer_one penv c s Hacc) as (t1 & -> & H1).
    destruct (IH (add_effects t1 s) Hacc) as (t2 & -> & H2).
    exists (t1 ++ t2)%list. rewrite SessionFacts.add_effects_app.
    split; [done|]. by rewrite List.filter_app, H1, H2.
Qed.

(** X26. When no accept raises, one pass answers every pending challenge
    exactly once and in the order of the list: the POST requests of the
    loop are, one per challenge, the accept of a challenge the filter
    accepts and the decline of one it denies; failed declines do not
    disturb the others. *)
Theorem every_challenge_answered_once penv challenges s :
  accepts_get_through penv ->
  let out := answer_challenges penv challenges s in
  out.1 = Ok tt
  /\ exists t : list effect,
       effects_between s out.2 t
       /\ List.filter is_post t = answer_of <$> challenges.
Proof.
  intros Hacc. cbv zeta.
  destruct (answer_challenges_spec penv challenges s Hacc) as (t & -> & Ht).
  split; [done|]. by exists t.
Qed.

Lemma grows_emit ev : keeps grows (emit ev).
Proof. intros s. by exists [ev]. Qed.

Lemma grows_safe_request {A} method url (out : request_outcome A) :
  keeps grows (safe_request method url out).
Proof. apply (keeps_safe_request grows ""). Qed.

Lemma grows_answer_challenges penv challenges :
  keeps grows (answer_challenges penv challenges).
Proof.
  induction challenges as [|c rest IH]; [apply keeps_ret; apply _|].
  intros s. rewrite answer_challenges_cons. revert s.
  apply keeps_bind; [apply _| |by intros _].
  destruct (is_challenge_acceptable ACCEPTANCE_CRITERIA c).1.
  - unfold accept_challenge, mbind, M_bind, mret, M_ret.
    apply keeps_bind; [apply _|apply grows_emit|intros _].
    destruct (accept_out penv (id c)); [apply keeps_raise|apply keeps_ret];
      apply _.
  - unfold decline_challenge, mbind, M_bind, mret, M_ret.
    apply keeps_bind; [apply _|apply grows_safe_request|intros _].
    apply keeps_ret; apply _.
Qed.

Lemma grows_reconcile now_playing : keeps grows (reconcile now_playing).
Proof.
  intros s. destruct (reconcile_spec now_playing s)
    as (_ & _ & _ & _ & _ & t & Ht & _). by exists t.
Qed.

Lemma ends_with_bind {A B} (m : M A) (k : A -> M B) (last : effect) :
  keeps grows m ->
  (forall a s1 b s', k a s1 = (Ok b, s') ->
     exists t : list effect, trace s' = (trace s1 ++ t ++ [last])%list) ->
  forall s b s', bind m k s = (Ok b, s') ->
    exists t : list effect, trace s' = (trace s ++ t ++ [last])%list.
Proof.
  intros Hm Hk s b s'. unfold bind. specialize (Hm s).
  destruct (m s) as [[a|e] s1]; [|done]. simpl in Hm.
  destruct Hm as [t1 H1]. intros Hks.
  destruct (Hk a s1 b s' Hks) as [t2 H2].
  exists (t1 ++ t2)%list. unfold effects_between in H1.
  by rewrite H2, H1, <- !app_assoc.
Qed.

(** X27. A pass of the poller never raises and always ends in a sleep:
    the jittered delay of [REQUEST_DELAY] after a pass that ran through,
    5 seconds after a pass that an exception cut short. *)
Theorem poll_pass_ends_in_a_sleep penv s :
  let out := poll_cycle penv s in
  out.1 = Ok tt
  /\ exists (t : list effect) (last : effect),
       effects_between s out.2 (t ++ [last])
       /\ (last = SleepUniform REQUEST_DELAY.1 REQUEST_DELAY.2 \/ last = Sleep 5).
Proof.
  cbv zeta. split; [apply SessionFacts.returns_unit, SessionFacts.nr_poll_cycle|].
  unfold poll_cycle. unfold try_except at 1.
  set (body := mbind _ _).
  assert (Hgrows : keeps grows body).
  { unfold body, mbind, M_bind.
    apply keeps_bind; [apply _|apply grows_safe_request|intros r].
    apply keeps_bind; [apply _|apply grows_answer_challenges|intros _].
    apply keeps_bind; [apply _|apply grows_safe_request|intros g].
    apply keeps_bind; [apply _|apply grows_reconcile|intros _].
    apply grows_emit. }
  assert (Hok : forall b s', body s = (Ok b, s') ->
            exists t : list effect,
              trace s' = (trace s ++ t
                          ++ [SleepUniform REQUEST_DELAY.1 REQUEST_DELAY.2])%list).
  { unfold body, mbind, M_bind.
    apply ends_with_bind; [apply grows_safe_request|intros r].
    apply ends_with_bind; [apply grows_answer_challenges|intros _].
    apply ends_with_bind; [apply grows_safe_request|intros g].
    apply ends_with_bind; [apply grows_reconcile|intros _].
    intros s1 b s' [= _ <-]. by exists []. }
  specialize (Hgrows s). destruct (body s) as [[b|e] s'] eqn:Hb; simpl in *.
  - destruct (Hok b s' eq_refl) as [t Ht].
    exists t, (SleepUniform REQUEST_DELAY.1 REQUEST_DELAY.2).
    split; [exact Ht|by left].
  - destruct Hgrows as [t Ht]. unfold_M. simpl.
    exists (t ++ [Log ERROR "main loop error"])%list, (Sleep 5).
    split; [|by right]. unfold effects_between in *. simpl.
    by rewrite Ht, <- !app_assoc.
Qed.

(** X28. When the fetch of the playing list fails in a pass that no
    accept has cut short, the list counts as empty and the
    reconciliation empties the registry: every running task loses its
    entry, while the session data in [self.games] stays. *)
Theorem failed_playing_fetch_empties_registry penv s :
  accepts_get_through penv ->
  playing_fetch_fails penv ->
  let out := poll_cycle penv s in
  active_games out.2 = ∅ /\ games out.2 = games s.
Proof.
  intros Hacc Hfail. cbv zeta.
  destruct (safe_request_result HttpGet (BASE_URL +:+ "/challenge")
              (challenges_out penv) s) as [t1 E1].
  set (o1 := match challenges_out penv with
             | ReqStatus status body => if status =? 200 then Some body else None
             | ReqRaises _ => None
             end) in E1.
  destruct (answer_challenges_spec penv (default [] (mjoin o1))
              (add_effects t1 s) Hacc) as (t2 & E2 & _).
  destruct (safe_request_result HttpGet (BASE_URL +:+ "/account/playing")
              (playing_out penv) (add_effects t2 (add_effects t1 s))) as [t3 E3].
  assert (Hnone : match playing_out penv with
                  | ReqStatus status body =>
                      if status =? 200 then Some body else None
                  | ReqRaises _ => None
                  end = None).
  { unfold playing_fetch_fails in Hfail.
    destruct (playing_out penv) as [e|status body]; [done|].
    destruct (status =? 200) eqn:E; [lia|done]. }
  rewrite Hnone in E3.
  unfold poll_cycle, try_except, mbind, M_bind, bind.
  rewrite E1, E2, E3. simpl.
  split; [|done].
  apply map_eq. intros k. rewrite lookup_empty.
  apply map_lookup_filter_None. right. intros v _. simpl.
  apply not_elem_of_empty.
Qed.

End WithChess.
End PollerFacts.

(** ** Start-up and shutdown *)

Module LifecycleFacts.
Import Lifecycle.

(** X29. [close] never raises and leaves neither an engine handle nor a
    session behind, whatever [quit] and the closing of the session
    answer; it asks the engine to quit exactly when there was a handle and
    closes the session exactly when there was an open one.  Closing again
    does nothing. *)
Theorem close_releases_everything w r :
  let out := close w r in
  out.1 = Ok tt
  /\ engine out.2 = None /\ _session out.2 = None
  /\ (exists t : list step,
        steps out.2 = (steps r ++ t)%list
        /\ (Quit ∈ t <-> is_Some (engine r))
        /\ (forall id, CloseSession id ∈ t <->
              exists cs, _session r = Some cs /\ closed cs = false
                         /\ session_id cs = id))
  /\ forall w', steps (close w' out.2).2 = steps out.2.
Proof.
  cbv zeta. unfold close, session_open.
  destruct r as [[[sid [|]]|] [h|] st]; simpl;
    (split; [done|]); (split; [done|]); (split; [done|]);
    (split; [|done]).
  - exists [Quit]. split; [done|]. split.
    + split; [by eexists|]. intros _. apply list_elem_of_here.
    + intros id. rewrite list_elem_of_singleton. split; [done|].
      by intros (cs & [= <-] & Hc & _).
  - exists []. rewrite app_nil_r. split; [done|]. split.
    + split; [by intros ?%elem_of_nil|by intros [? ?]].
    + intros id. split; [by intros ?%elem_of_nil|].
      by intros (cs & [= <-] & Hc & _).
  - exists [Quit; CloseSession sid]. split; [by rewrite <- app_assoc|]. split.
    + split; [by eexists|]. intros _. apply list_elem_of_here.
    + intros id. rewrite elem_of_cons, list_elem_of_singleton. split.
      * intros [|[= <-]]; [done|]. by eexists.
      * intros (cs & [= <-] & _ & <-). by right.
  - exists [CloseSession sid]. split; [done|]. split.
    + rewrite list_elem_of_singleton. split; [done|by intros [? ?]].
    + intros id. rewrite list_elem_of_singleton. split.
      * intros [= <-]. by eexists.
      * by intros (cs & [= <-] & _ & <-).
  - exists [Quit]. split; [done|]. split.
    + split; [by eexists|]. intros _. apply list_elem_of_here.
    + intros id. rewrite list_elem_of_singleton. split; [done|].
      by intros (cs & ? & _).
  - exists []. rewrite app_nil_r. split; [done|]. split.
    + split; [by intros ?%elem_of_nil|by intros [? ?]].
    + intros id. split; [by intros ?%elem_of_nil|].
      by intros (cs & ? & _).
Qed.

(** X30. [init] returns normally exactly when the engine binary exists,
    the launch succeeds and the configuration succeeds, and then the
    manager holds the new handle.  In every other case it raises, after
    [close]: no engine handle and no session are left, and a process
    launched before the failure has been asked to quit. *)
Theorem init_all_or_nothing w r :
  let out := init w r in
  (out.1 = Ok tt <->
     stockfish_exists w = true
     /\ (exists h, popen_out w = Ok h) /\ configure_out w = Ok tt)
  /\ (out.1 = Ok tt -> exists h, popen_out w = Ok h /\ engine out.2 = Some h)
  /\ (out.1 <> Ok tt ->
        (exists e, out.1 = Raise e)
        /\ engine out.2 = None /\ _session out.2 = None
        /\ (forall h, stockfish_exists w = true -> popen_out w = Ok h ->
                      Quit ∈ steps out.2)).
Proof.
  cbv zeta. unfold init, close, session_open.
  destruct (stockfish_exists w); simpl.
  2:{ split; [split; [done|by intros [? _]]|]. split; [done|]. intros _.
      destruct (engine r), (_session r) as [[sid [|]]|]; simpl;
        (split; [by eexists|]); by repeat split. }
  destruct (popen_out w) as [h|e]; simpl.
  2:{ split; [split; [done|by intros (_ & [? ?] & _)]|]. split; [done|]. intros _.
      destruct (engine r), (_session r) as [[sid [|]]|]; simpl;
        (split; [by eexists|]); by repeat split. }
  destruct (configure_out w) as [[]|e]; simpl.
  - split; [split; [by eauto|done]|]. split; [by eauto|]. done.
  - split; [split; [done|by intros (_ & _ & ?)]|]. split; [done|]. intros _.
    destruct (_session r) as [[sid [|]]|]; simpl;
      (split; [by eexists|]); (split; [done|]); (split; [done|]);
      intros h' _ _; rewrite !elem_of_app, !list_elem_of_singleton;
      tauto.
Qed.

(** The [session] property hands out an open session: the one the
    manager holds if that is open, a new one otherwise; either way the
    manager holds the session it returned. *)
Lemma session_is_open w r :
  let out := session w r in
  closed out.1 = false
  /\ _session out.2 = Some out.1
  /\ (forall cs, _session r = Some cs -> closed cs = false ->
                 out = (cs, r)).
Proof.
  cbv zeta. unfold session, session_open.
  destruct r as [[[sid [|]]|] e st]; simpl;
    (split; [done|]); (split; [done|]); intros cs Hcs Hc;
    by simplify_eq.
Qed.

(** [_reconnect_session] never raises; unless closing the old session
    raises, the manager then holds a new open session. *)
Lemma reconnect_gives_new_session w r :
  let out := _reconnect_session w r in
  out.1 = Ok tt
  /\ (session_open r = None \/ close_out w = Ok tt ->
        _session out.2 = Some {| session_id := fresh_id w; closed := false |}).
Proof.
  cbv zeta. unfold _reconnect_session.
  destruct (session_open r) as [cs|]; simpl.
  - destruct (close_out w) as [[]|e]; simpl; split; try done.
    by intros [|].
  - by split.
Qed.

End LifecycleFacts.

(** ** Further runs on the book instance *)

Module BookRuns.
Import Session SessionCases Book BookCases.

Lemma reload_failure_keeps_boards_witness :
  board_of "g1"
    (reload_game_state (lib:=book) (FetchRaises ClientError) "g1"
       (one_game "g1" after_e2e4 true)).2
  = Some after_e2e4.
Proof.
  rewrite (SessionMore.reload_failure_keeps_boards (lib:=book));
    [reflexivity|]. left. by exists ClientError.
Defined.

Lemma reload_keeps_colour_witness :
  @is_white book
  <$> @games book (reload_game_state (lib:=book) (snapshot resync_env) "g1"
                     (one_game "g1" after_e2e4 false)).2 !! "g1"
  = Some false.
Proof.
  destruct (SessionMore.reload_keeps_colour (lib:=book) (snapshot resync_env)
              "g1" (one_game "g1" after_e2e4 false)
              (@Build_GameData book after_e2e4 false))
    as ((gd' & -> & Hw) & _); [vm_compute; reflexivity|].
  simpl. by rewrite Hw.
Defined.

Lemma malformed_move_in_history_witness :
  (handle_game_state (lib:=book) quiet_env (Some "e2e4 xx") "g1"
     (one_game "g1" book_start true)).1 = Ok tt
  /\ trace (handle_game_state (lib:=book) quiet_env (Some "e2e4 xx") "g1"
              (one_game "g1" book_start true)).2
     = [Log ERROR "fatal error"].
Proof.
  rewrite (SessionMore.malformed_move_in_history (lib:=book) quiet_env
             (Some "e2e4 xx") "g1" (one_game "g1" book_start true)
             (@Build_GameData book book_start true) ["e2e4"] "xx" []
             after_e2e4 InvalidMoveError);
    first [by split | vm_compute; reflexivity | discriminate].
Defined.

Lemma bad_move_in_initial_history_witness :
  trace (handle_initial_state (lib:=book) quiet_env (Some "e2e4 e2e4") "g1"
           (one_game "g1" book_start false)).2
  = [Log ERROR "bad move in history"].
Proof.
  rewrite (SessionMore.bad_move_in_initial_history (lib:=book) quiet_env
             "e2e4 e2e4" "g1" (one_game "g1" book_start false)
             (@Build_GameData book book_start false) ["e2e4"] "e2e4" []
             after_e2e4 IllegalMoveError);
    first [done | vm_compute; reflexivity].
Defined.

Lemma restart_stops_at_failed_quit_witness :
  engine (restart_engine (lib:=book) stuck_quit (one_game "g1" book_start true)).2
  = Some 0%nat.
Proof.
  by rewrite (SessionMore.restart_stops_at_failed_quit (lib:=book) stuck_quit
                (one_game "g1" book_start true) 0%nat EngineTerminatedError).
Defined.

Lemma restart_stores_new_handle_witness :
  engine (restart_engine (lib:=book) bad_configure (one_game "g1" book_start true)).2
  = Some 1%nat.
Proof.
  apply (SessionMore.restart_stores_new_handle (lib:=book) bad_configure
           (one_game "g1" book_start true) 1%nat); [reflexivity|by right].
Defined.

Lemma every_challenge_answered_once_witness :
  (answer_challenges (lib:=book) decline_fails_penv (rev pending) idle).1 = Ok tt.
Proof.
  apply (PollerFacts.every_challenge_answered_once (lib:=book)).
  intros challenge_id. by exists 200.
Defined.

Lemma failed_playing_fetch_empties_registry_witness :
  active_games (poll_cycle (lib:=book) playing_fails_penv busy).2 = ∅.
Proof.
  apply (PollerFacts.failed_playing_fetch_empties_registry (lib:=book)).
  - intros challenge_id. by exists 200.
  - exact I.
Defined.

End BookRuns.
